(** * MeOCR: the upload pipeline and UI state of [App]

    A shallow embedding of the React component [App] (src, the single
    component file): the record store [processedImages], the detail
    selection [selectedImage], the per-file pipeline [processImage], the
    sequential loop [onDrop] and the card actions.

    The component is event driven.  Every callback of the source (a drop,
    [reader.onload], a streamed chunk, the timer of [delay], a click) is one
    [Event]; [step] runs the callback on the application state.  Values the
    browser or the extraction service hand to a callback (the random number,
    the object URL, the data URL, a chunk of text, a raw error) are carried by
    the event. *)

From stdpp Require Import base numbers list strings.
From Stdlib Require Import Ascii.


(** ** JavaScript string operations used by the component *)

(** [s.substring(n)]: the text from index [n] on, empty past the end. *)
Fixpoint substring_from (n : nat) (s : string) : string :=
  match n, s with
  | S n', String _ s' => substring_from n' s'
  | _, _ => s
  end.

Arguments substring_from : simpl never.

(** [s.split(sep)] for a one-character separator: never an empty array. *)
Fixpoint split (sep : ascii) (s : string) : list string :=
  match s with
  | EmptyString => [EmptyString]
  | String c s' =>
      if Ascii.eqb c sep then EmptyString :: split sep s'
      else match split sep s' with
           | piece :: pieces => String c piece :: pieces
           | [] => [String c EmptyString]
           end
  end.

(** Truthiness of an optional string field ([img.error ? .. : ..]): absent
    and the empty string are falsy. *)
Definition truthy (e : option string) : bool :=
  match e with
  | Some m => negb (String.eqb m "")
  | None => false
  end.

(** [s.length].  A text is held as its UTF-8 encoding, one [ascii] per
    byte, and [s.length] counts UTF-16 code units: a code point below
    U+10000 is one unit, a code point from U+10000 on is two (a surrogate
    pair).  In UTF-8 every code point starts with a byte that is not a
    continuation byte (0x80 to 0xBF), and the lead byte of a code point
    from U+10000 on is 0xF0 or above.  Concatenation, [split] at a comma or
    a dot and the truthiness test are the same on both encodings;
    [substring] is applied to [Math.random().toString(36)] only, which is
    ASCII. *)
Definition utf16_units (c : ascii) : nat :=
  let b := N_of_ascii c in
  if (b <? 128)%N then 1
  else if (b <? 192)%N then 0
  else if (b <? 240)%N then 1
  else 2.

Fixpoint utf16_length (s : string) : nat :=
  match s with
  | EmptyString => 0
  | String c s' => utf16_units c + utf16_length s'
  end.

(** ** Data *)

(** The part of a browser [File] the component reads. *)
Record File := { file_name : string; file_type : string }.

(** [interface ProcessedImage]. *)
Record ProcessedImage := {
  id : string;
  name : string;
  text : string;
  isProcessing : bool;
  error : option string;
  imageUrl : string
}.

Definition FAILED_TO_PROCESS : string := "Failed to process image".
Definition FILE_READING_ERROR : string := "File reading error".
Definition DELAY_MS : N := 1000.

(** What one call of [processImage] receives from the browser:
    [Math.random().toString(36)], the URL minted by [URL.createObjectURL],
    and the exception, if any, thrown synchronously while the model handle
    and the [FileReader] are set up. *)
Record Draw := {
  random36 : string;
  objectUrl : string;
  setupError : option string
}.

(** The body of one [generateContentStream] call. *)
Record Request := { data : option string; mimeType : string }.

(** The anchor element [downloadText] clicks. *)
Record Download := {
  download : string;
  href : string;
  content : string;
  contentType : string
}.

(** Where one run of [onDrop] is suspended. *)
Inductive Phase :=
| Reading (imageId : string) (file : File)
| Requesting (imageId : string)
| Streaming (imageId : string) (fullText : string)
| Delaying (deadline : N)
| Done.

(** One run of [onDrop]: the array it iterates, the iterator position (the
    number of files already handed to [processImage]) and the suspension
    point. *)
Record Task := {
  acceptedFiles : list File;
  pos : nat;
  phase : Phase
}.

(** History of the pipeline, newest entry first: a call of [processImage],
    a call of [generateContentStream], a chunk read from the stream, the
    settling of the promise ([resolve()] is [true], [reject(..)] is
    [false]); each with the batch, the record id and the time. *)
Inductive LogEntry :=
| LIntake (t : nat) (file : File) (imageId : string) (time : N)
| LRequest (t : nat) (imageId : string) (time : N)
| LChunk (t : nat) (imageId : string) (chunkText : string) (time : N)
| LSettle (t : nat) (imageId : string) (resolved : bool) (time : N).

Record State := {
  processedImages : list ProcessedImage;
  selectedImage : option ProcessedImage;
  tasks : list Task;
  objectURLs : list string;
  network : list Request;
  console : list string;
  downloads : list Download;
  clipboard : option string;
  now : N;
  log : list LogEntry
}.

Definition init : State :=
  {| processedImages := []; selectedImage := None; tasks := [];
     objectURLs := []; network := []; console := []; downloads := [];
     clipboard := None; now := 0%N; log := [] |}.

(** *** Field updates *)

Definition upd_store (f : list ProcessedImage → list ProcessedImage)
    (s : State) : State :=
  {| processedImages := f (processedImages s);
     selectedImage := selectedImage s; tasks := tasks s;
     objectURLs := objectURLs s; network := network s; console := console s;
     downloads := downloads s; clipboard := clipboard s; now := now s;
     log := log s |}.

Definition set_selected (sel : option ProcessedImage) (s : State) : State :=
  {| processedImages := processedImages s;
     selectedImage := sel; tasks := tasks s;
     objectURLs := objectURLs s; network := network s; console := console s;
     downloads := downloads s; clipboard := clipboard s; now := now s;
     log := log s |}.

Definition upd_tasks (f : list Task → list Task) (s : State) : State :=
  {| processedImages := processedImages s;
     selectedImage := selectedImage s; tasks := f (tasks s);
     objectURLs := objectURLs s; network := network s; console := console s;
     downloads := downloads s; clipboard := clipboard s; now := now s;
     log := log s |}.

Definition add_url (u : string) (s : State) : State :=
  {| processedImages := processedImages s;
     selectedImage := selectedImage s; tasks := tasks s;
     objectURLs := objectURLs s ++ [u]; network := network s;
     console := console s;
     downloads := downloads s; clipboard := clipboard s; now := now s;
     log := log s |}.

Definition add_request (r : Request) (s : State) : State :=
  {| processedImages := processedImages s;
     selectedImage := selectedImage s; tasks := tasks s;
     objectURLs := objectURLs s; network := network s ++ [r];
     console := console s;
     downloads := downloads s; clipboard := clipboard s; now := now s;
     log := log s |}.

Definition add_console (m : string) (s : State) : State :=
  {| processedImages := processedImages s;
     selectedImage := selectedImage s; tasks := tasks s;
     objectURLs := objectURLs s; network := network s;
     console := console s ++ [m];
     downloads := downloads s; clipboard := clipboard s; now := now s;
     log := log s |}.

Definition add_download (d : Download) (s : State) : State :=
  {| processedImages := processedImages s;
     selectedImage := selectedImage s; tasks := tasks s;
     objectURLs := objectURLs s; network := network s; console := console s;
     downloads := downloads s ++ [d]; clipboard := clipboard s; now := now s;
     log := log s |}.

Definition set_clipboard (c : string) (s : State) : State :=
  {| processedImages := processedImages s;
     selectedImage := selectedImage s; tasks := tasks s;
     objectURLs := objectURLs s; network := network s; console := console s;
     downloads := downloads s; clipboard := Some c; now := now s;
     log := log s |}.

Definition advance (dt : N) (s : State) : State :=
  {| processedImages := processedImages s;
     selectedImage := selectedImage s; tasks := tasks s;
     objectURLs := objectURLs s; network := network s; console := console s;
     downloads := downloads s; clipboard := clipboard s;
     now := (now s + dt)%N;
     log := log s |}.

Definition add_log (e : LogEntry) (s : State) : State :=
  {| processedImages := processedImages s;
     selectedImage := selectedImage s; tasks := tasks s;
     objectURLs := objectURLs s; network := network s; console := console s;
     downloads := downloads s; clipboard := clipboard s; now := now s;
     log := e :: log s |}.

Definition with_phase (p : Phase) (task : Task) : Task :=
  {| acceptedFiles := acceptedFiles task; pos := pos task; phase := p |}.

(** ** The store updaters passed to [setProcessedImages] *)

(** [{ ...img, text: fullText }] *)
Definition withText (fullText : string) (img : ProcessedImage) :=
  {| id := id img; name := name img; text := fullText;
     isProcessing := isProcessing img; error := error img;
     imageUrl := imageUrl img |}.

(** [{ ...img, isProcessing: false }] *)
Definition withDone (img : ProcessedImage) :=
  {| id := id img; name := name img; text := text img;
     isProcessing := false; error := error img;
     imageUrl := imageUrl img |}.

(** [{ ...img, isProcessing: false, error: msg }] *)
Definition withError (msg : string) (img : ProcessedImage) :=
  {| id := id img; name := name img; text := text img;
     isProcessing := false; error := Some msg;
     imageUrl := imageUrl img |}.

(** [prev.map((img) => img.id === imageId ? f(img) : img)] *)
Definition mapImage (imageId : string) (f : ProcessedImage → ProcessedImage)
    (prev : list ProcessedImage) : list ProcessedImage :=
  (λ img, if String.eqb (id img) imageId then f img else img) <$> prev.

(** [[...prev, img]] *)
Definition appendImage (img : ProcessedImage) (prev : list ProcessedImage) :=
  prev ++ [img].

(** [prev.filter((img) => img.id !== i)] *)
Definition removeById (i : string) (prev : list ProcessedImage) :=
  filter (λ img, id img ≠ i) prev.

(** The record [processImage] appends for a file. *)
Definition newImage (file : File) (d : Draw) : ProcessedImage :=
  {| id := substring_from 7 (random36 d);
     name := file_name file;
     text := "";
     isProcessing := true;
     error := None;
     imageUrl := objectUrl d |}.

(** ** The pipeline *)

(** The promise of [processImage] settles and [onDrop] goes on to
    [await delay(1000)]. *)
Definition settle (t : nat) (imageId : string) (resolved : bool) (s : State)
    : State * Phase :=
  (add_log (LSettle t imageId resolved (now s)) s,
   Delaying (now s + DELAY_MS)%N).

(** The synchronous part of [processImage(file)], called by batch [t]: the
    record is appended, then the model handle and the reader are set up; an
    exception there lands in the outer [catch], which marks the record and
    rejects, and [onDrop] logs the rejection. *)
Definition processImage (t : nat) (file : File) (d : Draw) (s : State)
    : State * Phase :=
  let imageId := substring_from 7 (random36 d) in
  let s1 :=
    add_log (LIntake t file imageId (now s))
      (upd_store (appendImage (newImage file d)) (add_url (objectUrl d) s)) in
  match setupError d with
  | None => (s1, Reading imageId file)
  | Some raw =>
      settle t imageId false
        (add_console raw
           (upd_store (mapImage imageId (withError FAILED_TO_PROCESS)) s1))
  end.

(** [onDrop(acceptedFiles)] up to its first [await]. *)
Definition onDrop (files : list File) (d : Draw) (s : State) : State :=
  let t := length (tasks s) in
  match files with
  | [] =>
      upd_tasks (λ ts, ts ++ [{| acceptedFiles := []; pos := 0;
                                 phase := Done |}]) s
  | file :: _ =>
      let '(s', ph) := processImage t file d s in
      upd_tasks (λ ts, ts ++ [{| acceptedFiles := files; pos := 1;
                                 phase := ph |}]) s'
  end.

(** The callbacks that resume a suspended run of [onDrop]. *)
Inductive ProcEvent :=
| ReaderLoad (result : string)
| ReaderError
| StreamOpen
| RequestFail (raw : string)
| Chunk (chunkText : string)
| ChunkFail (raw : string)
| StreamEnd
| Timer (d : Draw).

Definition proc_step (t : nat) (task : Task) (pe : ProcEvent) (s : State)
    : option (State * Task) :=
  match phase task, pe with
  | Reading imageId file, ReaderLoad result =>
      let base64Data := split "," result !! 1 in
      Some (add_log (LRequest t imageId (now s))
              (add_request {| data := base64Data;
                              mimeType := file_type file |} s),
            with_phase (Requesting imageId) task)
  | Reading imageId file, ReaderError =>
      let '(s', ph) :=
        settle t imageId false
          (add_console FILE_READING_ERROR
             (upd_store (mapImage imageId (withError FILE_READING_ERROR)) s))
      in Some (s', with_phase ph task)
  | Requesting imageId, StreamOpen =>
      Some (s, with_phase (Streaming imageId "") task)
  | Requesting imageId, RequestFail raw =>
      let '(s', ph) :=
        settle t imageId true
          (upd_store (mapImage imageId (withError FAILED_TO_PROCESS)) s)
      in Some (s', with_phase ph task)
  | Streaming imageId fullText, Chunk chunkText =>
      let fullText' := fullText +:+ chunkText in
      Some (add_log (LChunk t imageId chunkText (now s))
              (upd_store (mapImage imageId (withText fullText')) s),
            with_phase (Streaming imageId fullText') task)
  | Streaming imageId fullText, ChunkFail raw =>
      let '(s', ph) :=
        settle t imageId true
          (upd_store (mapImage imageId (withError FAILED_TO_PROCESS)) s)
      in Some (s', with_phase ph task)
  | Streaming imageId fullText, StreamEnd =>
      let '(s', ph) :=
        settle t imageId true (upd_store (mapImage imageId withDone) s)
      in Some (s', with_phase ph task)
  | Delaying deadline, Timer d =>
      if (deadline <=? now s)%N then
        match acceptedFiles task !! pos task with
        | Some file =>
            let '(s', ph) := processImage t file d s in
            Some (s', {| acceptedFiles := acceptedFiles task;
                         pos := S (pos task); phase := ph |})
        | None => Some (s, with_phase Done task)
        end
      else None
  | _, _ => None
  end.

(** ** The view *)

Inductive CardBody :=
| ErrorBox (msg : string)
| TextPreview (markdown : string) (showMore : bool).

(** The body of a card: [img.error ? <error> : <text, Show More>], with
    "Show More" rendered when [img.text.length > 100]. *)
Definition card_body (img : ProcessedImage) : CardBody :=
  if truthy (error img) then ErrorBox (default "" (error img))
  else TextPreview (text img) (100 <? utf16_length (text img)).

(** The right panel: name and text of [selectedImage], when there is one. *)
Definition detail_pane (s : State) : option (string * string) :=
  (λ img, (name img, text img)) <$> selectedImage s.

(** ** The card actions *)

(** [downloadText(text, filename)]; [blobUrl] is the URL minted for the
    blob. *)
Definition download_name (filename : string) : string :=
  match split "." filename with
  | piece :: _ => piece +:+ "-extracted.txt"
  | [] => "undefined-extracted.txt"
  end.

Definition downloadText (txt filename blobUrl : string) (s : State) : State :=
  add_download {| download := download_name filename; href := blobUrl;
                  content := txt; contentType := "text/plain" |}
    (add_url blobUrl s).

(** [removeImage(id)] *)
Definition removeImage (i : string) (s : State) : State :=
  let s' := upd_store (removeById i) s in
  match selectedImage s with
  | Some sel => if String.eqb (id sel) i then set_selected None s' else s'
  | None => s'
  end.

Inductive UserEvent :=
| ClickCard (k : nat)
| ShowMore (k : nat)
| ClosePane
| ClickCopy (k : nat)
| ClickDownload (k : nat) (blobUrl : string)
| ClickRemove (k : nat).

(** A control can be clicked only when the current render shows it: the
    copy, download and remove buttons replace the spinner once
    [isProcessing] is false, "Show More" is there when the body of the card
    renders it, the close button needs an open pane. *)
Definition user_step (ue : UserEvent) (s : State) : option State :=
  match ue with
  | ClickCard k =>
      img ← processedImages s !! k; Some (set_selected (Some img) s)
  | ShowMore k =>
      img ← processedImages s !! k;
      match card_body img with
      | TextPreview _ true => Some (set_selected (Some img) s)
      | _ => None
      end
  | ClosePane =>
      match selectedImage s with
      | Some _ => Some (set_selected None s)
      | None => None
      end
  | ClickCopy k =>
      img ← processedImages s !! k;
      if isProcessing img then None else Some (set_clipboard (text img) s)
  | ClickDownload k blobUrl =>
      img ← processedImages s !! k;
      if isProcessing img then None
      else Some (downloadText (text img) (name img) blobUrl s)
  | ClickRemove k =>
      img ← processedImages s !! k;
      if isProcessing img then None else Some (removeImage (id img) s)
  end.

(** ** The event loop *)

Inductive Event :=
| Tick (dt : N)
| Drop (files : list File) (d : Draw)
| Proc (t : nat) (pe : ProcEvent)
| User (ue : UserEvent).

Definition step (s : State) (e : Event) : option State :=
  match e with
  | Tick dt => Some (advance dt s)
  | Drop files d => Some (onDrop files d s)
  | Proc t pe =>
      task ← tasks s !! t;
      '(s', task') ← proc_step t task pe s;
      Some (upd_tasks (λ ts, <[t := task']> ts) s')
  | User ue => user_step ue s
  end.

Fixpoint run (s : State) (evs : list Event) : option State :=
  match evs with
  | [] => Some s
  | e :: evs' => s' ← step s e; run s' evs'
  end.

(** ** Vocabulary of the properties *)

Definition ids (prev : list ProcessedImage) : list string := id <$> prev.

(** The record id a suspended run is working on. *)
Definition active_id (p : Phase) : option string :=
  match p with
  | Reading i _ | Requesting i | Streaming i _ => Some i
  | Delaying _ | Done => None
  end.

(** The text the run has accumulated in [fullText]. *)
Definition phase_text (p : Phase) : string :=
  match p with
  | Streaming _ fullText => fullText
  | _ => ""
  end.

(** An extraction request is in flight from the call of
    [generateContentStream] until the promise of [processImage] settles. *)
Definition requesting (p : Phase) : bool :=
  match p with
  | Requesting _ | Streaming _ _ => true
  | _ => false
  end.

Definition in_flight (s : State) : nat :=
  length (filter (λ task, requesting (phase task) = true) (tasks s)).

Definition entry_task (e : LogEntry) : nat :=
  match e with
  | LIntake t _ _ _ | LRequest t _ _ | LChunk t _ _ _ | LSettle t _ _ _ => t
  end.

(** The history of batch [t], oldest entry first. *)
Definition history (t : nat) (s : State) : list LogEntry :=
  filter (λ e, entry_task e = t) (reverse (log s)).

(** The files handed to [processImage], in the order of the calls. *)
Definition intake_files (h : list LogEntry) : list File :=
  omap (λ e, match e with LIntake _ file _ _ => Some file | _ => None end) h.


(** Id and name of each record created, in the order of creation. *)
Definition intake_keys (h : list LogEntry) : list (string * string) :=
  omap (λ e, match e with
             | LIntake _ file i _ => Some (i, file_name file)
             | _ => None
             end) h.

(** The chunks read since the last call of [processImage], concatenated. *)
Fixpoint streamed_from (acc : string) (h : list LogEntry) : string :=
  match h with
  | [] => acc
  | LIntake _ _ _ _ :: h' => streamed_from "" h'
  | LChunk _ _ c _ :: h' => streamed_from (acc +:+ c) h'
  | _ :: h' => streamed_from acc h'
  end.

Definition streamed (h : list LogEntry) : string := streamed_from "" h.

(** A monitor for the history of one batch.  [Idle ready]: no file is being
    processed and the next may start at time [ready] or later.  [Busy i b
    acc]: the file with id [i] is being processed, [b] tells whether its
    request has been sent, [acc] is the text read so far. *)
Inductive Monitor :=
| Idle (ready : N)
| Busy (imageId : string) (requested : bool) (acc : string).

Definition monitor_step (m : Monitor) (e : LogEntry) : option Monitor :=
  match m, e with
  | Idle ready, LIntake _ _ i time =>
      if (ready <=? time)%N then Some (Busy i false "") else None
  | Busy i false acc, LRequest _ j _ =>
      if String.eqb i j then Some (Busy i true acc) else None
  | Busy i true acc, LChunk _ j c _ =>
      if String.eqb i j then Some (Busy i true (acc +:+ c)) else None
  | Busy i _ _, LSettle _ j _ time =>
      if String.eqb i j then Some (Idle (time + DELAY_MS)%N) else None
  | _, _ => None
  end.

Fixpoint monitor_run (m : Monitor) (h : list LogEntry) : option Monitor :=
  match h with
  | [] => Some m
  | e :: h' => m' ← monitor_step m e; monitor_run m' h'
  end.

(** The monitor state a suspension point stands for. *)
Definition phase_monitor (p : Phase) (m : Monitor) : Prop :=
  match p, m with
  | Reading i _, Busy j false acc => i = j ∧ acc = ""
  | Requesting i, Busy j true acc => i = j ∧ acc = ""
  | Streaming i fullText, Busy j true acc => i = j ∧ acc = fullText
  | Delaying deadline, Idle ready => ready = deadline
  | Done, Idle _ => True
  | _, _ => False
  end.

(** The file an event hands to [processImage], if it hands one: the first
    file of a dropped batch, or the next file of a batch whose delay has
    elapsed. *)
Definition started_file (s : State) (e : Event) : option File :=
  match e with
  | Drop (file :: _) _ => Some file
  | Proc t (Timer _) =>
      task ← tasks s !! t;
      match phase task with
      | Delaying deadline =>
          if (deadline <=? now s)%N then acceptedFiles task !! pos task
          else None
      | _ => None
      end
  | _ => None
  end.

(** The draw of the [processImage] call an event makes, if it makes one. *)
Definition intake_draw (s : State) (e : Event) : option Draw :=
  match e with
  | Drop (_ :: _) d => Some d
  | Proc t (Timer d) =>
      task ← tasks s !! t;
      match phase task with
      | Delaying deadline =>
          if (deadline <=? now s)%N
          then _ ← acceptedFiles task !! pos task; Some d
          else None
      | _ => None
      end
  | _ => None
  end.

(** The event draws an id no record of the store carries. *)
Definition fresh_event (s : State) (e : Event) : bool :=
  match intake_draw s e with
  | Some d =>
      bool_decide (substring_from 7 (random36 d) ∉ ids (processedImages s))
  | None => true
  end.

Fixpoint all_fresh (s : State) (evs : list Event) : bool :=
  match evs with
  | [] => true
  | e :: evs' =>
      fresh_event s e &&
      match step s e with
      | Some s' => all_fresh s' evs'
      | None => true
      end
  end.

(** The same for one id.  [draws_new i]: when the event draws the id [i],
    no record of the store carries it; [unshared i]: so it is at every draw
    of a run.  [draws_other i]: the event does not draw [i];
    [never_drawn i]: no event of a run does. *)
Definition draws_new (i : string) (s : State) (e : Event) : bool :=
  match intake_draw s e with
  | Some d =>
      negb (String.eqb (substring_from 7 (random36 d)) i) ||
      bool_decide (i ∉ ids (processedImages s))
  | None => true
  end.

Fixpoint unshared (i : string) (s : State) (evs : list Event) : bool :=
  match evs with
  | [] => true
  | e :: evs' =>
      draws_new i s e &&
      match step s e with
      | Some s' => unshared i s' evs'
      | None => true
      end
  end.

Definition draws_other (i : string) (s : State) (e : Event) : bool :=
  match intake_draw s e with
  | Some d => negb (String.eqb (substring_from 7 (random36 d)) i)
  | None => true
  end.

Fixpoint never_drawn (i : string) (s : State) (evs : list Event) : bool :=
  match evs with
  | [] => true
  | e :: evs' =>
      draws_other i s e &&
      match step s e with
      | Some s' => never_drawn i s' evs'
      | None => true
      end
  end.

(** No run of [onDrop] is at work on a file with the id [i]. *)
Definition at_work_on (i : string) (task : Task) : bool :=
  match active_id (phase task) with
  | Some j => String.eqb j i
  | None => false
  end.

Definition idle_id (i : string) (s : State) : bool :=
  forallb (λ task, negb (at_work_on i task)) (tasks s).

(** The records of a store that carry the id [i]. *)
Definition copies (i : string) (prev : list ProcessedImage) : nat :=
  length (filter (λ img, id img = i) prev).

(** The id whose records a click on the remove button of card [k] deletes. *)
Definition removed_id (s : State) (e : Event) : option string :=
  match e with
  | User (ClickRemove k) => id <$> processedImages s !! k
  | _ => None
  end.

(** The position of the [k]-th record after an event: unchanged, except
    that a removal deletes the records with the removed id and shifts the
    later ones up. *)
Definition follow (s : State) (e : Event) (k : nat) : option nat :=
  match removed_id s e with
  | Some i =>
      match processedImages s !! k with
      | Some r =>
          if String.eqb (id r) i then None
          else Some (length (removeById i (take k (processedImages s))))
      | None => Some k
      end
  | None => Some k
  end.

Fixpoint follow_run (s : State) (evs : list Event) (k : nat) : option nat :=
  match evs with
  | [] => Some k
  | e :: evs' =>
      k' ← follow s e k; s' ← step s e; follow_run s' evs' k'
  end.

(** The stem of a file name, as the word is commonly understood: the name
    without its last extension, that is the text before the last dot (the
    whole name when it has no dot). *)
Definition stem (filename : string) : string :=
  match reverse (split "." filename) with
  | _ :: piece :: pieces =>
      foldl (λ acc p, p +:+ "." +:+ acc) piece pieces
  | _ => filename
  end.


(** The id whose records the store update of an event rewrites: the id a
    resumed run is working on, or the id just drawn when the set-up of
    [processImage] throws. *)
Definition target_id (s : State) (e : Event) : option string :=
  match intake_draw s e with
  | Some d =>
      match setupError d with
      | Some _ => Some (substring_from 7 (random36 d))
      | None => None
      end
  | None =>
      match e with
      | Proc t (ReaderError | RequestFail _ | Chunk _ | ChunkFail _
               | StreamEnd) =>
          task ← tasks s !! t; active_id (phase task)
      | _ => None
      end
  end.

(** The fixed message a failure callback writes into the record. *)
Definition failure_message (pe : ProcEvent) : option string :=
  match pe with
  | ReaderError => Some FILE_READING_ERROR
  | RequestFail _ | ChunkFail _ => Some FAILED_TO_PROCESS
  | _ => None
  end.

(** An update of a record that leaves its identity alone and never
    turns [isProcessing] back on. *)
Definition keeps_identity (f : ProcessedImage → ProcessedImage) : Prop :=
  ∀ img, id (f img) = id img ∧ name (f img) = name img ∧
         imageUrl (f img) = imageUrl img ∧
         (isProcessing img = false → isProcessing (f img) = false).

(** The store after a step, in three shapes: rewritten in place, extended
    by one record at the end (and then possibly rewritten), or filtered. *)
Inductive StoreChange (s : State) (e : Event) (s' : State) : Prop :=
| change_update f :
    removed_id s e = None → intake_draw s e = None →
    keeps_identity f →
    (∀ img, target_id s e ≠ Some (id img) → f img = img) →
    processedImages s' = f <$> processedImages s →
    StoreChange s e s'
| change_intake d file f :
    removed_id s e = None → intake_draw s e = Some d →
    started_file s e = Some file →
    keeps_identity f →
    (∀ img, target_id s e ≠ Some (id img) → f img = img) →
    processedImages s' = f <$> (processedImages s ++ [newImage file d]) →
    StoreChange s e s'
| change_remove i :
    removed_id s e = Some i → intake_draw s e = None →
    processedImages s' = removeById i (processedImages s) →
    StoreChange s e s'.


(** The error field is unset or one of the two fixed messages. *)
Definition fixed_error (r : ProcessedImage) : Prop :=
  error r = None ∨ error r = Some FILE_READING_ERROR ∨
  error r = Some FAILED_TO_PROCESS.



(** ** More of the view and of the history *)

(** The highlight ring of a card: [selectedImage?.id === img.id]. *)
Definition highlighted (s : State) (img : ProcessedImage) : bool :=
  match selectedImage s with
  | Some sel => String.eqb (id sel) (id img)
  | None => false
  end.

(** The navigation bar and the "Coming Soon" modal: [activeTab] and
    [showModal]. *)
Record Nav := { activeTab : string; showModal : bool }.

Definition nav_init : Nav := {| activeTab := "home"; showModal := false |}.

Inductive NavEvent :=
| ClickHome
| ClickGraphAnalysis
| ClickCloseModal.

(** [setActiveTab('home')], [setShowModal(true)], [setShowModal(false)];
    the close button exists only while the modal is shown. *)
Definition nav_step (n : Nav) (e : NavEvent) : option Nav :=
  match e with
  | ClickHome => Some {| activeTab := "home"; showModal := showModal n |}
  | ClickGraphAnalysis =>
      Some {| activeTab := activeTab n; showModal := true |}
  | ClickCloseModal =>
      if showModal n
      then Some {| activeTab := activeTab n; showModal := false |}
      else None
  end.

Fixpoint nav_run (n : Nav) (evs : list NavEvent) : option Nav :=
  match evs with
  | [] => Some n
  | e :: evs' => n' ← nav_step n e; nav_run n' evs'
  end.

(** The class of the Home button: highlighted when [activeTab === 'home']. *)
Definition home_tab_active (n : Nav) : bool := String.eqb (activeTab n) "home".

(** Entries of the history by kind. *)
Definition is_request (e : LogEntry) : bool :=
  match e with LRequest _ _ _ => true | _ => false end.

Definition is_rejection (e : LogEntry) : bool :=
  match e with LSettle _ _ false _ => true | _ => false end.

Definition count_entries (p : LogEntry → bool) (h : list LogEntry) : nat :=
  length (filter (λ e, p e = true) h).

(** A record that carries an error is not processing. *)
Definition error_is_terminal (r : ProcessedImage) : Prop :=
  error r ≠ None → isProcessing r = false.

(** Some batch is working on the id of the record. *)
Definition has_owner (s : State) (r : ProcessedImage) : Prop :=
  ∃ t task, tasks s !! t = Some task ∧ active_id (phase task) = Some (id r).

(** [r] is the record [sel] was copied from: same id, name and preview. *)
Definition same_record (sel r : ProcessedImage) : Prop :=
  id r = id sel ∧ name r = name sel ∧ imageUrl r = imageUrl sel.

(** ... and the text of [sel] is the beginning of the text of [r]. *)
Definition older_text (sel r : ProcessedImage) : Prop :=
  same_record sel r ∧ ∃ suffix, text r = text sel +:+ suffix.

(** The batches that have started a file and not yet sent its request. *)
Definition reading (task : Task) : bool :=
  match phase task with Reading _ _ => true | _ => false end.

Definition readers (ts : list Task) : nat :=
  length (filter (λ task, reading task = true) ts).

(** The last click on the Graph Analysis button or on the close button of
    the modal. *)
Definition is_modal_click (e : NavEvent) : bool :=
  match e with ClickHome => false | _ => true end.

Definition last_modal_click (evs : list NavEvent) : option NavEvent :=
  last (filter (λ e, is_modal_click e = true) evs).

(** The service answers a request with the chunks [cs] and ends the
    stream. *)
Definition stream_events (t : nat) (cs : list string) : list Event :=
  Proc t StreamOpen :: ((λ c, Proc t (Chunk c)) <$> cs) ++ [Proc t StreamEnd].

(** The chunks of a stream, concatenated. *)
Definition concat_chunks (cs : list string) : string :=
  foldr String.append "" cs.
(** ** Sample inputs *)

Definition receipt_png : File :=
  {| file_name := "receipt.png"; file_type := "image/png" |}.
Definition menu_jpg : File :=
  {| file_name := "menu.jpg"; file_type := "image/jpeg" |}.

Definition draw_a : Draw :=
  {| random36 := "0.4fzyo82mvyr"; objectUrl := "blob:a"; setupError := None |}.
Definition draw_b : Draw :=
  {| random36 := "0.k3j9x1qpw7c"; objectUrl := "blob:b"; setupError := None |}.

(** [Math.random()] returned 0.5, then 0.25: the base-36 expansions ["0.i"]
    and ["0.9"] both end before index 7. *)
Definition draw_half : Draw :=
  {| random36 := "0.i"; objectUrl := "blob:c"; setupError := None |}.
Definition draw_quarter : Draw :=
  {| random36 := "0.9"; objectUrl := "blob:d"; setupError := None |}.

Definition data_url : string := "data:image/png;base64,iVBORw0KGgo=".

(** One batch of two files, run to its end: the first file streams two
    chunks, the second fails in the request. *)
Definition two_files_trace : list Event :=
  [ Drop [receipt_png; menu_jpg] draw_a;
    Proc 0 (ReaderLoad data_url); Proc 0 StreamOpen;
    Proc 0 (Chunk "# Receipt"); Proc 0 (Chunk " total 12"); Proc 0 StreamEnd;
    Tick 1000; Proc 0 (Timer draw_b);
    Proc 0 (ReaderLoad data_url); Proc 0 (RequestFail "429 quota");
    Tick 1500; Proc 0 (Timer draw_b) ].

(** A second batch is dropped while the first is still streaming. *)
Definition overlapping_trace : list Event :=
  [ Drop [receipt_png] draw_a;
    Proc 0 (ReaderLoad data_url); Proc 0 StreamOpen;
    Drop [menu_jpg] draw_b;
    Proc 1 (ReaderLoad data_url) ].

(** A batch of one file runs to its end, then a second batch is dropped and
    streams; the id drawn for the second file is new ([draw_b]) or the one
    the first record carries ([draw_quarter] after [draw_half]). *)
Definition first_file_trace (d : Draw) : list Event :=
  [ Drop [receipt_png] d;
    Proc 0 (ReaderLoad data_url); Proc 0 StreamOpen;
    Proc 0 (Chunk "# Receipt"); Proc 0 StreamEnd ].

Definition second_file_trace (d : Draw) : list Event :=
  [ Drop [menu_jpg] d;
    Proc 1 (ReaderLoad data_url); Proc 1 StreamOpen;
    Proc 1 (Chunk "# Menu") ].

(** After the first batch, two more batches are dropped one after the
    other; their files both draw the empty id, and the first of them
    streams. *)
Definition colliding_menus : list Event :=
  [ Drop [menu_jpg] draw_half;
    Proc 1 (ReaderLoad data_url); Proc 1 StreamOpen;
    Drop [menu_jpg] draw_quarter;
    Proc 1 (Chunk "# Menu") ].

(** Two batches dropped one after the other draw the same id; the first
    streams a chunk and ends while the second is waiting for its stream. *)
Definition collision_in_flight : list Event :=
  [ Drop [receipt_png] draw_half;
    Proc 0 (ReaderLoad data_url); Proc 0 StreamOpen;
    Drop [menu_jpg] draw_quarter;
    Proc 1 (ReaderLoad data_url); Proc 1 StreamOpen;
    Proc 0 (Chunk "# Receipt"); Proc 0 StreamEnd ].

(** Two batches collide on the empty id; a third is dropped, draws an id
    of its own, streams a chunk and fails. *)
Definition failure_beside_collision : list Event :=
  [ Drop [menu_jpg] draw_half; Drop [menu_jpg] draw_quarter;
    Drop [receipt_png] draw_a;
    Proc 2 (ReaderLoad data_url); Proc 2 StreamOpen;
    Proc 2 (Chunk "# Rec"); Proc 2 (ChunkFail "reset") ].

(** A French receipt in two chunks: the first has 93 UTF-16 code units in
    105 bytes of UTF-8, the second brings the text to 109 units. *)
Definition receipt_head : string :=
  "Ticket de caisse n° 4512 : café crème 2,50 € ; thé à la menthe 3,00 € ; crêpe au sucre 4,50 €".
Definition receipt_tail : string := " ; total 10,00 €".

Definition french_receipt_trace : list Event :=
  [ Drop [receipt_png] draw_a;
    Proc 0 (ReaderLoad data_url); Proc 0 StreamOpen;
    Proc 0 (Chunk receipt_head); Proc 0 (Chunk receipt_tail);
    Proc 0 StreamEnd ].

(** The state a sequence of events leads to from the initial state. *)
Definition state_after (evs : list Event) : State :=
  default init (run init evs).

(** A screenshot named the way macOS names them, with dots in the time. *)
Definition screenshot_name : string := "Screenshot 2024-01-15 at 10.30.45.png".

(** A file streams, the user opens its card in the detail pane, the stream
    goes on. *)
Definition select_while_streaming : list Event :=
  [ Drop [receipt_png] draw_a;
    Proc 0 (ReaderLoad data_url); Proc 0 StreamOpen;
    Proc 0 (Chunk "# Receipt"); User (ClickCard 0);
    Proc 0 (Chunk " total 12"); Proc 0 StreamEnd ].

(** The screenshot is processed to its end and its text downloaded. *)
Definition screenshot_png : File :=
  {| file_name := screenshot_name; file_type := "image/png" |}.

Definition download_screenshot : list Event :=
  [ Drop [screenshot_png] draw_a;
    Proc 0 (ReaderLoad data_url); Proc 0 StreamOpen;
    Proc 0 (Chunk "10:30 standup"); Proc 0 StreamEnd;
    User (ClickDownload 0 "blob:txt") ].

(** * Properties *)

(** ** The store updaters *)

Section Updaters.
Context (i : string) (f : ProcessedImage → ProcessedImage).

Lemma mapImage_length prev : length (mapImage i f prev) = length prev.
Proof. apply length_fmap. Qed.

Lemma mapImage_lookup prev k :
  mapImage i f prev !! k =
  (λ img, if String.eqb (id img) i then f img else img) <$> prev !! k.
Proof. apply list_lookup_fmap. Qed.

Lemma mapImage_other prev k r :
  prev !! k = Some r → id r ≠ i → mapImage i f prev !! k = Some r.
Proof.
  intros Hk Hne. rewrite mapImage_lookup, Hk. simpl.
  destruct (String.eqb_spec (id r) i); congruence.
Qed.

Lemma mapImage_target prev k r :
  prev !! k = Some r → id r = i → mapImage i f prev !! k = Some (f r).
Proof.
  intros Hk He. rewrite mapImage_lookup, Hk. simpl.
  destruct (String.eqb_spec (id r) i); congruence.
Qed.

Lemma mapImage_app prev more :
  mapImage i f (prev ++ more) = mapImage i f prev ++ mapImage i f more.
Proof. apply fmap_app. Qed.

Lemma mapImage_ids prev :
  (∀ img, id (f img) = id img) → ids (mapImage i f prev) = ids prev.
Proof.
  intros Hf. unfold ids, mapImage. rewrite <- list_fmap_compose.
  apply list_fmap_ext. intros _ img _. simpl.
  destruct (String.eqb (id img) i); auto.
Qed.

Lemma mapImage_absent prev : i ∉ ids prev → mapImage i f prev = prev.
Proof.
  intros Hi. unfold mapImage. rewrite <- (list_fmap_id prev) at 2.
  apply list_fmap_ext. intros k img Hk. simpl.
  destruct (String.eqb_spec (id img) i) as [He|]; [|done].
  exfalso. apply Hi. unfold ids. rewrite <- He.
  apply list_elem_of_fmap_2. eapply list_elem_of_lookup_2; eauto.
Qed.

Lemma mapImage_elem_other prev r :
  r ∈ prev → id r ≠ i → r ∈ mapImage i f prev.
Proof.
  intros [k Hk]%list_elem_of_lookup_1 Hne.
  eapply list_elem_of_lookup_2, mapImage_other; eauto.
Qed.

Lemma mapImage_elem_target prev r :
  r ∈ prev → id r = i → f r ∈ mapImage i f prev.
Proof.
  intros [k Hk]%list_elem_of_lookup_1 He.
  eapply list_elem_of_lookup_2, mapImage_target; eauto.
Qed.
End Updaters.

Lemma removeById_elem i prev r :
  r ∈ removeById i prev ↔ r ∈ prev ∧ id r ≠ i.
Proof. unfold removeById. rewrite list_elem_of_filter. tauto. Qed.

Lemma removeById_sublist i prev : removeById i prev `sublist_of` prev.
Proof. apply sublist_filter. Qed.

(** A record that survives the filter sits after the survivors among the
    records before it. *)
Lemma removeById_lookup i prev k r :
  prev !! k = Some r → id r ≠ i →
  removeById i prev !! length (removeById i (take k prev)) = Some r.
Proof.
  intros Hk Hne.
  unfold removeById.
  set (n := length (filter (λ img, id img ≠ i) (take k prev))).
  rewrite <- (take_drop_middle prev k r Hk).
  rewrite filter_app, filter_cons_True by done.
  apply list_lookup_middle. done.
Qed.

Lemma removeById_ids_NoDup i prev :
  NoDup (ids prev) → NoDup (ids (removeById i prev)).
Proof.
  unfold ids. intros Hnd.
  apply (sublist_NoDup _ (id <$> prev)); [exact Hnd|].
  apply fmap_sublist, removeById_sublist.
Qed.

(** With distinct ids the id names its record. *)
Lemma ids_NoDup_inj prev r r' :
  NoDup (ids prev) → r ∈ prev → r' ∈ prev → id r = id r' → r = r'.
Proof.
  unfold ids. intros Hnd [k Hk]%list_elem_of_lookup_1
    [k' Hk']%list_elem_of_lookup_1 He.
  assert (k = k') as ->; [|congruence].
  apply (NoDup_lookup _ _ _ (id r) Hnd);
    rewrite list_lookup_fmap; [rewrite Hk|rewrite Hk']; simpl; congruence.
Qed.

(** ** Case analysis of a step *)

Lemma step_Proc_inv s t pe s' :
  step s (Proc t pe) = Some s' →
  ∃ task s1 task',
    tasks s !! t = Some task ∧ proc_step t task pe s = Some (s1, task') ∧
    s' = upd_tasks (λ ts, <[t := task']> ts) s1.
Proof.
  simpl. intros H.
  destruct (tasks s !! t) as [task|] eqn:Ht; simpl in H; [|done].
  destruct (proc_step t task pe s) as [[s1 task']|] eqn:Hp; simpl in H; [|done].
  simplify_eq. by eexists _, _, _.
Qed.

Ltac proc_cases Hp :=
  unfold proc_step, processImage, settle in Hp;
  repeat match type of Hp with
         | context [match phase ?task with _ => _ end] =>
             destruct (phase task) eqn:?
         | context [match ?pe with ReaderLoad _ => _ | _ => _ end] =>
             destruct pe
         | context [if (?d <=? ?n)%N then _ else _] =>
             destruct (N.leb_spec d n)
         | context [match ?l !! ?k with _ => _ end] =>
             destruct (l !! k) eqn:?
         | context [match setupError ?d with _ => _ end] =>
             destruct (setupError d) eqn:?
         end;
  simplify_eq.

Ltac user_cases H :=
  unfold user_step in H;
  repeat match type of H with
         | context [match ?ue with ClickCard _ => _ | _ => _ end] =>
             destruct ue
         | context [?l !! ?k ≫= _] => destruct (l !! k) eqn:?; simpl in H
         | context [match card_body ?img with _ => _ end] =>
             destruct (card_body img) as [?|? []] eqn:?
         | context [if ?b then _ else _] => destruct b eqn:?
         | context [match selectedImage ?s with _ => _ end] =>
             destruct (selectedImage s) eqn:?
         end;
  simplify_eq.

(** ** The history and its monitor *)

Lemma history_cons t e s :
  history t (add_log e s) =
  history t s ++ (if decide (entry_task e = t) then [e] else []).
Proof.
  unfold history. simpl. rewrite reverse_cons, filter_app.
  f_equal.
Qed.

Lemma history_log t s s' new :
  log s' = new ++ log s →
  history t s' = history t s ++ filter (λ e, entry_task e = t) (reverse new).
Proof.
  unfold history. intros ->. by rewrite reverse_app, filter_app.
Qed.

Lemma filter_task_all t (h : list LogEntry) :
  Forall (λ e, entry_task e = t) h → filter (λ e, entry_task e = t) h = h.
Proof.
  induction 1 as [|e h He _ IH]; [done|].
  by rewrite filter_cons_True, IH.
Qed.

Lemma filter_task_none t u (h : list LogEntry) :
  u ≠ t → Forall (λ e, entry_task e = t) h →
  filter (λ e, entry_task e = u) h = [].
Proof.
  intros Hne. induction 1 as [|e h He _ IH]; [done|].
  rewrite filter_cons_False by congruence. done.
Qed.

Lemma history_unknown t s :
  (∀ e, e ∈ log s → entry_task e < t) → history t s = [].
Proof.
  intros Hb. unfold history.
  assert (Forall (λ e, entry_task e < t) (reverse (log s))) as Hall.
  { apply Forall_forall. intros e He. apply Hb. by apply elem_of_reverse. }
  induction Hall as [|e h He _ IH]; [done|].
  rewrite filter_cons_False by lia. done.
Qed.

Lemma monitor_run_app m h1 h2 :
  monitor_run m (h1 ++ h2) = monitor_run m h1 ≫= λ m', monitor_run m' h2.
Proof.
  revert m. induction h1 as [|e h1 IH]; intros m; simpl; [done|].
  destruct (monitor_step m e); simpl; [apply IH|done].
Qed.

Lemma intake_files_app h1 h2 :
  intake_files (h1 ++ h2) = intake_files h1 ++ intake_files h2.
Proof. apply omap_app. Qed.

(** What ties the history to the suspended runs: the histories mention
    existing batches only; the monitor accepts the history of each batch and
    ends in the state its suspension point stands for; the files started are
    the first [pos] files of the batch. *)
Record LogInv (s : State) : Prop := {
  li_bound : ∀ e, e ∈ log s → entry_task e < length (tasks s);
  li_monitor : ∀ t task, tasks s !! t = Some task →
    ∃ m, monitor_run (Idle 0) (history t s) = Some m ∧
         phase_monitor (phase task) m;
  li_files : ∀ t task, tasks s !! t = Some task →
    intake_files (history t s) = take (pos task) (acceptedFiles task);
  li_pos : ∀ t task, tasks s !! t = Some task →
    pos task ≤ length (acceptedFiles task) ∧
    (phase task = Done → pos task = length (acceptedFiles task))
}.

Lemma LogInv_init : LogInv init.
Proof.
  split; simpl.
  - intros e He. by apply elem_of_nil in He.
  - intros t task Ht. by rewrite lookup_nil in Ht.
  - intros t task Ht. by rewrite lookup_nil in Ht.
  - intros t task Ht. by rewrite lookup_nil in Ht.
Qed.

Lemma LogInv_same s s' :
  log s' = log s → tasks s' = tasks s → LogInv s → LogInv s'.
Proof.
  intros Hl Ht [H1 H2 H3 H4].
  split; unfold history; rewrite ?Hl, ?Ht; auto.
Qed.

(** Batch [t] moves on: its entries are appended, the other batches are
    left alone. *)
Lemma LogInv_task s s' t task task' new :
  LogInv s → tasks s !! t = Some task →
  log s' = new ++ log s → Forall (λ e, entry_task e = t) new →
  tasks s' = <[t := task']> (tasks s) →
  (∀ m, phase_monitor (phase task) m →
        ∃ m', monitor_run m (reverse new) = Some m' ∧
              phase_monitor (phase task') m') →
  take (pos task') (acceptedFiles task') =
    take (pos task) (acceptedFiles task) ++ intake_files (reverse new) →
  pos task' ≤ length (acceptedFiles task') →
  (phase task' = Done → pos task' = length (acceptedFiles task')) →
  LogInv s'.
Proof.
  intros [H1 H2 H3 H4] Ht Hl Hnew Hts Hm Hf Hp Hd.
  assert (Forall (λ e, entry_task e = t) (reverse new)) as Hrev.
  { by apply Forall_reverse. }
  assert (∀ u task_u, tasks s' !! u = Some task_u →
            (u = t ∧ task_u = task') ∨ (u ≠ t ∧ tasks s !! u = Some task_u))
    as Hcase.
  { intros u task_u. rewrite Hts, list_lookup_insert_Some.
    intros [(-> & -> & _)|[Hne Hu]]; [by left|right]. by split. }
  split.
  - intros e. rewrite Hl, Hts, length_insert, elem_of_app.
    intros [He|He]; [|by apply H1].
    rewrite Forall_forall in Hnew. rewrite (Hnew e He).
    by eapply lookup_lt_Some.
  - intros u task_u [[-> ->]|[Hne Hu]]%Hcase;
      rewrite (history_log _ s s' new Hl).
    + rewrite filter_task_all by done. rewrite monitor_run_app.
      destruct (H2 _ _ Ht) as (m & -> & Hpm). simpl. by apply Hm.
    + rewrite (filter_task_none t) by done. rewrite app_nil_r. by eapply H2.
  - intros u task_u [[-> ->]|[Hne Hu]]%Hcase;
      rewrite (history_log _ s s' new Hl).
    + rewrite filter_task_all by done.
      rewrite intake_files_app, Hf. f_equal. by eapply H3.
    + rewrite (filter_task_none t) by done. rewrite app_nil_r. by eapply H3.
  - intros u task_u [[-> ->]|[Hne Hu]]%Hcase; [done|by eapply H4].
Qed.

(** A new batch: its history starts empty. *)
Lemma LogInv_new s s' task' new :
  LogInv s →
  log s' = new ++ log s →
  Forall (λ e, entry_task e = length (tasks s)) new →
  tasks s' = tasks s ++ [task'] →
  (∃ m', monitor_run (Idle 0) (reverse new) = Some m' ∧
         phase_monitor (phase task') m') →
  take (pos task') (acceptedFiles task') = intake_files (reverse new) →
  pos task' ≤ length (acceptedFiles task') →
  (phase task' = Done → pos task' = length (acceptedFiles task')) →
  LogInv s'.
Proof.
  intros [H1 H2 H3 H4] Hl Hnew Hts Hm Hf Hp Hd.
  set (t := length (tasks s)) in *.
  assert (Forall (λ e, entry_task e = t) (reverse new)) as Hrev.
  { by apply Forall_reverse. }
  assert (history t s = []) as Hnil by by apply history_unknown.
  assert (∀ u task_u, tasks s' !! u = Some task_u →
            (u = t ∧ task_u = task') ∨ (u ≠ t ∧ tasks s !! u = Some task_u))
    as Hcase.
  { intros u task_u. rewrite Hts, lookup_snoc_Some.
    intros [[Hlt Hu]|[-> ->]]; [right|by left].
    split; [|done]. subst t. lia. }
  split.
  - intros e. rewrite Hl, Hts, length_app, elem_of_app. simpl.
    intros [He|He]; [|apply H1 in He; lia].
    rewrite Forall_forall in Hnew. rewrite (Hnew e He). subst t. lia.
  - intros u task_u [[-> ->]|[Hne Hu]]%Hcase;
      rewrite (history_log _ s s' new Hl).
    + rewrite filter_task_all by done. by rewrite Hnil.
    + rewrite (filter_task_none t) by done. rewrite app_nil_r. by eapply H2.
  - intros u task_u [[-> ->]|[Hne Hu]]%Hcase;
      rewrite (history_log _ s s' new Hl).
    + rewrite filter_task_all by done. by rewrite Hnil.
    + rewrite (filter_task_none t) by done. rewrite app_nil_r. by eapply H3.
  - intros u task_u [[-> ->]|[Hne Hu]]%Hcase; [done|by eapply H4].
Qed.

Ltac solve_monitor Hph :=
  let m := fresh "m" in
  let Hm := fresh "Hm" in
  intros m Hm; rewrite Hph in Hm;
  destruct m as [?|? [] ?]; simpl in Hm; try done;
  destruct_and?; simplify_eq; simpl;
  rewrite ?String.eqb_refl; simpl;
  repeat match goal with
         | H : (?d ≤ ?n)%N |- context [(?d <=? ?n)%N] =>
             rewrite (proj2 (N.leb_le d n) H); simpl
         end;
  rewrite ?String.eqb_refl; simpl;
  eexists; split; [reflexivity|]; simpl; done.

Ltac solve_new_monitor :=
  simpl;
  rewrite ?(proj2 (N.leb_le 0 _)) by lia; simpl;
  rewrite ?String.eqb_refl; simpl;
  eexists; split; [reflexivity|]; simpl; done.

Lemma LogInv_step s e s' : LogInv s → step s e = Some s' → LogInv s'.
Proof.
  intros Hinv H. destruct e as [dt|files d|t pe|ue].
  - simpl in H. simplify_eq. by apply (LogInv_same s).
  - simpl in H. simplify_eq. unfold onDrop, processImage, settle.
    destruct files as [|file rest]; [|destruct (setupError d) eqn:Hd].
    + eapply (LogInv_new s _ _ []); eauto; solve_new_monitor.
    + eapply (LogInv_new s _ _ [LSettle _ _ _ _; LIntake _ _ _ _]);
        eauto; first [by repeat constructor|simpl; lia|solve_new_monitor].
    + eapply (LogInv_new s _ _ [LIntake _ _ _ _]);
        eauto; first [by repeat constructor|simpl; lia|solve_new_monitor].
  - apply step_Proc_inv in H as (task & s1 & task' & Ht & Hp & ->).
    destruct (li_pos _ Hinv _ _ Ht) as [Hle Hdone].
    proc_cases Hp;
      [ eapply (LogInv_task _ _ t task _ [LRequest _ _ _])
      | eapply (LogInv_task _ _ t task _ [LSettle _ _ _ _])
      | eapply (LogInv_task _ _ t task _ [])
      | eapply (LogInv_task _ _ t task _ [LSettle _ _ _ _])
      | eapply (LogInv_task _ _ t task _ [LChunk _ _ _ _])
      | eapply (LogInv_task _ _ t task _ [LSettle _ _ _ _])
      | eapply (LogInv_task _ _ t task _ [LSettle _ _ _ _])
      | eapply (LogInv_task _ _ t task _ [LSettle _ _ _ _; LIntake _ _ _ _])
      | eapply (LogInv_task _ _ t task _ [LIntake _ _ _ _])
      | eapply (LogInv_task _ _ t task _ []) ];
      eauto; simpl; rewrite ?app_nil_r;
      first [ done
            | by repeat constructor
            | solve_monitor Heqp
            | by apply take_S_r
            | by eapply lookup_lt_Some
            | intros _; apply lookup_ge_None in Heqo; lia ].
  - simpl in H. user_cases H; try by apply (LogInv_same s).
    all: unfold removeImage, downloadText;
      repeat case_match; by apply (LogInv_same s).
Qed.

Lemma LogInv_run evs s s' : LogInv s → run s evs = Some s' → LogInv s'.
Proof.
  revert s. induction evs as [|e evs IH]; intros s Hinv; simpl.
  - by intros [= <-].
  - destruct (step s e) as [s1|] eqn:He; simpl; [|done].
    apply IH. by eapply LogInv_step.
Qed.

(** ** What an accepted history looks like *)

Lemma monitor_run_snoc m h e :
  monitor_run m (h ++ [e]) = monitor_run m h ≫= λ m', monitor_step m' e.
Proof.
  rewrite monitor_run_app. destruct (monitor_run m h) as [m'|]; simpl; [|done].
  by destruct (monitor_step m' e).
Qed.

(** The batch is idle at the start and right after a settling, and then
    the next file may start one delay later. *)
Lemma monitor_idle_last r0 h r :
  monitor_run (Idle r0) h = Some (Idle r) →
  (h = [] ∧ r = r0) ∨
  ∃ h0 t j ok time,
    h = h0 ++ [LSettle t j ok time] ∧ r = (time + DELAY_MS)%N.
Proof.
  destruct h as [|e h _] using rev_ind; simpl.
  - intros [= ->]. by left.
  - rewrite monitor_run_snoc.
    destruct (monitor_run (Idle r0) h) as [m'|]; simpl; [|done].
    intros Hs. right.
    destruct m' as [?|i [] acc], e as [?| | |t j ok time]; simpl in Hs;
      try done; repeat case_match; simplify_eq; by eexists _, _, _, _, _.
Qed.

(** A file whose request has not been sent was started by the last entry. *)
Lemma monitor_unrequested_last r0 h i acc :
  monitor_run (Idle r0) h = Some (Busy i false acc) →
  ∃ h0 t file time, h = h0 ++ [LIntake t file i time].
Proof.
  destruct h as [|e h _] using rev_ind; simpl; [done|].
  rewrite monitor_run_snoc.
  destruct (monitor_run (Idle r0) h) as [m'|]; simpl; [|done].
  intros Hs.
  destruct m' as [?|j [] ?], e; simpl in Hs;
    try done; repeat case_match; simplify_eq; by eexists _, _, _, _.
Qed.

(** Once the request is sent, the batch reads chunks of that file until the
    file settles. *)
Lemma monitor_requested_next i acc h m :
  monitor_run (Busy i true acc) h = Some m →
  ∃ cs rest,
    h = cs ++ rest ∧
    Forall (λ e, ∃ t c time, e = LChunk t i c time) cs ∧
    (rest = [] ∨ ∃ t ok time h', rest = LSettle t i ok time :: h').
Proof.
  revert acc. induction h as [|e h IH]; intros acc; simpl.
  - intros _. exists [], []. split_and!; [done|constructor|by left].
  - destruct e as [| |t j c time|t j ok time]; simpl; try done.
    + destruct (String.eqb_spec i j) as [<-|]; [|done]. simpl.
      intros (cs & rest & -> & Hcs & Hrest)%IH.
      exists (LChunk t i c time :: cs), rest. split_and!; [done| |done].
      constructor; [by eexists _, _, _|done].
    + destruct (String.eqb_spec i j) as [<-|]; [|done]. intros _.
      exists [], (LSettle t i ok time :: h).
      split_and!; [done|constructor|right; by eexists _, _, _, _].
Qed.

Lemma monitor_run_split m h1 h2 m2 :
  monitor_run m (h1 ++ h2) = Some m2 →
  ∃ m1, monitor_run m h1 = Some m1 ∧ monitor_run m1 h2 = Some m2.
Proof.
  rewrite monitor_run_app.
  destruct (monitor_run m h1) as [m1|]; simpl; [|done]. eauto.
Qed.

Lemma history_tasks t s : Forall (λ e, entry_task e = t) (history t s).
Proof.
  unfold history. apply Forall_forall.
  intros e He. by apply list_elem_of_filter in He as [? _].
Qed.

(** ** A world of distinct ids *)

(** What holds as long as every id drawn is new to the store: the ids of the
    store are distinct; a run suspended on a file owns a record with that
    id, still processing, without error, holding the text accumulated so
    far; two runs never work on the same id. *)
Record FreshInv (s : State) : Prop := {
  fi_nodup : NoDup (ids (processedImages s));
  fi_owner : ∀ t task i,
    tasks s !! t = Some task → active_id (phase task) = Some i →
    ∃ r, r ∈ processedImages s ∧ id r = i ∧ isProcessing r = true ∧
         text r = phase_text (phase task) ∧ error r = None;
  fi_distinct : ∀ t u task task' i,
    tasks s !! t = Some task → tasks s !! u = Some task' →
    active_id (phase task) = Some i → active_id (phase task') = Some i →
    t = u
}.

Lemma FreshInv_init : FreshInv init.
Proof.
  split; simpl.
  - constructor.
  - intros t task i Ht. by rewrite lookup_nil in Ht.
  - intros t u task task' i Ht. by rewrite lookup_nil in Ht.
Qed.

Lemma FreshInv_same s s' :
  processedImages s' = processedImages s → tasks s' = tasks s →
  FreshInv s → FreshInv s'.
Proof. intros Hst Hts [H1 H2 H3]. split; rewrite ?Hst, ?Hts; auto. Qed.

(** Batch [t] moves to [task']; the records the other batches work on are
    kept as they are. *)
Lemma FreshInv_move s s' t task' :
  FreshInv s →
  (∀ u task_u, tasks s' !! u = Some task_u →
     (u = t ∧ task_u = task') ∨ (u ≠ t ∧ tasks s !! u = Some task_u)) →
  NoDup (ids (processedImages s')) →
  (∀ u task_u j r,
     u ≠ t → tasks s !! u = Some task_u →
     active_id (phase task_u) = Some j →
     r ∈ processedImages s → id r = j → isProcessing r = true →
     r ∈ processedImages s') →
  (∀ i, active_id (phase task') = Some i →
     (∃ r, r ∈ processedImages s' ∧ id r = i ∧ isProcessing r = true ∧
           text r = phase_text (phase task') ∧ error r = None) ∧
     (∀ u task_u, u ≠ t → tasks s !! u = Some task_u →
                  active_id (phase task_u) ≠ Some i)) →
  FreshInv s'.
Proof.
  intros [H1 H2 H3] Hcase Hnd Hkeep Hnew. split; [done| |].
  - intros u task_u i [[-> ->]|[Hne Hu]]%Hcase Hi.
    + by apply Hnew.
    + destruct (H2 _ _ _ Hu Hi) as (r & Hr & Hid & Hp & Htx & Her).
      exists r. split_and!; try done. by eapply Hkeep.
  - intros u v task_u task_v i
      [[-> ->]|[Hne Hu]]%Hcase [[-> ->]|[Hne' Hv]]%Hcase Hi Hi'; [done| | |].
    + destruct (Hnew _ Hi) as [_ Hother]. by destruct (Hother _ _ Hne' Hv).
    + destruct (Hnew _ Hi') as [_ Hother]. by destruct (Hother _ _ Hne Hu).
    + by eapply H3.
Qed.

Lemma tasks_insert_case (ts : list Task) t task' u task_u :
  <[t := task']> ts !! u = Some task_u →
  (u = t ∧ task_u = task') ∨ (u ≠ t ∧ ts !! u = Some task_u).
Proof.
  rewrite list_lookup_insert_Some.
  intros [(-> & -> & _)|[Hne Hu]]; [by left|right]. by split.
Qed.

Lemma tasks_snoc_case (ts : list Task) task' u task_u :
  (ts ++ [task']) !! u = Some task_u →
  (u = length ts ∧ task_u = task') ∨ (u ≠ length ts ∧ ts !! u = Some task_u).
Proof.
  rewrite lookup_snoc_Some. intros [[Hlt Hu]|[-> ->]]; [right|by left].
  split; [lia|done].
Qed.

(** The run of batch [t], suspended on id [i], updates the records with
    that id. *)
Lemma FreshInv_update s s' t task task' i f :
  FreshInv s → tasks s !! t = Some task →
  active_id (phase task) = Some i →
  processedImages s' = mapImage i f (processedImages s) →
  (∀ img, id (f img) = id img) →
  tasks s' = <[t := task']> (tasks s) →
  (∀ r j, id r = i → isProcessing r = true →
          text r = phase_text (phase task) → error r = None →
          active_id (phase task') = Some j →
          j = i ∧ isProcessing (f r) = true ∧
          text (f r) = phase_text (phase task') ∧ error (f r) = None) →
  FreshInv s'.
Proof.
  intros Hinv Ht Hi Hst Hf Hts Hpost.
  apply (FreshInv_move s s' t task'); [done| | | |].
  - intros u task_u. rewrite Hts. apply tasks_insert_case.
  - rewrite Hst, mapImage_ids by done. apply Hinv.
  - intros u task_u j r Hne Hu Hj Hr Hid _. rewrite Hst.
    apply mapImage_elem_other; [done|].
    intros He. apply Hne. symmetry.
    eapply (fi_distinct _ Hinv); eauto. congruence.
  - intros j Hj.
    destruct (fi_owner _ Hinv _ _ _ Ht Hi) as (r & Hr & Hid & Hp & Htx & Her).
    destruct (Hpost r j Hid Hp Htx Her Hj) as (-> & Hp' & Htx' & Her').
    split.
    + exists (f r). rewrite Hst, Hf.
      split_and!; try done. by apply mapImage_elem_target.
    + intros u task_u Hne Hu Hj'. apply Hne. symmetry.
      by eapply (fi_distinct _ Hinv).
Qed.

Lemma mapImage_same i prev : mapImage i (λ img, img) prev = prev.
Proof.
  unfold mapImage. rewrite <- (list_fmap_id prev) at 2.
  apply list_fmap_ext. intros _ img _. by destruct (String.eqb (id img) i).
Qed.

(** The run of batch [t] is between two files and becomes, or stays,
    inactive. *)
Lemma FreshInv_idle s s' t task' :
  FreshInv s →
  processedImages s' = processedImages s →
  tasks s' = <[t := task']> (tasks s) ∨ tasks s' = tasks s ++ [task'] ∧
                                          t = length (tasks s) →
  active_id (phase task') = None →
  FreshInv s'.
Proof.
  intros Hinv Hst Hts Hnone.
  apply (FreshInv_move s s' t task'); [done| | | |].
  - intros u task_u. destruct Hts as [->|[-> ->]];
      [apply tasks_insert_case|apply tasks_snoc_case].
  - rewrite Hst. apply Hinv.
  - intros. by rewrite Hst.
  - intros i Hi. congruence.
Qed.

(** [processImage] is called for batch [t] and draws an id the store does
    not hold; [g] is the identity, or the error update of the new id when
    the set-up throws. *)
Lemma FreshInv_intake s s' t task' r g :
  FreshInv s →
  id r ∉ ids (processedImages s) →
  tasks s' = <[t := task']> (tasks s) ∨ tasks s' = tasks s ++ [task'] ∧
                                          t = length (tasks s) →
  processedImages s' = g (processedImages s ++ [r]) →
  (g = (λ prev, prev) ∧ isProcessing r = true ∧ text r = "" ∧
   error r = None ∧ ∃ file, phase task' = Reading (id r) file) ∨
  (∃ msg, g = mapImage (id r) (withError msg)) ∧
  active_id (phase task') = None →
  FreshInv s'.
Proof.
  intros Hinv Hfresh Hts Hst Hg.
  assert (∃ r', processedImages s' = processedImages s ++ [r'] ∧
                id r' = id r) as (r' & Hst' & Hidr).
  { destruct Hg as [(-> & _)|[[msg ->] Hn]]; [by exists r|].
    exists (withError msg r).
    rewrite Hst, mapImage_app, mapImage_absent by done.
    simpl. by rewrite String.eqb_refl. }
  apply (FreshInv_move s s' t task'); [done| | | |].
  - intros u task_u. destruct Hts as [->|[-> ->]];
      [apply tasks_insert_case|apply tasks_snoc_case].
  - rewrite Hst'. unfold ids. rewrite fmap_app. simpl.
    apply NoDup_app. split_and!; [apply Hinv| |apply NoDup_singleton].
    intros x Hx. rewrite list_elem_of_singleton, Hidr. intros ->. done.
  - intros. rewrite Hst'. apply elem_of_app. by left.
  - intros i Hi.
    destruct Hg as [(-> & Hp & Htx & Her & file & Hph)|[_ Hn]]; [|congruence].
    rewrite Hph in Hi. simpl in Hi. simplify_eq. split.
    + exists r. rewrite Hst, Hph. simpl. split_and!; try done.
      apply elem_of_app. right. by apply list_elem_of_singleton.
    + intros u task_u Hne Hu Hj.
      destruct (fi_owner _ Hinv _ _ _ Hu Hj) as (r1 & Hr1 & Hid' & _).
      apply Hfresh. unfold ids. rewrite <- Hid'.
      by apply list_elem_of_fmap_2.
Qed.

(** A record that is not processing is removed. *)
Lemma FreshInv_remove s s' k r :
  FreshInv s →
  processedImages s !! k = Some r → isProcessing r = false →
  processedImages s' = removeById (id r) (processedImages s) →
  tasks s' = tasks s →
  FreshInv s'.
Proof.
  intros Hinv Hk Hp Hst Hts. split.
  - rewrite Hst. apply removeById_ids_NoDup, Hinv.
  - intros t task i Ht Hi. rewrite Hts in Ht.
    destruct (fi_owner _ Hinv _ _ _ Ht Hi)
      as (r' & Hr' & Hid & Hp' & Htx & Her).
    exists r'. split_and!; try done. rewrite Hst.
    apply removeById_elem. split; [done|]. intros He.
    assert (r' = r) as ->; [|congruence].
    eapply ids_NoDup_inj; eauto using fi_nodup.
    by eapply list_elem_of_lookup_2.
  - rewrite Hts. apply Hinv.
Qed.

(** The run of batch [t] goes on with the same file and the same text. *)
Lemma FreshInv_phase s s' t task task' i :
  FreshInv s → tasks s !! t = Some task →
  active_id (phase task) = Some i →
  processedImages s' = processedImages s →
  tasks s' = <[t := task']> (tasks s) →
  active_id (phase task') = Some i →
  phase_text (phase task') = phase_text (phase task) →
  FreshInv s'.
Proof.
  intros Hinv Ht Hi Hst Hts Hi' Htx.
  apply (FreshInv_update s s' t task task' i (λ img, img)); try done.
  - by rewrite mapImage_same.
  - intros r j Hid Hp Hr Her Hj. split_and!; congruence.
Qed.

Lemma fresh_event_drop s file rest d :
  fresh_event s (Drop (file :: rest) d) = true →
  substring_from 7 (random36 d) ∉ ids (processedImages s).
Proof. unfold fresh_event. simpl. apply bool_decide_eq_true. Qed.

Lemma fresh_event_timer s t task d deadline file :
  tasks s !! t = Some task → phase task = Delaying deadline →
  (deadline ≤ now s)%N → acceptedFiles task !! pos task = Some file →
  fresh_event s (Proc t (Timer d)) = true →
  substring_from 7 (random36 d) ∉ ids (processedImages s).
Proof.
  intros Ht Hph Hle Hf. unfold fresh_event, intake_draw.
  rewrite Ht. simpl. rewrite Hph, (proj2 (N.leb_le _ _) Hle), Hf. simpl.
  apply bool_decide_eq_true.
Qed.

Lemma FreshInv_step s e s' :
  FreshInv s → fresh_event s e = true → step s e = Some s' → FreshInv s'.
Proof.
  intros Hinv Hfresh H. destruct e as [dt|files d|t pe|ue].
  - simpl in H. simplify_eq. by apply (FreshInv_same s).
  - simpl in H. simplify_eq. unfold onDrop, processImage, settle.
    destruct files as [|file rest]; [|destruct (setupError d) eqn:Hd].
    + eapply (FreshInv_idle s _ (length (tasks s))); eauto; done.
    + apply fresh_event_drop in Hfresh.
      eapply (FreshInv_intake s _ (length (tasks s)) _ (newImage file d)
                (mapImage _ (withError FAILED_TO_PROCESS)));
        eauto; simpl; eauto.
    + apply fresh_event_drop in Hfresh.
      eapply (FreshInv_intake s _ (length (tasks s)) _ (newImage file d)
                (λ prev, prev));
        eauto; simpl; eauto.
      left. split_and!; eauto.
  - apply step_Proc_inv in H as (task & s1 & task' & Ht & Hp & ->).
    proc_cases Hp.
    + eapply (FreshInv_phase _ _ t task); eauto; by rewrite Heqp.
    + eapply (FreshInv_update _ _ t task _ imageId (withError _));
        eauto; simpl; try done; by rewrite Heqp.
    + eapply (FreshInv_phase _ _ t task); eauto; by rewrite Heqp.
    + eapply (FreshInv_update _ _ t task _ imageId (withError _));
        eauto; simpl; try done; by rewrite Heqp.
    + eapply (FreshInv_update _ _ t task _ imageId (withText _));
        eauto; simpl; try done; [by rewrite Heqp|].
      intros r j Hid Hpr Htx Her [= <-]. done.
    + eapply (FreshInv_update _ _ t task _ imageId (withError _));
        eauto; simpl; try done; by rewrite Heqp.
    + eapply (FreshInv_update _ _ t task _ imageId withDone);
        eauto; simpl; try done; by rewrite Heqp.
    + eapply fresh_event_timer in Hfresh; eauto.
      eapply (FreshInv_intake s _ t _ (newImage f d)
                (mapImage _ (withError FAILED_TO_PROCESS)));
        eauto; simpl; eauto.
    + eapply fresh_event_timer in Hfresh; eauto.
      eapply (FreshInv_intake s _ t _ (newImage f d) (λ prev, prev));
        eauto; simpl; eauto.
      left. split_and!; eauto.
    + eapply (FreshInv_idle _ _ t); eauto; done.
  - simpl in H. user_cases H; try by apply (FreshInv_same s).
    unfold removeImage.
    repeat case_match; eapply (FreshInv_remove s); eauto.
Qed.

Lemma FreshInv_run evs s s' :
  FreshInv s → all_fresh s evs = true → run s evs = Some s' → FreshInv s'.
Proof.
  revert s. induction evs as [|e evs IH]; intros s Hinv; simpl.
  - by intros _ [= <-].
  - intros [Hf Hall]%andb_prop.
    destruct (step s e) as [s1|] eqn:He; simpl; [|done].
    apply IH; [|done]. by eapply FreshInv_step.
Qed.

(** ** Following a record through a step *)

Lemma intake_draw_drop s file rest d :
  intake_draw s (Drop (file :: rest) d) = Some d.
Proof. done. Qed.

Lemma intake_draw_timer s t task d deadline file :
  tasks s !! t = Some task → phase task = Delaying deadline →
  (deadline ≤ now s)%N → acceptedFiles task !! pos task = Some file →
  intake_draw s (Proc t (Timer d)) = Some d.
Proof.
  intros Ht Hph Hle Hf. unfold intake_draw.
  rewrite Ht. simpl. by rewrite Hph, (proj2 (N.leb_le _ _) Hle), Hf.
Qed.

Lemma started_file_timer s t task d deadline file :
  tasks s !! t = Some task → phase task = Delaying deadline →
  (deadline ≤ now s)%N → acceptedFiles task !! pos task = Some file →
  started_file s (Proc t (Timer d)) = Some file.
Proof.
  intros Ht Hph Hle Hf. unfold started_file.
  rewrite Ht. simpl. by rewrite Hph, (proj2 (N.leb_le _ _) Hle).
Qed.

Lemma intake_draw_timer_last s t task d deadline :
  tasks s !! t = Some task → phase task = Delaying deadline →
  acceptedFiles task !! pos task = None →
  intake_draw s (Proc t (Timer d)) = None.
Proof.
  intros Ht Hph Hf. unfold intake_draw.
  rewrite Ht. simpl. rewrite Hph, Hf. simpl. by case_match.
Qed.

Lemma intake_draw_other s t task pe :
  tasks s !! t = Some task → active_id (phase task) ≠ None →
  intake_draw s (Proc t pe) = None.
Proof.
  intros Ht Hph. unfold intake_draw. destruct pe; try done.
  rewrite Ht. simpl. by destruct (phase task).
Qed.

Lemma mapImage_keeps i g :
  keeps_identity g →
  keeps_identity (λ img, if String.eqb (id img) i then g img else img).
Proof.
  intros Hg img. destruct (String.eqb (id img) i); [apply Hg|done].
Qed.

Lemma mapImage_misses i g (o : option string) img :
  o = Some i → o ≠ Some (id img) →
  (if String.eqb (id img) i then g img else img) = img.
Proof.
  intros -> Hne. destruct (String.eqb_spec (id img) i); [congruence|done].
Qed.

Lemma keeps_identity_same : keeps_identity (λ img, img).
Proof. done. Qed.

Lemma keeps_identity_withError msg : keeps_identity (withError msg).
Proof. done. Qed.

Lemma keeps_identity_withText txt : keeps_identity (withText txt).
Proof. done. Qed.

Lemma keeps_identity_withDone : keeps_identity withDone.
Proof. done. Qed.

Ltac store_unchanged tac :=
  apply (change_update _ _ _ (λ img, img));
  [ done | tac | apply keeps_identity_same | done
  | simpl; by rewrite list_fmap_id ].

Lemma step_store_change s e s' : step s e = Some s' → StoreChange s e s'.
Proof.
  intros H. destruct e as [dt|files d|t pe|ue].
  - simpl in H. simplify_eq. store_unchanged done.
  - simpl in H. simplify_eq. unfold onDrop, processImage, settle.
    destruct files as [|file rest]; [|destruct (setupError d) eqn:Hd].
    + store_unchanged done.
    + eapply (change_intake _ _ _ d file
                (λ img, if String.eqb (id img)
                             (substring_from 7 (random36 d))
                        then withError FAILED_TO_PROCESS img
                        else img)).
      * done.
      * done.
      * done.
      * apply (mapImage_keeps _ (withError FAILED_TO_PROCESS)).
        apply keeps_identity_withError.
      * intros img.
        apply (mapImage_misses _ (withError FAILED_TO_PROCESS)).
        unfold target_id. simpl. by rewrite Hd.
      * done.
    + apply (change_intake _ _ _ d file (λ img, img));
        [done|done|done|apply keeps_identity_same|done|].
      simpl. by rewrite list_fmap_id.
  - apply step_Proc_inv in H as (task & s1 & task' & Ht & Hp & ->).
    assert (∀ i g,
      active_id (phase task) = Some i →
      pe ≠ StreamOpen → (∀ r, pe ≠ ReaderLoad r) → (∀ d, pe ≠ Timer d) →
      keeps_identity g →
      ∀ s2, processedImages s2 = mapImage i g (processedImages s) →
      StoreChange s (Proc t pe) s2) as Hupd.
    { intros i g Hi Hpe1 Hpe2 Hpe3 Hg s2 Hs2.
      assert (intake_draw s (Proc t pe) = None) as Hnone.
      { eapply intake_draw_other; eauto. congruence. }
      eapply (change_update _ _ _
                (λ img, if String.eqb (id img) i then g img else img));
        [done|done|by apply (mapImage_keeps i g)| |exact Hs2].
      intros img. apply (mapImage_misses i g).
      unfold target_id. rewrite Hnone, Ht. simpl. rewrite Hi.
      destruct pe; try done; [by destruct (Hpe2 result)|by destruct (Hpe3 d)]. }
    proc_cases Hp.
    + store_unchanged ltac:(eapply intake_draw_other; eauto; by rewrite Heqp).
    + eapply (Hupd imageId (withError _)); try done; by rewrite Heqp.
    + store_unchanged ltac:(eapply intake_draw_other; eauto; by rewrite Heqp).
    + eapply (Hupd imageId (withError _)); try done; by rewrite Heqp.
    + eapply (Hupd imageId (withText _)); try done; by rewrite Heqp.
    + eapply (Hupd imageId (withError _)); try done; by rewrite Heqp.
    + eapply (Hupd imageId withDone); try done; by rewrite Heqp.
    + pose proof (intake_draw_timer _ _ _ d _ _ Ht Heqp H Heqo) as Hdraw.
      eapply (change_intake _ _ _ d f
                (λ img, if String.eqb (id img)
                             (substring_from 7 (random36 d))
                        then withError FAILED_TO_PROCESS img
                        else img)).
      * done.
      * done.
      * by eapply started_file_timer.
      * apply (mapImage_keeps _ (withError FAILED_TO_PROCESS)).
        apply keeps_identity_withError.
      * intros img.
        apply (mapImage_misses _ (withError FAILED_TO_PROCESS)).
        unfold target_id. by rewrite Hdraw, Heqo0.
      * done.
    + pose proof (intake_draw_timer _ _ _ d _ _ Ht Heqp H Heqo) as Hdraw.
      apply (change_intake _ _ _ d f (λ img, img));
        [done|done|by eapply started_file_timer
        |apply keeps_identity_same|done|].
      simpl. by rewrite list_fmap_id.
    + pose proof (intake_draw_timer_last _ _ _ d _ Ht Heqp Heqo) as Hdraw.
      apply (change_update _ _ _ (λ img, img));
        [done|done|apply keeps_identity_same|done|].
      simpl. by rewrite list_fmap_id.
  - simpl in H. user_cases H; try store_unchanged done.
    apply (change_remove _ _ _ (id p)); simpl; [by rewrite Heqo|done|].
    unfold removeImage. by repeat case_match.
Qed.

Lemma follow_unremoved s e k : removed_id s e = None → follow s e k = Some k.
Proof. unfold follow. by intros ->. Qed.

(** A record that is followed through a step is found at its new position
    with the same identity; it is the same record unless the step rewrites
    the records with its id. *)
Lemma step_follow s e s' k r k' :
  step s e = Some s' →
  processedImages s !! k = Some r → follow s e k = Some k' →
  ∃ r', processedImages s' !! k' = Some r' ∧
        id r' = id r ∧ name r' = name r ∧ imageUrl r' = imageUrl r ∧
        (isProcessing r = false → isProcessing r' = false) ∧
        (target_id s e ≠ Some (id r) → r' = r).
Proof.
  intros Hstep Hk Hf.
  destruct (step_store_change _ _ _ Hstep)
    as [f Hrem Hdraw Hkeep Hmiss Hst
       |d file f Hrem Hdraw Hfile Hkeep Hmiss Hst
       |i Hrem Hdraw Hst].
  - rewrite follow_unremoved in Hf by done. simplify_eq.
    exists (f r). rewrite Hst, list_lookup_fmap, Hk.
    destruct (Hkeep r) as (? & ? & ? & ?). split_and!; auto.
  - rewrite follow_unremoved in Hf by done. simplify_eq.
    exists (f r). rewrite Hst, list_lookup_fmap.
    rewrite lookup_app_l by by eapply lookup_lt_Some.
    rewrite Hk. destruct (Hkeep r) as (? & ? & ? & ?). split_and!; auto.
  - unfold follow in Hf. rewrite Hrem, Hk in Hf.
    destruct (String.eqb_spec (id r) i) as [|Hne]; [done|]. simplify_eq.
    exists r. rewrite Hst. split_and!; auto.
    by apply removeById_lookup.
Qed.

(** The records that stay keep their order. *)
Lemma follow_monotone s e k1 k2 k1' k2' :
  k1 < k2 → k2 < length (processedImages s) →
  follow s e k1 = Some k1' → follow s e k2 = Some k2' → k1' < k2'.
Proof.
  intros Hlt Hlen. unfold follow.
  destruct (removed_id s e) as [i|]; [|by intros [= <-] [= <-]].
  destruct (lookup_lt_is_Some_2 (processedImages s) k1) as [r1 Hk1]; [lia|].
  destruct (lookup_lt_is_Some_2 (processedImages s) k2) as [r2 Hk2]; [lia|].
  rewrite Hk1, Hk2.
  destruct (String.eqb_spec (id r1) i) as [|Hne1]; [done|].
  destruct (String.eqb_spec (id r2) i) as [|Hne2]; [done|].
  intros [= <-] [= <-].
  assert (take k2 (processedImages s) !! k1 = Some r1) as Hmid.
  { by rewrite lookup_take_lt. }
  rewrite <- (take_drop_middle _ _ _ Hmid).
  rewrite take_take, Nat.min_l by lia.
  unfold removeById. rewrite filter_app, filter_cons_True by done.
  rewrite length_app. simpl. lia.
Qed.

(** Only a removal loses a record, and only one with the removed id. *)
Lemma follow_lost s e k r :
  processedImages s !! k = Some r → follow s e k = None →
  removed_id s e = Some (id r).
Proof.
  intros Hk. unfold follow.
  destruct (removed_id s e) as [i|]; [|done]. rewrite Hk.
  by destruct (String.eqb_spec (id r) i) as [->|].
Qed.

(** ** One id at a time *)

(** *** Batches at work on an id *)

Lemma idle_id_spec i s :
  idle_id i s = true ↔
  ∀ t task, tasks s !! t = Some task → active_id (phase task) ≠ Some i.
Proof.
  unfold idle_id. rewrite forallb_forall. split.
  - intros H t task Ht Hi.
    apply list_elem_of_lookup_2, list_elem_of_In, H in Ht.
    unfold at_work_on in Ht. by rewrite Hi, String.eqb_refl in Ht.
  - intros H task [t Ht]%list_elem_of_In%list_elem_of_lookup_1.
    specialize (H t task Ht). unfold at_work_on.
    destruct (active_id (phase task)) as [j|]; [|done].
    destruct (String.eqb_spec j i); [by subst|done].
Qed.

Lemma draws_other_spec i s e d :
  draws_other i s e = true → intake_draw s e = Some d →
  substring_from 7 (random36 d) ≠ i.
Proof.
  unfold draws_other. intros H Hd. rewrite Hd in H.
  by destruct (String.eqb_spec (substring_from 7 (random36 d)) i).
Qed.

Lemma draws_new_spec i s e d :
  draws_new i s e = true → intake_draw s e = Some d →
  substring_from 7 (random36 d) ≠ i ∨ i ∉ ids (processedImages s).
Proof.
  unfold draws_new. intros H Hd. rewrite Hd in H.
  destruct (String.eqb_spec (substring_from 7 (random36 d)) i); [|by left].
  right. simpl in H. by apply bool_decide_eq_true in H.
Qed.

Lemma proc_step_tasks t task pe s s1 task' :
  proc_step t task pe s = Some (s1, task') → tasks s1 = tasks s.
Proof. intros Hp. proc_cases Hp; done. Qed.

(** What a step does to the suspended runs: nothing, or one run moves (or
    is added) and is then between two files, at work on the file it was at
    work on, or at work on the file it has just drawn an id for. *)
Lemma step_tasks s e s' :
  step s e = Some s' →
  tasks s' = tasks s ∨
  ∃ t task',
    (tasks s' = <[t := task']> (tasks s) ∨
     tasks s' = tasks s ++ [task'] ∧ t = length (tasks s)) ∧
    (active_id (phase task') = None ∨
     (∃ task, tasks s !! t = Some task ∧
              active_id (phase task') = active_id (phase task)) ∨
     (∃ d, intake_draw s e = Some d ∧
           active_id (phase task') = Some (substring_from 7 (random36 d)))).
Proof.
  intros H. destruct e as [dt|files d|t pe|ue].
  - simpl in H. simplify_eq. by left.
  - simpl in H. simplify_eq. right. unfold onDrop, processImage, settle.
    destruct files as [|file rest]; [|destruct (setupError d) eqn:Hd];
      simpl; eexists (length (tasks s)), _; (split; [by right|]); simpl.
    + by left.
    + by left.
    + right. right. by exists d.
  - apply step_Proc_inv in H as (task & s1 & task' & Ht & Hp & ->).
    right. exists t, task'. simpl.
    rewrite (proc_step_tasks _ _ _ _ _ _ Hp). split; [by left|].
    proc_cases Hp; simpl;
      try (by left);
      try (right; left; exists task; split; [done|]; by rewrite Heqp).
    right. right. exists d. split; [|done].
    by eapply intake_draw_timer.
  - left. simpl in H. user_cases H; try done.
    unfold removeImage. by repeat case_match.
Qed.

Lemma idle_step i s e s' :
  idle_id i s = true → draws_other i s e = true → step s e = Some s' →
  idle_id i s' = true.
Proof.
  rewrite !idle_id_spec. intros Hidle Hdraw Hstep u task_u Hu.
  destruct (step_tasks _ _ _ Hstep) as [Hts|(t & task' & Hts & Hact)].
  { rewrite Hts in Hu. by eapply Hidle. }
  assert ((u = t ∧ task_u = task') ∨ (u ≠ t ∧ tasks s !! u = Some task_u))
    as [[-> ->]|[Hne Hu']].
  { destruct Hts as [Hts|[Hts ->]]; rewrite Hts in Hu;
      [by apply tasks_insert_case|by apply tasks_snoc_case]. }
  - destruct Hact as [->|[(task & Ht & ->)|(d & Hd & ->)]]; [done| |].
    + by eapply Hidle.
    + intros [= He]. by eapply draws_other_spec.
  - by eapply Hidle.
Qed.

Lemma idle_untargeted i s e :
  idle_id i s = true → draws_other i s e = true → target_id s e ≠ Some i.
Proof.
  rewrite idle_id_spec. intros Hidle Hdraw. unfold target_id.
  destruct (intake_draw s e) as [d|] eqn:Hd.
  - destruct (setupError d); [|done].
    intros [= He]. by eapply draws_other_spec.
  - destruct e as [| |t pe|]; try done.
    destruct (tasks s !! t) as [task|] eqn:Ht; [|by destruct pe].
    pose proof (Hidle _ _ Ht). by destruct pe.
Qed.

(** A record whose id no batch is at work on stays as it is as long as the
    id is not drawn again. *)
Lemma idle_frozen_run evs : ∀ s s' k k' r,
  idle_id (id r) s = true → never_drawn (id r) s evs = true →
  run s evs = Some s' → follow_run s evs k = Some k' →
  processedImages s !! k = Some r →
  processedImages s' !! k' = Some r.
Proof.
  induction evs as [|e evs IH]; intros s s' k k' r Hidle; simpl.
  - by intros _ [= <-] [= <-] Hk.
  - intros [Hdraw Hall]%andb_prop.
    destruct (follow s e k) as [k1|] eqn:Hf; simpl; [|by intros _ ?].
    destruct (step s e) as [s1|] eqn:He; simpl; [|done].
    intros Hrun Hfr Hk.
    destruct (step_follow _ _ _ _ _ _ He Hk Hf)
      as (r1 & Hk1 & _ & _ & _ & _ & Hsame).
    rewrite Hsame in Hk1 by by apply idle_untargeted.
    eapply (IH s1); eauto. by eapply idle_step.
Qed.

(** *** The records that carry an id *)

Lemma copies_app i l1 l2 : copies i (l1 ++ l2) = copies i l1 + copies i l2.
Proof. unfold copies. by rewrite filter_app, length_app. Qed.

Lemma copies_pos i prev r : r ∈ prev → id r = i → 0 < copies i prev.
Proof.
  intros Hr Hid. unfold copies.
  assert (r ∈ filter (λ img, id img = i) prev) as Hin
      by by apply list_elem_of_filter.
  destruct (filter (λ img, id img = i) prev); [|simpl; lia].
  by apply elem_of_nil in Hin.
Qed.

Lemma copies_absent i prev : i ∉ ids prev → copies i prev = 0.
Proof.
  intros Hi. destruct (copies i prev) eqn:Hc; [done|]. exfalso.
  unfold copies in Hc.
  destruct (filter (λ img, id img = i) prev) as [|r l] eqn:Hf; [done|].
  assert (r ∈ filter (λ img, id img = i) prev) as Hin
      by (rewrite Hf; apply list_elem_of_here).
  apply list_elem_of_filter in Hin as [Hid Hr].
  apply Hi. unfold ids. rewrite <- Hid. by apply list_elem_of_fmap_2.
Qed.

Lemma copies_singleton i r : copies i [r] = if decide (id r = i) then 1 else 0.
Proof.
  unfold copies. destruct (decide (id r = i)).
  - by rewrite filter_cons_True.
  - by rewrite filter_cons_False.
Qed.

Lemma copies_mapImage i j f prev :
  (∀ img, id (f img) = id img) → copies i (mapImage j f prev) = copies i prev.
Proof.
  intros Hf. unfold copies, mapImage.
  induction prev as [|x prev IH]; [done|]. rewrite fmap_cons.
  assert (id (if String.eqb (id x) j then f x else x) = id x) as Hx
      by (destruct (String.eqb (id x) j); auto).
  destruct (decide (id x = i)).
  - rewrite !filter_cons_True by congruence. simpl. by rewrite IH.
  - rewrite !filter_cons_False by congruence. done.
Qed.

Lemma copies_removeById i j prev :
  copies i (removeById j prev) ≤ copies i prev.
Proof.
  unfold copies, removeById.
  induction prev as [|x prev IH]; [done|].
  destruct (decide (id x ≠ j)).
  - rewrite (filter_cons_True (λ img, id img ≠ j)) by done.
    destruct (decide (id x = i)).
    + rewrite !filter_cons_True by done. simpl. lia.
    + rewrite !filter_cons_False by done. done.
  - rewrite (filter_cons_False (λ img, id img ≠ j)) by done.
    destruct (decide (id x = i)).
    + rewrite filter_cons_True by done. simpl. lia.
    + rewrite filter_cons_False by done. done.
Qed.

(** An id carried once names its record and its place. *)
Lemma copies_once i prev : ∀ k k' r r',
  copies i prev ≤ 1 →
  prev !! k = Some r → prev !! k' = Some r' → id r = i → id r' = i →
  k = k'.
Proof.
  induction prev as [|x prev IH]; intros k k' r r' Hc Hk Hk' Hid Hid'.
  - by rewrite lookup_nil in Hk.
  - change (x :: prev) with ([x] ++ prev) in Hc.
    rewrite copies_app, copies_singleton in Hc.
    destruct (decide (id x = i)) as [Hx|Hx].
    + assert (copies i prev = 0) as Hz by lia.
      destruct k as [|k], k' as [|k']; simpl in *; [done| | |].
      * apply list_elem_of_lookup_2 in Hk'.
        pose proof (copies_pos _ _ _ Hk' Hid'). lia.
      * apply list_elem_of_lookup_2 in Hk.
        pose proof (copies_pos _ _ _ Hk Hid). lia.
      * apply list_elem_of_lookup_2 in Hk.
        pose proof (copies_pos _ _ _ Hk Hid). lia.
    + destruct k as [|k], k' as [|k']; simpl in *; simplify_eq.
      f_equal. eapply IH; eauto.
Qed.

Lemma copies_once_elem i prev r r' :
  copies i prev ≤ 1 → r ∈ prev → r' ∈ prev → id r = i → id r' = i → r = r'.
Proof.
  intros Hc [k Hk]%list_elem_of_lookup_1 [k' Hk']%list_elem_of_lookup_1
    Hid Hid'.
  assert (k = k') as -> by (eapply copies_once; eauto). congruence.
Qed.

(** *** An id that is not shared *)

(** What holds for an id that no record of the store carried whenever it
    was drawn: at most one record carries it; a run suspended on a file with
    that id owns the record, still processing, without error, holding the
    text accumulated so far; no two runs work on the id. *)
Record SoleInv (i : string) (s : State) : Prop := {
  si_once : copies i (processedImages s) ≤ 1;
  si_owner : ∀ t task,
    tasks s !! t = Some task → active_id (phase task) = Some i →
    ∃ r, r ∈ processedImages s ∧ id r = i ∧ isProcessing r = true ∧
         text r = phase_text (phase task) ∧ error r = None;
  si_distinct : ∀ t u task task',
    tasks s !! t = Some task → tasks s !! u = Some task' →
    active_id (phase task) = Some i → active_id (phase task') = Some i →
    t = u
}.

Lemma SoleInv_init i : SoleInv i init.
Proof.
  split; simpl.
  - unfold copies. simpl. lia.
  - intros t task Ht. by rewrite lookup_nil in Ht.
  - intros t u task task' Ht. by rewrite lookup_nil in Ht.
Qed.

Lemma SoleInv_same i s s' :
  processedImages s' = processedImages s → tasks s' = tasks s →
  SoleInv i s → SoleInv i s'.
Proof. intros Hst Hts [H1 H2 H3]. split; rewrite ?Hst, ?Hts; auto. Qed.

Lemma SoleInv_move i s s' t task' :
  SoleInv i s →
  (∀ u task_u, tasks s' !! u = Some task_u →
     (u = t ∧ task_u = task') ∨ (u ≠ t ∧ tasks s !! u = Some task_u)) →
  copies i (processedImages s') ≤ 1 →
  (∀ u task_u r,
     u ≠ t → tasks s !! u = Some task_u →
     active_id (phase task_u) = Some i →
     r ∈ processedImages s → id r = i → isProcessing r = true →
     r ∈ processedImages s') →
  (active_id (phase task') = Some i →
     (∃ r, r ∈ processedImages s' ∧ id r = i ∧ isProcessing r = true ∧
           text r = phase_text (phase task') ∧ error r = None) ∧
     (∀ u task_u, u ≠ t → tasks s !! u = Some task_u →
                  active_id (phase task_u) ≠ Some i)) →
  SoleInv i s'.
Proof.
  intros [H1 H2 H3] Hcase Hnd Hkeep Hnew. split; [done| |].
  - intros u task_u [[-> ->]|[Hne Hu]]%Hcase Hi.
    + by apply Hnew.
    + destruct (H2 _ _ Hu Hi) as (r & Hr & Hid & Hp & Htx & Her).
      exists r. split_and!; try done. by eapply Hkeep.
  - intros u v task_u task_v
      [[-> ->]|[Hne Hu]]%Hcase [[-> ->]|[Hne' Hv]]%Hcase Hi Hi'; [done| | |].
    + destruct (Hnew Hi) as [_ Hother]. by destruct (Hother _ _ Hne' Hv).
    + destruct (Hnew Hi') as [_ Hother]. by destruct (Hother _ _ Hne Hu).
    + by eapply H3.
Qed.

(** The run of batch [t], suspended on id [j], updates the records with
    that id. *)
Lemma SoleInv_update i s s' t task task' j f :
  SoleInv i s → tasks s !! t = Some task →
  active_id (phase task) = Some j →
  processedImages s' = mapImage j f (processedImages s) →
  (∀ img, id (f img) = id img) →
  tasks s' = <[t := task']> (tasks s) →
  (∀ j', active_id (phase task') = Some j' → j' = j) →
  (∀ r, id r = j → isProcessing r = true →
        text r = phase_text (phase task) → error r = None →
        is_Some (active_id (phase task')) →
        isProcessing (f r) = true ∧
        text (f r) = phase_text (phase task') ∧ error (f r) = None) →
  SoleInv i s'.
Proof.
  intros Hinv Ht Hj Hst Hf Hts Hsame Hpost.
  apply (SoleInv_move i s s' t task'); [done| | | |].
  - intros u task_u. rewrite Hts. apply tasks_insert_case.
  - rewrite Hst, copies_mapImage by done. apply Hinv.
  - intros u task_u r Hne Hu Hi Hr Hid _. rewrite Hst.
    apply mapImage_elem_other; [done|].
    intros He. apply Hne. symmetry.
    eapply (si_distinct _ _ Hinv); eauto. congruence.
  - intros Hi. pose proof (Hsame _ Hi) as Hij. subst j.
    destruct (si_owner _ _ Hinv _ _ Ht Hj) as (r & Hr & Hid & Hp & Htx & Her).
    destruct (Hpost r Hid Hp Htx Her) as (Hp' & Htx' & Her');
      [by rewrite Hi|].
    split.
    + exists (f r). rewrite Hst, Hf.
      split_and!; try done. by apply mapImage_elem_target.
    + intros u task_u Hne Hu Hj'. apply Hne. symmetry.
      by eapply (si_distinct _ _ Hinv).
Qed.

Lemma SoleInv_idle i s s' t task' :
  SoleInv i s →
  processedImages s' = processedImages s →
  tasks s' = <[t := task']> (tasks s) ∨ tasks s' = tasks s ++ [task'] ∧
                                          t = length (tasks s) →
  active_id (phase task') = None →
  SoleInv i s'.
Proof.
  intros Hinv Hst Hts Hnone.
  apply (SoleInv_move i s s' t task'); [done| | | |].
  - intros u task_u. destruct Hts as [->|[-> ->]];
      [apply tasks_insert_case|apply tasks_snoc_case].
  - rewrite Hst. apply Hinv.
  - intros. by rewrite Hst.
  - intros Hi. congruence.
Qed.

Lemma SoleInv_intake i s s' t task' r g :
  SoleInv i s →
  id r ≠ i ∨ i ∉ ids (processedImages s) →
  tasks s' = <[t := task']> (tasks s) ∨ tasks s' = tasks s ++ [task'] ∧
                                          t = length (tasks s) →
  processedImages s' = g (processedImages s ++ [r]) →
  (g = (λ prev, prev) ∧ isProcessing r = true ∧ text r = "" ∧
   error r = None ∧ ∃ file, phase task' = Reading (id r) file) ∨
  (∃ msg, g = mapImage (id r) (withError msg)) ∧
  active_id (phase task') = None →
  SoleInv i s'.
Proof.
  intros Hinv Hfresh Hts Hst Hg.
  assert (copies i (processedImages s ++ [r]) ≤ 1) as Hc.
  { rewrite copies_app, copies_singleton.
    destruct Hfresh as [Hne|Habs].
    - rewrite decide_False by done. pose proof (si_once _ _ Hinv). lia.
    - rewrite copies_absent by done. destruct (decide (id r = i)); simpl; lia. }
  assert (∀ r0, r0 ∈ processedImages s → id r0 = i →
                r0 ∈ processedImages s') as Hkeep.
  { intros r0 Hr0 Hid0. rewrite Hst.
    destruct Hg as [(-> & _)|[[msg ->] _]].
    - apply elem_of_app. by left.
    - apply mapImage_elem_other; [apply elem_of_app; by left|].
      destruct Hfresh as [Hne|Habs]; [congruence|].
      destruct Habs. unfold ids. rewrite <- Hid0.
      by apply list_elem_of_fmap_2. }
  apply (SoleInv_move i s s' t task'); [done| | | |].
  - intros u task_u. destruct Hts as [->|[-> ->]];
      [apply tasks_insert_case|apply tasks_snoc_case].
  - rewrite Hst. destruct Hg as [(-> & _)|[[msg ->] _]]; [done|].
    by rewrite copies_mapImage.
  - intros u task_u r0 _ _ _ Hr0 Hid0 _. by apply Hkeep.
  - intros Hi.
    destruct Hg as [(-> & Hp & Htx & Her & file & Hph)|[_ Hn]]; [|congruence].
    rewrite Hph in Hi. simpl in Hi. simplify_eq.
    destruct Hfresh as [Hne|Habs]; [done|]. split.
    + exists r. rewrite Hst, Hph. simpl. split_and!; try done.
      apply elem_of_app. right. by apply list_elem_of_singleton.
    + intros u task_u Hne Hu Hj.
      destruct (si_owner _ _ Hinv _ _ Hu Hj) as (r1 & Hr1 & Hid' & _).
      apply Habs. unfold ids. rewrite <- Hid'.
      by apply list_elem_of_fmap_2.
Qed.

Lemma SoleInv_remove i s s' k r :
  SoleInv i s →
  processedImages s !! k = Some r → isProcessing r = false →
  processedImages s' = removeById (id r) (processedImages s) →
  tasks s' = tasks s →
  SoleInv i s'.
Proof.
  intros Hinv Hk Hp Hst Hts. split.
  - rewrite Hst. etrans; [apply copies_removeById|apply Hinv].
  - intros t task Ht Hi. rewrite Hts in Ht.
    destruct (si_owner _ _ Hinv _ _ Ht Hi)
      as (r' & Hr' & Hid & Hp' & Htx & Her).
    exists r'. split_and!; try done. rewrite Hst.
    apply removeById_elem. split; [done|]. intros He.
    assert (r' = r) as ->; [|congruence].
    eapply (copies_once_elem i); eauto using si_once, list_elem_of_lookup_2.
    congruence.
  - rewrite Hts. apply Hinv.
Qed.

Lemma SoleInv_phase i s s' t task task' j :
  SoleInv i s → tasks s !! t = Some task →
  active_id (phase task) = Some j →
  processedImages s' = processedImages s →
  tasks s' = <[t := task']> (tasks s) →
  active_id (phase task') = Some j →
  phase_text (phase task') = phase_text (phase task) →
  SoleInv i s'.
Proof.
  intros Hinv Ht Hj Hst Hts Hj' Htx.
  apply (SoleInv_update i s s' t task task' j (λ img, img)); try done.
  - by rewrite mapImage_same.
  - intros j'. congruence.
  - intros r Hid Hp Hr Her _. split_and!; congruence.
Qed.

Lemma draws_new_drop i s file rest d :
  draws_new i s (Drop (file :: rest) d) = true →
  id (newImage file d) ≠ i ∨ i ∉ ids (processedImages s).
Proof. intros H. by eapply draws_new_spec. Qed.

Lemma draws_new_timer i s t task d deadline file :
  tasks s !! t = Some task → phase task = Delaying deadline →
  (deadline ≤ now s)%N → acceptedFiles task !! pos task = Some file →
  draws_new i s (Proc t (Timer d)) = true →
  id (newImage file d) ≠ i ∨ i ∉ ids (processedImages s).
Proof.
  intros Ht Hph Hle Hf H. eapply draws_new_spec; [exact H|].
  by eapply intake_draw_timer.
Qed.

Lemma SoleInv_step i s e s' :
  SoleInv i s → draws_new i s e = true → step s e = Some s' → SoleInv i s'.
Proof.
  intros Hinv Hfresh H. destruct e as [dt|files d|t pe|ue].
  - simpl in H. simplify_eq. by apply (SoleInv_same i s).
  - simpl in H. simplify_eq. unfold onDrop, processImage, settle.
    destruct files as [|file rest]; [|destruct (setupError d) eqn:Hd].
    + eapply (SoleInv_idle i s _ (length (tasks s))); eauto; done.
    + apply draws_new_drop in Hfresh.
      eapply (SoleInv_intake i s _ (length (tasks s)) _ (newImage file d)
                (mapImage _ (withError FAILED_TO_PROCESS)));
        eauto; simpl; eauto.
    + apply draws_new_drop in Hfresh.
      eapply (SoleInv_intake i s _ (length (tasks s)) _ (newImage file d)
                (λ prev, prev));
        eauto; simpl; eauto.
      left. split_and!; eauto.
  - apply step_Proc_inv in H as (task & s1 & task' & Ht & Hp & ->).
    proc_cases Hp.
    + eapply (SoleInv_phase _ _ _ t task); eauto; by rewrite Heqp.
    + eapply (SoleInv_update _ _ _ t task _ imageId (withError _));
        eauto; simpl; try done; by rewrite Heqp.
    + eapply (SoleInv_phase _ _ _ t task); eauto; by rewrite Heqp.
    + eapply (SoleInv_update _ _ _ t task _ imageId (withError _));
        eauto; simpl; try done; by rewrite Heqp.
    + eapply (SoleInv_update _ _ _ t task _ imageId (withText _));
        eauto; simpl; try done; [by rewrite Heqp|by intros ? [= <-]].
    + eapply (SoleInv_update _ _ _ t task _ imageId (withError _));
        eauto; simpl; try done; by rewrite Heqp.
    + eapply (SoleInv_update _ _ _ t task _ imageId withDone);
        eauto; simpl; try done; by rewrite Heqp.
    + eapply draws_new_timer in Hfresh; eauto.
      eapply (SoleInv_intake i s _ t _ (newImage f d)
                (mapImage _ (withError FAILED_TO_PROCESS)));
        eauto; simpl; eauto.
    + eapply draws_new_timer in Hfresh; eauto.
      eapply (SoleInv_intake i s _ t _ (newImage f d) (λ prev, prev));
        eauto; simpl; eauto.
      left. split_and!; eauto.
    + eapply (SoleInv_idle _ _ _ t); eauto; done.
  - simpl in H. user_cases H; try by apply (SoleInv_same i s).
    unfold removeImage.
    repeat case_match; eapply (SoleInv_remove i s); eauto.
Qed.

Lemma SoleInv_run i evs s s' :
  SoleInv i s → unshared i s evs = true → run s evs = Some s' →
  SoleInv i s'.
Proof.
  revert s. induction evs as [|e evs IH]; intros s Hinv; simpl.
  - by intros _ [= <-].
  - intros [Hf Hall]%andb_prop.
    destruct (step s e) as [s1|] eqn:He; simpl; [|done].
    apply IH; [|done]. by eapply SoleInv_step.
Qed.

(** A run in which every id drawn is new to the store shares no id. *)
Lemma all_fresh_unshared i evs : ∀ s,
  all_fresh s evs = true → unshared i s evs = true.
Proof.
  induction evs as [|e evs IH]; intros s; simpl; [done|].
  intros [Hf Hall]%andb_prop. apply andb_true_intro. split.
  - unfold fresh_event in Hf. unfold draws_new.
    destruct (intake_draw s e) as [d|]; [|done].
    destruct (String.eqb_spec (substring_from 7 (random36 d)) i) as [<-|];
      done.
  - destruct (step s e); [by apply IH|done].
Qed.

(** The record with an unshared id that has left the processing state has
    no batch at work on its id. *)
Lemma sole_terminal_idle i s r :
  SoleInv i s → r ∈ processedImages s → id r = i → isProcessing r = false →
  idle_id i s = true.
Proof.
  intros Hinv Hr Hid Hp. apply idle_id_spec. intros t task Ht Hi.
  destruct (si_owner _ _ Hinv _ _ Ht Hi) as (r0 & Hr0 & Hid0 & Hp0 & _).
  assert (r0 = r) as ->; [|congruence].
  eapply (copies_once_elem i); eauto using si_once.
Qed.

(** ** The error field holds fixed messages only *)

Record ErrInv (s : State) : Prop := {
  ei_store : Forall fixed_error (processedImages s);
  ei_selected : ∀ r, selectedImage s = Some r → fixed_error r
}.

Lemma ErrInv_init : ErrInv init.
Proof. split; simpl; [constructor|done]. Qed.

Lemma fixed_mapImage i f prev :
  (∀ r, fixed_error r → fixed_error (f r)) →
  Forall fixed_error prev → Forall fixed_error (mapImage i f prev).
Proof.
  intros Hf Hall. unfold mapImage. apply Forall_fmap.
  eapply Forall_impl; [exact Hall|]. intros r Hr. simpl.
  destruct (String.eqb (id r) i); auto.
Qed.

Lemma fixed_removeById i prev :
  Forall fixed_error prev → Forall fixed_error (removeById i prev).
Proof.
  intros Hall. apply Forall_forall. intros r [Hr _]%removeById_elem.
  rewrite Forall_forall in Hall. auto.
Qed.

Ltac fixed_store :=
  simpl; unfold appendImage;
  repeat first
    [ assumption
    | apply fixed_mapImage;
      [intros ? ?; unfold fixed_error in *; simpl; auto|]
    | apply fixed_removeById
    | apply Forall_app_2
    | apply Forall_cons_2; [unfold fixed_error; simpl; auto|]
    | apply Forall_nil_2 ].

Lemma ErrInv_step s e s' : ErrInv s → step s e = Some s' → ErrInv s'.
Proof.
  intros [Hst Hsel] H. destruct e as [dt|files d|t pe|ue].
  - simpl in H. simplify_eq. by split.
  - simpl in H. simplify_eq. unfold onDrop, processImage, settle.
    destruct files as [|file rest]; [|destruct (setupError d) eqn:Hd];
      split; try done; fixed_store.
  - apply step_Proc_inv in H as (task & s1 & task' & Ht & Hp & ->).
    proc_cases Hp; split; try done; fixed_store.
  - simpl in H. user_cases H; try (split; [done|]; simpl).
    + intros r [= <-]. rewrite Forall_forall in Hst.
      eapply Hst, list_elem_of_lookup_2; eauto.
    + intros r [= <-]. rewrite Forall_forall in Hst.
      eapply Hst, list_elem_of_lookup_2; eauto.
    + done.
    + done.
    + done.
    + unfold removeImage. repeat case_match; split; simpl;
        try done; try (intros r Hr; apply Hsel; congruence); fixed_store.
Qed.

Lemma ErrInv_run evs s s' : ErrInv s → run s evs = Some s' → ErrInv s'.
Proof.
  revert s. induction evs as [|e evs IH]; intros s Hinv; simpl.
  - by intros [= <-].
  - destruct (step s e) as [s1|] eqn:He; simpl; [|done].
    apply IH. by eapply ErrInv_step.
Qed.

(** The accumulated text the monitor carries is the text streamed since the
    file was started. *)
Lemma monitor_streamed h : ∀ m a m',
  monitor_run m h = Some m' →
  (∀ i b acc, m = Busy i b acc → a = acc) →
  ∀ i b acc, m' = Busy i b acc → streamed_from a h = acc.
Proof.
  induction h as [|e h IH]; intros m a m'; simpl.
  - intros [= <-] Ha i b acc Hm. by eapply Ha.
  - destruct (monitor_step m e) as [m1|] eqn:Hs; simpl; [|done].
    intros Hrun Ha i b acc Hm'.
    destruct m as [ready|j [] acc0], e as [| |? ? c ?|]; simpl in Hs;
      try done; repeat case_match; simplify_eq;
      (eapply IH; [exact Hrun| |reflexivity]);
      intros ? ? ? [= <- <- <-]; try done;
      by rewrite (Ha _ _ _ eq_refl).
Qed.

Lemma streamed_phase_text s t task :
  LogInv s → tasks s !! t = Some task → active_id (phase task) ≠ None →
  streamed (history t s) = phase_text (phase task).
Proof.
  intros Hinv Ht Hact.
  destruct (li_monitor _ Hinv _ _ Ht) as (m & Hm & Hpm).
  destruct m as [ready|i b acc].
  - by destruct (phase task).
  - unfold streamed.
    rewrite (monitor_streamed _ _ "" _ Hm ltac:(done) i b acc eq_refl).
    destruct (phase task), b; simpl in Hpm; try done; by destruct Hpm.
Qed.

(** ** A batch can always run to its end *)

Lemma run_app evs1 evs2 s :
  run s (evs1 ++ evs2) = run s evs1 ≫= λ s1, run s1 evs2.
Proof.
  revert s. induction evs1 as [|e evs1 IH]; intros s; simpl; [done|].
  destruct (step s e) as [s1|]; simpl; [apply IH|done].
Qed.

Lemma run_cons s e s1 evs :
  step s e = Some s1 → run s (e :: evs) = run s1 evs.
Proof. intros H. simpl. by rewrite H. Qed.

Lemma step_Proc_eq s t task pe s1 task' :
  tasks s !! t = Some task → proc_step t task pe s = Some (s1, task') →
  step s (Proc t pe) = Some (upd_tasks (λ ts, <[t := task']> ts) s1).
Proof. intros Ht Hp. simpl. rewrite Ht. simpl. by rewrite Hp. Qed.




(** ** C1: one file at a time within a batch *)

Lemma LogInv_reachable evs s : run init evs = Some s → LogInv s.
Proof. apply LogInv_run, LogInv_init. Qed.

(** C1 (as amended): in every reachable state and for every batch [t],
    (1) the files handed to [processImage] so far are the first [pos] files
    of the batch, in the batch's order; (2) a file is started either as the
    first entry of the batch's history or right after the settling of the
    previous file's promise (resolved, or rejected and caught by the loop),
    and then at least [DELAY_MS] = 1000 ms later; (3) a request is sent right
    after the start of its own file, and until that file settles the batch
    does nothing but read chunks of it: within one batch no second file is
    started and no second request is sent while one is in flight. *)
Theorem sequential_within_batch evs s t task :
  run init evs = Some s → tasks s !! t = Some task →
  intake_files (history t s) = take (pos task) (acceptedFiles task) ∧
  (∀ h1 file i time h2,
      history t s = h1 ++ LIntake t file i time :: h2 →
      h1 = [] ∨
      ∃ h0 j ok settled,
        h1 = h0 ++ [LSettle t j ok settled] ∧
        (settled + DELAY_MS ≤ time)%N) ∧
  (∀ h1 i time h2,
      history t s = h1 ++ LRequest t i time :: h2 →
      (∃ h0 file started, h1 = h0 ++ [LIntake t file i started]) ∧
      ∃ cs rest,
        h2 = cs ++ rest ∧
        Forall (λ e, ∃ c at_, e = LChunk t i c at_) cs ∧
        (rest = [] ∨ ∃ ok settled h3, rest = LSettle t i ok settled :: h3)).
Proof.
  intros Hrun Ht. pose proof (LogInv_reachable _ _ Hrun) as Hinv.
  destruct (li_monitor _ Hinv _ _ Ht) as (m & Hm & _).
  pose proof (history_tasks t s) as Hall.
  split_and!.
  - by eapply li_files.
  - intros h1 file i time h2 Hh. rewrite Hh in Hm, Hall.
    apply monitor_run_split in Hm as (m1 & Hm1 & Hm2).
    simpl in Hm2.
    destruct m1 as [ready|? [] ?]; simpl in Hm2; try done.
    destruct (N.leb_spec ready time) as [Hle|]; [|done].
    apply monitor_idle_last in Hm1 as [[-> _]|(h0 & u & j & ok & st & -> & ->)];
      [by left|right].
    apply Forall_app in Hall as [Hall _].
    apply Forall_app in Hall as [_ Hall].
    apply Forall_cons in Hall as [Hall _]. simpl in Hall. subst u.
    by eexists _, _, _, _.
  - intros h1 i time h2 Hh. rewrite Hh in Hm, Hall.
    apply monitor_run_split in Hm as (m1 & Hm1 & Hm2).
    simpl in Hm2.
    destruct m1 as [|j [] acc]; simpl in Hm2; try done.
    destruct (String.eqb_spec j i) as [->|]; [|done]. simpl in Hm2.
    apply Forall_app in Hall as [Hall1 Hall2].
    apply Forall_cons in Hall2 as [_ Hall2].
    split.
    + apply monitor_unrequested_last in Hm1 as (h0 & u & file & st & ->).
      apply Forall_app in Hall1 as [_ Hall1].
      apply Forall_cons in Hall1 as [Hall1 _]. simpl in Hall1. subst u.
      by eexists _, _, _.
    + apply monitor_requested_next in Hm2 as (cs & rest & -> & Hcs & Hrest).
      apply Forall_app in Hall2 as [Hc Hr].
      exists cs, rest. split_and!; [done| |].
      * apply Forall_forall. intros e He.
        rewrite Forall_forall in Hcs. rewrite Forall_forall in Hc.
        destruct (Hcs e He) as (u & c & at_ & ->).
        specialize (Hc _ He). simpl in Hc. subst u. by eexists _, _.
      * destruct Hrest as [->|(u & ok & st & h3 & ->)]; [by left|right].
        apply Forall_cons in Hr as [Hu _]. simpl in Hu. subst u.
        by eexists _, _, _.
Qed.

Lemma sequential_within_batch_witness :
  ∃ s task,
    run init two_files_trace = Some s ∧ tasks s !! 0 = Some task ∧
    intake_files (history 0 s) = [receipt_png; menu_jpg] ∧
    phase task = Done.
Proof.
  eexists _, _. split; [vm_compute; reflexivity|].
  split; [vm_compute; reflexivity|].
  split; [|reflexivity].
  etransitivity.
  - eapply (sequential_within_batch two_files_trace _ 0);
      vm_compute; reflexivity.
  - reflexivity.
Defined.

(** The claim as stated ("at most one extraction request is in flight at any
    time") fails across batches: a batch dropped while another is in flight
    sends its own request. *)
Lemma two_requests_in_flight :
  ¬ (∀ evs s, run init evs = Some s → in_flight s ≤ 1).
Proof.
  intros H.
  assert (∃ s, run init overlapping_trace = Some s ∧ in_flight s = 2)
    as (s & Hs & Hn) by (eexists; split; vm_compute; reflexivity).
  apply H in Hs. lia.
Qed.

(** ** C2: when the record of a file is created *)

Lemma started_file_draw s e d :
  intake_draw s e = Some d → ∃ file, started_file s e = Some file.
Proof.
  unfold intake_draw, started_file.
  destruct e as [|[|file rest] d'|t [] |]; try done; [by eauto|].
  destruct (tasks s !! t) as [task|]; simpl; [|done].
  destruct (phase task); try done.
  case_match; [|done].
  destruct (acceptedFiles task !! pos task); simpl; [by eauto|done].
Qed.

Lemma step_network s e s' :
  step s e = Some s' → intake_draw s e ≠ None ∨ removed_id s e ≠ None →
  network s' = network s.
Proof.
  intros H Hd. destruct e as [dt|files d|t pe|ue].
  - by destruct Hd.
  - simpl in H. simplify_eq. unfold onDrop, processImage, settle.
    destruct files; [done|]. by destruct (setupError d).
  - apply step_Proc_inv in H as (task & s1 & task' & Ht & Hp & ->).
    destruct Hd as [Hd|Hd]; [|done].
    destruct pe; try done.
    proc_cases Hp; done.
  - simpl in H. user_cases H; try done; try by destruct Hd.
    unfold removeImage. by repeat case_match.
Qed.

Lemma step_object_url s e s' d :
  step s e = Some s' → intake_draw s e = Some d →
  objectUrl d ∈ objectURLs s'.
Proof.
  intros H Hd. destruct e as [dt|files d'|t pe|ue]; try done.
  - simpl in H. simplify_eq. unfold onDrop, processImage, settle.
    destruct files; [done|]. simpl in Hd. simplify_eq.
    destruct (setupError d); simpl; apply elem_of_app; right;
      by apply list_elem_of_singleton.
  - apply step_Proc_inv in H as (task & s1 & task' & Ht & Hp & ->).
    destruct pe; try done.
    proc_cases Hp.
    + rewrite (intake_draw_timer _ _ _ _ _ _ Ht Heqp H Heqo) in Hd.
      simplify_eq. simpl. apply elem_of_app. right.
      by apply list_elem_of_singleton.
    + rewrite (intake_draw_timer _ _ _ _ _ _ Ht Heqp H Heqo) in Hd.
      simplify_eq. simpl. apply elem_of_app. right.
      by apply list_elem_of_singleton.
    + by rewrite (intake_draw_timer_last _ _ _ _ _ Ht Heqp Heqo) in Hd.
Qed.

(** C2 (as amended): the record of a file is created when the loop hands
    that file to [processImage] -- at the drop for the first file of a
    batch, after the delay that follows the previous file for every later
    file -- and by no other event.  The step that starts a file appends one
    record, creates its preview reference and sends nothing to the
    extraction service; when the set-up does not throw, the record appended
    carries the drawn id, the file's name, empty text, [isProcessing] true,
    no error and the preview reference. *)
Theorem record_created_when_file_starts s e s' :
  step s e = Some s' →
  match intake_draw s e with
  | Some d =>
      ∃ file,
        started_file s e = Some file ∧
        length (processedImages s') = S (length (processedImages s)) ∧
        objectUrl d ∈ objectURLs s' ∧
        network s' = network s ∧
        (setupError d = None →
         processedImages s' =
         processedImages s ++
           [{| id := substring_from 7 (random36 d);
               name := file_name file; text := ""; isProcessing := true;
               error := None; imageUrl := objectUrl d |}])
  | None => length (processedImages s') ≤ length (processedImages s)
  end.
Proof.
  intros Hstep.
  destruct (step_store_change _ _ _ Hstep)
    as [f Hrem Hdraw Hkeep Hmiss Hst
       |d file f Hrem Hdraw Hfile Hkeep Hmiss Hst
       |i Hrem Hdraw Hst]; rewrite Hdraw.
  - rewrite Hst, length_fmap. lia.
  - exists file. split_and!; [done| | | |].
    + rewrite Hst, length_fmap, length_app. simpl. lia.
    + by eapply step_object_url.
    + eapply step_network; eauto. left. congruence.
    + intros Hnone. rewrite Hst.
      transitivity (processedImages s ++ [newImage file d]); [|done].
      etransitivity; [|apply list_fmap_id].
      apply list_fmap_ext. intros _ img _. apply Hmiss.
      unfold target_id. by rewrite Hdraw, Hnone.
  - rewrite Hst. apply length_filter.
Qed.

Lemma record_created_when_file_starts_witness :
  processedImages (state_after [Drop [receipt_png; menu_jpg] draw_a]) =
  [{| id := "82mvyr"; name := "receipt.png"; text := "";
      isProcessing := true; error := None; imageUrl := "blob:a" |}].
Proof.
  destruct (record_created_when_file_starts
              init (Drop [receipt_png; menu_jpg] draw_a)
              (state_after [Drop [receipt_png; menu_jpg] draw_a])
              ltac:(vm_compute; reflexivity))
    as (file & Hfile & _ & _ & _ & Hst).
  injection Hfile as <-. exact (Hst eq_refl).
Defined.

(** The claim as stated fails: right after two images are dropped the store
    holds the record of the first only. *)
Lemma second_record_waits :
  ¬ (∀ files d s',
       step init (Drop files d) = Some s' →
       name <$> processedImages s' = file_name <$> files).
Proof.
  intros H.
  specialize (H [receipt_png; menu_jpg] draw_a _ eq_refl).
  vm_compute in H. discriminate H.
Qed.

(** ** C3: one record per file, in drop order *)

Lemma intake_keys_cons e l :
  intake_keys (reverse (e :: l)) = intake_keys (reverse l) ++ intake_keys [e].
Proof. rewrite reverse_cons. apply omap_app. Qed.








(** ** C4: records that have left the processing state *)

Lemma terminal_flag_run evs : ∀ s s' k k' r,
  run s evs = Some s' → follow_run s evs k = Some k' →
  processedImages s !! k = Some r → isProcessing r = false →
  ∃ r', processedImages s' !! k' = Some r' ∧ isProcessing r' = false ∧
        id r' = id r ∧ name r' = name r.
Proof.
  induction evs as [|e evs IH]; intros s s' k k' r; simpl.
  - intros [= <-] [= <-] Hk Hp. by exists r.
  - destruct (follow s e k) as [k1|] eqn:Hf; simpl; [|by intros _ ?].
    destruct (step s e) as [s1|] eqn:He; simpl; [|done].
    intros Hrun Hfr Hk Hp.
    destruct (step_follow _ _ _ _ _ _ He Hk Hf)
      as (r1 & Hk1 & Hid & Hname & _ & Hflag & _).
    destruct (IH _ _ _ _ _ Hrun Hfr Hk1 (Hflag Hp))
      as (r' & Hk' & Hp' & Hid' & Hname').
    exists r'. split_and!; congruence.
Qed.

(** C4 (as amended): take a record whose [isProcessing] is false and
    follow it through any sequence of events that does not remove it.
    (1) Its [isProcessing] stays false (and it keeps its id and name),
    whatever ids are drawn.  (2) The record does not change at all -- in
    particular its text stays as it is -- provided that no batch is at work
    on a file with the id of the record when the sequence starts, and that
    no event of the sequence draws that id.  (3) The first proviso holds by
    itself when the id of the record is not shared: whenever it was drawn,
    no record of the store carried it. *)
Theorem terminal_record_stays s evs s' k k' r :
  run s evs = Some s' → follow_run s evs k = Some k' →
  processedImages s !! k = Some r → isProcessing r = false →
  (∃ r', processedImages s' !! k' = Some r' ∧ isProcessing r' = false ∧
         id r' = id r ∧ name r' = name r) ∧
  (idle_id (id r) s = true → never_drawn (id r) s evs = true →
   processedImages s' !! k' = Some r) ∧
  (∀ evs0, run init evs0 = Some s → unshared (id r) init evs0 = true →
           idle_id (id r) s = true).
Proof.
  intros Hrun Hfr Hk Hp. split_and!.
  - by eapply terminal_flag_run.
  - intros Hidle Hdrawn. by eapply idle_frozen_run.
  - intros evs0 Hrun0 Hsole.
    eapply (sole_terminal_idle _ _ r); eauto using list_elem_of_lookup_2.
    eapply SoleInv_run; eauto using SoleInv_init.
Qed.

Lemma terminal_record_stays_witness :
  ∃ r,
    processedImages (state_after (first_file_trace draw_a)) !! 0 = Some r ∧
    text r = "# Receipt" ∧
    processedImages
      (state_after (first_file_trace draw_a ++ colliding_menus))
      !! 0 = Some r.
Proof.
  eexists. split; [vm_compute; reflexivity|]. split; [reflexivity|].
  eapply (proj1 (proj2 (terminal_record_stays
                   (state_after (first_file_trace draw_a))
                   colliding_menus
                   (state_after (first_file_trace draw_a ++
                                 colliding_menus)) 0 0 _
                   ltac:(vm_compute; reflexivity)
                   ltac:(vm_compute; reflexivity)
                   ltac:(vm_compute; reflexivity)
                   ltac:(vm_compute; reflexivity))));
    vm_compute; reflexivity.
Defined.

(** The claim as stated fails when a later file draws the id of a finished
    record: 0.5 and 0.25 both give the empty id, and the chunk of the second
    file overwrites the text of the first record. *)
Lemma finished_text_overwritten :
  ∃ s s' r r',
    run init (first_file_trace draw_half) = Some s ∧
    run s (second_file_trace draw_quarter) = Some s' ∧
    follow_run s (second_file_trace draw_quarter) 0 = Some 0 ∧
    processedImages s !! 0 = Some r ∧
    isProcessing r = false ∧ text r = "# Receipt" ∧
    processedImages s' !! 0 = Some r' ∧
    name r' = name r ∧ isProcessing r' = false ∧ text r' = "# Menu".
Proof.
  exists (state_after (first_file_trace draw_half)),
    (state_after (first_file_trace draw_half ++
                  second_file_trace draw_quarter)).
  eexists _, _. split_and!; vm_compute; reflexivity.
Qed.

(** Both provisos of (2) are needed.  Here no id is drawn after the record
    has left the processing state, but a batch that drew the same id is
    still streaming: its chunk overwrites the text of the finished
    record. *)
Lemma finished_text_overwritten_in_flight :
  ∃ s s' r r',
    run init collision_in_flight = Some s ∧
    run s [Proc 1 (Chunk "# Menu")] = Some s' ∧
    processedImages s !! 0 = Some r ∧
    isProcessing r = false ∧ text r = "# Receipt" ∧
    never_drawn (id r) s [Proc 1 (Chunk "# Menu")] = true ∧
    idle_id (id r) s = false ∧
    processedImages s' !! 0 = Some r' ∧
    name r' = name r ∧ isProcessing r' = false ∧ text r' = "# Menu".
Proof.
  exists (state_after collision_in_flight),
    (state_after (collision_in_flight ++ [Proc 1 (Chunk "# Menu")])).
  eexists _, _. split_and!; vm_compute; reflexivity.
Qed.

(** ** C5: what a failure writes into the record *)

Lemma failure_step s t pe s' msg :
  step s (Proc t pe) = Some s' → failure_message pe = Some msg →
  ∃ task i,
    tasks s !! t = Some task ∧ active_id (phase task) = Some i ∧
    processedImages s' = mapImage i (withError msg) (processedImages s) ∧
    selectedImage s' = selectedImage s.
Proof.
  intros H Hmsg.
  apply step_Proc_inv in H as (task & s1 & task' & Ht & Hp & ->).
  exists task. destruct pe; simpl in Hmsg; simplify_eq;
    proc_cases Hp; eexists; by split_and!.
Qed.

Lemma failure_owner s t pe s' msg :
  FreshInv s →
  step s (Proc t pe) = Some s' → failure_message pe = Some msg →
  ∃ task k r,
    tasks s !! t = Some task ∧
    processedImages s !! k = Some r ∧ active_id (phase task) = Some (id r) ∧
    isProcessing r = true ∧ error r = None ∧
    text r = phase_text (phase task) ∧
    processedImages s' !! k = Some (withError msg r).
Proof.
  intros Hinv H Hmsg.
  destruct (failure_step _ _ _ _ _ H Hmsg) as (task & i & Ht & Hi & Hst & _).
  destruct (fi_owner _ Hinv _ _ _ Ht Hi) as (r & Hr & Hid & Hp & Htx & Her).
  apply list_elem_of_lookup_1 in Hr as [k Hk].
  exists task, k, r. subst i. split_and!; try done.
  rewrite Hst. by apply mapImage_target.
Qed.

(** C5 (as amended): a failure of the binary read ([reader.onerror]) sets
    [isProcessing] to false and [error] to "File reading error" on the
    records carrying the id of the file; a failure of the extraction request
    or of its stream sets [isProcessing] to false and [error] to "Failed to
    process image".  Each message is fixed: it does not depend on the raw
    error, which never reaches the store or the selection, whose error
    fields hold nothing but these two messages in every reachable state.
    When the ids drawn so far were new to the store, the record of the
    failed file is in the store and is the one updated. *)
Theorem failure_sets_fixed_message evs s t pe s' msg :
  run init evs = Some s →
  step s (Proc t pe) = Some s' → failure_message pe = Some msg →
  (pe = ReaderError ∧ msg = "File reading error" ∨
   (∃ raw, pe = RequestFail raw ∨ pe = ChunkFail raw) ∧
   msg = "Failed to process image") ∧
  (∃ task i,
     tasks s !! t = Some task ∧ active_id (phase task) = Some i ∧
     processedImages s' = mapImage i (withError msg) (processedImages s) ∧
     (∀ r, r ∈ processedImages s' → id r = i →
           isProcessing r = false ∧ error r = Some msg) ∧
     (all_fresh init evs = true →
      ∃ k r, processedImages s !! k = Some r ∧ id r = i ∧
             isProcessing r = true ∧
             processedImages s' !! k = Some (withError msg r))) ∧
  (∀ r, r ∈ processedImages s' ∨ selectedImage s' = Some r →
        fixed_error r).
Proof.
  intros Hrun Hstep Hmsg. split_and!.
  - destruct pe; simpl in Hmsg; simplify_eq; eauto.
  - destruct (failure_step _ _ _ _ _ Hstep Hmsg)
      as (task & i & Ht & Hi & Hst & _).
    exists task, i. split_and!; try done.
    + intros r Hr Hid. rewrite Hst in Hr. unfold mapImage in Hr.
      apply list_elem_of_fmap_1 in Hr as (r0 & -> & Hr0).
      destruct (String.eqb_spec (id r0) i) as [|Hne]; [done|].
      by destruct Hne.
    + intros Hfresh.
      assert (FreshInv s) as Hinv
          by (eapply FreshInv_run; eauto using FreshInv_init).
      destruct (failure_owner _ _ _ _ _ Hinv Hstep Hmsg)
        as (task0 & k & r & Ht0 & Hk & Hi0 & Hp & _ & _ & Hk').
      exists k, r. split_and!; try done. congruence.
  - assert (ErrInv s') as [Hst Hsel].
    { eapply ErrInv_step; eauto. eapply ErrInv_run; eauto using ErrInv_init. }
    intros r [Hr|Hr]; [|by apply Hsel].
    rewrite Forall_forall in Hst. by apply Hst.
Qed.

Lemma failure_sets_fixed_message_witness :
  ∃ r,
    processedImages (state_after two_files_trace) !! 1 = Some r ∧
    name r = "menu.jpg" ∧ error r = Some "Failed to process image".
Proof.
  destruct (failure_sets_fixed_message
              (firstn 9 two_files_trace)
              (state_after (firstn 9 two_files_trace)) 0
              (RequestFail "429 quota")
              (state_after (firstn 10 two_files_trace))
              "Failed to process image"
              ltac:(vm_compute; reflexivity) ltac:(vm_compute; reflexivity)
              eq_refl)
    as (_ & (task & i & _ & _ & _ & _ & Hfresh) & _).
  destruct (Hfresh ltac:(vm_compute; reflexivity)) as (k & r & Hk & Hid & _).
  eexists. split; [vm_compute; reflexivity|]. by split.
Defined.

(** The claim as stated fails: the message is not the same for all
    failures.  A read failure and a request failure of the same file leave
    different messages. *)
Lemma two_error_messages :
  ∃ s1 s2 r1 r2,
    run init [Drop [receipt_png] draw_a; Proc 0 ReaderError] = Some s1 ∧
    run init [Drop [receipt_png] draw_a; Proc 0 (ReaderLoad data_url);
              Proc 0 (RequestFail "503")] = Some s2 ∧
    processedImages s1 = [r1] ∧ processedImages s2 = [r2] ∧
    error r1 = Some "File reading error" ∧
    error r2 = Some "Failed to process image" ∧
    error r1 ≠ error r2.
Proof.
  eexists _, _, _, _.
  split; [vm_compute; reflexivity|]. split; [vm_compute; reflexivity|].
  split; [reflexivity|]. split; [reflexivity|].
  split; [reflexivity|]. split; [reflexivity|]. simpl. discriminate.
Qed.

(** ** C6: the partial text of a failed file *)

Lemma card_body_error msg r :
  msg = FILE_READING_ERROR ∨ msg = FAILED_TO_PROCESS →
  card_body (withError msg r) = ErrorBox msg.
Proof. by intros [->| ->]. Qed.

Lemma failure_message_fixed pe msg :
  failure_message pe = Some msg →
  msg = FILE_READING_ERROR ∨ msg = FAILED_TO_PROCESS.
Proof. destruct pe; simpl; intros; simplify_eq; auto. Qed.

(** The failing file has an id of its own: its record is the one the
    failure marks, and afterwards no batch is at work on the id. *)
Lemma sole_failure_owner i s t task pe s' msg :
  SoleInv i s → tasks s !! t = Some task →
  active_id (phase task) = Some i →
  step s (Proc t pe) = Some s' → failure_message pe = Some msg →
  ∃ k r,
    processedImages s !! k = Some r ∧ id r = i ∧
    text r = phase_text (phase task) ∧
    processedImages s' !! k = Some (withError msg r) ∧
    idle_id i s' = true.
Proof.
  intros Hinv Ht Hi Hstep Hmsg.
  destruct (failure_step _ _ _ _ _ Hstep Hmsg)
    as (task0 & i0 & Ht0 & Hi0 & Hst & _).
  simplify_eq.
  destruct (si_owner _ _ Hinv _ _ Ht Hi) as (r & Hr & Hid & Hp & Htx & Her).
  apply list_elem_of_lookup_1 in Hr as [k Hk].
  exists k, r. split_and!; try done.
  - rewrite Hst. by apply mapImage_target.
  - apply idle_id_spec. intros u task_u Hu.
    apply step_Proc_inv in Hstep as (task1 & s1 & task' & Ht1 & Hp1 & ->).
    simpl in Hu. rewrite (proc_step_tasks _ _ _ _ _ _ Hp1) in Hu.
    apply tasks_insert_case in Hu as [[-> ->]|[Hne Hu]].
    + destruct pe; simpl in Hmsg; simplify_eq; proc_cases Hp1; done.
    + intros Hi'. apply Hne.
      exact (si_distinct _ _ Hinv _ _ _ _ Hu Ht Hi' Hi).
Qed.

(** C6 (as amended): a file fails whose id is not shared, that is, no
    record of the store carried the id whenever it was drawn.  Then the
    record of the file keeps its text: (1) the text is exactly the
    concatenation of the chunks read for the file before the failure, and
    the failure update leaves it as it is; (2) it stays so under every later
    sequence of events that does not remove the record and does not draw its
    id; (3) the card of the record shows the error message in place of the
    text; (4) the text is still handed to the detail pane when the card is
    clicked, and to the copy and download actions. *)
Theorem partial_text_kept evs s t task i pe s' msg :
  run init evs = Some s →
  tasks s !! t = Some task → active_id (phase task) = Some i →
  unshared i init evs = true →
  step s (Proc t pe) = Some s' → failure_message pe = Some msg →
  ∃ k r,
    processedImages s !! k = Some r ∧ id r = i ∧
    text r = streamed (history t s) ∧
    processedImages s' !! k = Some (withError msg r) ∧
    text (withError msg r) = text r ∧
    (∀ evs' s'' k',
        run s' evs' = Some s'' → never_drawn i s' evs' = true →
        follow_run s' evs' k = Some k' →
        processedImages s'' !! k' = Some (withError msg r)) ∧
    card_body (withError msg r) = ErrorBox msg ∧
    (detail_pane <$> step s' (User (ClickCard k)) =
       Some (Some (name r, text r)) ∧
     clipboard <$> step s' (User (ClickCopy k)) = Some (Some (text r)) ∧
     ∀ blobUrl,
       (λ s'', content <$> last (downloads s'')) <$>
         step s' (User (ClickDownload k blobUrl)) = Some (Some (text r))).
Proof.
  intros Hrun Ht Hi Hsole Hstep Hmsg.
  assert (SoleInv i s) as Hinv
      by (eapply SoleInv_run; eauto using SoleInv_init).
  pose proof (LogInv_reachable _ _ Hrun) as Hlog.
  destruct (sole_failure_owner _ _ _ _ _ _ _ Hinv Ht Hi Hstep Hmsg)
    as (k & r & Hk & Hid & Htx & Hk' & Hidle).
  exists k, r. split_and!; try done.
  - rewrite Htx. symmetry. apply streamed_phase_text; try done. congruence.
  - intros evs' s'' k' Hrun' Hdrawn Hfollow.
    eapply (idle_frozen_run evs' s' s'' k k'); eauto; simpl; by rewrite Hid.
  - apply card_body_error. by eapply failure_message_fixed.
  - simpl. by rewrite Hk'.
  - simpl. by rewrite Hk'.
  - intros blobUrl. simpl. rewrite Hk'. simpl. by rewrite last_snoc.
Qed.

Lemma partial_text_kept_witness :
  all_fresh init failure_beside_collision = false ∧
  ∃ r,
    processedImages (state_after failure_beside_collision) !! 2 = Some r ∧
    text r = "# Rec" ∧ card_body r = ErrorBox "Failed to process image".
Proof.
  split; [vm_compute; reflexivity|].
  destruct (partial_text_kept
              (firstn 6 failure_beside_collision)
              (state_after (firstn 6 failure_beside_collision))
              2 _ "82mvyr" (ChunkFail "reset")
              (state_after failure_beside_collision)
              "Failed to process image"
              ltac:(vm_compute; reflexivity) ltac:(vm_compute; reflexivity)
              ltac:(vm_compute; reflexivity) ltac:(vm_compute; reflexivity)
              ltac:(vm_compute; reflexivity) eq_refl)
    as (k & r & Hk & Hid & Htx & Hk' & _ & _ & Hcard & _).
  assert (k = 2) as ->.
  { destruct k as [|[|[|k]]]; [| |done|];
      vm_compute in Hk; simplify_eq; vm_compute in Hid; done. }
  exists (withError "Failed to process image" r).
  split; [exact Hk'|]. split; [|exact Hcard].
  simpl. rewrite Htx. vm_compute. reflexivity.
Defined.

(** The claim as stated fails in its last part: once the error is set the
    card renders the error message and not the text, so the partial text
    "# Rec" is no longer shown in the grid. *)
Lemma card_hides_partial_text :
  ∃ s r,
    run init [Drop [receipt_png] draw_a; Proc 0 (ReaderLoad data_url);
              Proc 0 StreamOpen; Proc 0 (Chunk "# Rec");
              Proc 0 (ChunkFail "reset")] = Some s ∧
    processedImages s = [r] ∧ text r = "# Rec" ∧
    card_body r = ErrorBox "Failed to process image" ∧
    ∀ more, card_body r ≠ TextPreview (text r) more.
Proof.
  eexists _, _. split; [vm_compute; reflexivity|].
  split; [reflexivity|]. split; [reflexivity|]. split; [reflexivity|].
  intros more. vm_compute. discriminate.
Qed.

(** ** C7: the downloaded file *)

(** The download holds exactly the text it is given, as plain text. *)
Lemma downloadText_content txt filename blobUrl s :
  last (downloads (downloadText txt filename blobUrl s)) =
  Some {| download := download_name filename; href := blobUrl;
          content := txt; contentType := "text/plain" |}.
Proof. unfold downloadText. simpl. apply last_snoc. Qed.

Lemma split_no_sep sep s :
  (∀ c, c ∈ String.list_ascii_of_string s → c ≠ sep) → split sep s = [s].
Proof.
  induction s as [|c s IH]; simpl; intros Hno; [done|].
  destruct (Ascii.eqb_spec c sep) as [->|_].
  - destruct (Hno sep); [by left|done].
  - rewrite IH; [done|]. intros c' Hc'. apply Hno. by right.
Qed.

(** [split] never returns the empty array. *)
Lemma split_cons sep s : ∃ piece pieces, split sep s = piece :: pieces.
Proof.
  induction s as [|c s (piece & pieces & IH)]; simpl; [by eauto|].
  destruct (Ascii.eqb c sep); [by eauto|]. rewrite IH. by eauto.
Qed.

(** The name is the text before the first dot, followed by the suffix. *)
Lemma download_name_first_dot a b :
  (∀ c, c ∈ String.list_ascii_of_string a → c ≠ "."%char) →
  download_name (a +:+ String "." b) = a +:+ "-extracted.txt".
Proof.
  unfold download_name. induction a as [|c a IH]; simpl; intros Hno.
  - done.
  - destruct (Ascii.eqb_spec c ".") as [->|_].
    + destruct (Hno "."%char); [by left|done].
    + assert (∀ c', c' ∈ String.list_ascii_of_string a → c' ≠ "."%char)
        as Hno' by (intros c' Hc'; apply Hno; by right).
      specialize (IH Hno').
      destruct (split_cons "." (a +:+ String "." b))
        as (piece & pieces & Hsplit).
      rewrite Hsplit in IH |- *. exact (f_equal (String c) IH).
Qed.

(** The download button of a finished record hands [downloadText] the
    text and the name of the record. *)
Lemma download_button s k r blobUrl :
  processedImages s !! k = Some r → isProcessing r = false →
  step s (User (ClickDownload k blobUrl)) =
  Some (downloadText (text r) (name r) blobUrl s).
Proof. intros Hk Hp. simpl. rewrite Hk. simpl. by rewrite Hp. Qed.

(** C7 (the code at the failing input): the file downloaded holds exactly
    the text of the record, as plain text, and for "receipt.png" it is named
    "receipt-extracted.txt".  But the name is cut at the first dot, not at
    the extension: the text of the screenshot is saved as
    "Screenshot 2024-01-15 at 10-extracted.txt", while the stem of its name
    followed by the suffix is
    "Screenshot 2024-01-15 at 10.30.45-extracted.txt". *)
Theorem download_name_cut_at_first_dot :
  download_name "receipt.png" = "receipt-extracted.txt" ∧
  stem "receipt.png" = "receipt" ∧
  text <$> processedImages (state_after download_screenshot) =
    ["10:30 standup"] ∧
  downloads (state_after download_screenshot) =
    [{| download := "Screenshot 2024-01-15 at 10-extracted.txt";
        href := "blob:txt"; content := "10:30 standup";
        contentType := "text/plain" |}] ∧
  stem screenshot_name +:+ "-extracted.txt" =
    "Screenshot 2024-01-15 at 10.30.45-extracted.txt".
Proof. by vm_compute. Qed.

(** ** C8: removing a record *)

Lemma removeById_one i prev :
  NoDup (ids prev) → i ∈ ids prev →
  S (length (removeById i prev)) = length prev.
Proof.
  unfold ids, removeById. induction prev as [|r prev IH]; simpl.
  - intros _ Hi. by apply elem_of_nil in Hi.
  - intros [Hnot Hnd]%NoDup_cons Hi.
    destruct (decide (id r = i)) as [He|Hne].
    + rewrite filter_cons_False by (intros Hx; by apply Hx).
      f_equal. subst i.
      assert (filter (λ img, id img ≠ id r) prev = prev) as ->; [|done].
      clear IH Hi Hnd. induction prev as [|r' prev IH]; [done|].
      apply not_elem_of_cons in Hnot as [Hne Hnot].
      rewrite filter_cons_True by done. f_equal. by apply IH.
    + rewrite filter_cons_True by done. simpl. f_equal.
      apply IH; [done|]. apply elem_of_cons in Hi as [Hi|Hi]; [congruence|done].
Qed.

(** C8 (as amended): [removeImage(id)] deletes from the store every record
    carrying that id and nothing else -- exactly one record when the ids of
    the store are distinct and the id is present -- and keeps the others
    unchanged and in order; it clears the selection when the selected
    snapshot carries that id and leaves the selection alone otherwise.  The
    preview reference is not freed: the set of live object URLs is the same
    after the removal.  The remove button of a card that is not processing
    calls [removeImage] with the id of its record. *)
Theorem removeImage_effect s i :
  processedImages (removeImage i s) = removeById i (processedImages s) ∧
  (∀ r, r ∈ processedImages (removeImage i s) ↔
        r ∈ processedImages s ∧ id r ≠ i) ∧
  processedImages (removeImage i s) `sublist_of` processedImages s ∧
  (NoDup (ids (processedImages s)) → i ∈ ids (processedImages s) →
   S (length (processedImages (removeImage i s))) =
   length (processedImages s)) ∧
  selectedImage (removeImage i s) =
    match selectedImage s with
    | Some sel => if decide (id sel = i) then None else Some sel
    | None => None
    end ∧
  objectURLs (removeImage i s) = objectURLs s ∧
  (∀ k r, processedImages s !! k = Some r → isProcessing r = false →
          step s (User (ClickRemove k)) = Some (removeImage (id r) s)).
Proof.
  assert (processedImages (removeImage i s) =
          removeById i (processedImages s)) as Hst.
  { unfold removeImage. by repeat case_match. }
  split_and!.
  - done.
  - intros r. rewrite Hst. apply removeById_elem.
  - rewrite Hst. apply removeById_sublist.
  - rewrite Hst. apply removeById_one.
  - unfold removeImage. destruct (selectedImage s) as [sel|] eqn:Hsel.
    + destruct (String.eqb_spec (id sel) i); case_decide; done.
    + done.
  - unfold removeImage. by repeat case_match.
  - intros k r Hk Hp. simpl. rewrite Hk. simpl. by rewrite Hp.
Qed.

Lemma removeImage_effect_witness :
  length (processedImages
            (removeImage "82mvyr" (state_after two_files_trace))) = 1.
Proof.
  destruct (removeImage_effect (state_after two_files_trace) "82mvyr")
    as (_ & _ & _ & Hone & _).
  assert (NoDup (ids (processedImages (state_after two_files_trace))))
    as Hnd.
  { change (NoDup ["82mvyr"; "1qpw7c"]).
    apply NoDup_cons. split.
    - intros Hin. apply list_elem_of_singleton in Hin. discriminate Hin.
    - apply NoDup_singleton. }
  specialize (Hone Hnd ltac:(by left)).
  apply Nat.succ_inj.
  exact (eq_trans Hone ltac:(vm_compute; reflexivity)).
Defined.

(** The claim as stated fails: the remove action does not free the preview
    reference.  After the record is removed its object URL is still live. *)
Lemma preview_not_freed :
  ∃ s r s',
    run init (first_file_trace draw_a) = Some s ∧
    processedImages s !! 0 = Some r ∧
    step s (User (ClickRemove 0)) = Some s' ∧
    processedImages s' = [] ∧
    imageUrl r ∈ objectURLs s'.
Proof.
  eexists _, _, _. split; [vm_compute; reflexivity|].
  split; [reflexivity|]. split; [vm_compute; reflexivity|].
  split; [reflexivity|]. by left.
Qed.

(** ** C9: the detail pane *)

(** No callback of the pipeline touches the selection. *)
Lemma pipeline_keeps_selection s t pe s' :
  step s (Proc t pe) = Some s' → selectedImage s' = selectedImage s.
Proof.
  intros H. apply step_Proc_inv in H as (task & s1 & task' & Ht & Hp & ->).
  proc_cases Hp; done.
Qed.

(** C9 (the code at the failing input): the card is clicked while its file
    streams; [setSelectedImage(img)] stores the record as it is at that
    moment.  The chunk read afterwards goes to the store only: the store
    holds "# Receipt total 12", the detail pane still renders "# Receipt",
    also after the stream has ended. *)
Theorem detail_pane_shows_snapshot :
  text <$> processedImages (state_after select_while_streaming) =
    ["# Receipt total 12"] ∧
  isProcessing <$> processedImages (state_after select_while_streaming) =
    [false] ∧
  detail_pane (state_after select_while_streaming) =
    Some ("receipt.png", "# Receipt").
Proof. by vm_compute. Qed.

(** ** C10: the order of the records *)

(** C10: every step of the application, whatever event it handles, keeps
    the records it does not delete in their order.  Following a record
    through the step ([follow]): (1) it is found at its new position with the
    same id, name and preview, and unchanged unless the step rewrites the
    records with its id; (2) two records that stay keep their relative
    order; (3) positions do not move unless the step is a removal, and a
    record is lost only to a removal of its own id; (4) a removal leaves
    exactly the records with another id, an intake adds one record at the
    end, every other step (streaming, terminal and error updates included)
    leaves the number of records as it is. *)
Theorem store_order_preserved s e s' :
  step s e = Some s' →
  (∀ k r k',
      processedImages s !! k = Some r → follow s e k = Some k' →
      ∃ r', processedImages s' !! k' = Some r' ∧
            id r' = id r ∧ name r' = name r ∧ imageUrl r' = imageUrl r ∧
            (target_id s e ≠ Some (id r) → r' = r)) ∧
  (∀ k1 k2 k1' k2',
      k1 < k2 → k2 < length (processedImages s) →
      follow s e k1 = Some k1' → follow s e k2 = Some k2' → k1' < k2') ∧
  (∀ k r,
      processedImages s !! k = Some r →
      match follow s e k with
      | Some k' => removed_id s e = None → k' = k
      | None => removed_id s e = Some (id r)
      end) ∧
  match removed_id s e, intake_draw s e with
  | Some i, _ =>
      processedImages s' = removeById i (processedImages s) ∧
      (∀ r, r ∈ processedImages s' ↔ r ∈ processedImages s ∧ id r ≠ i)
  | None, Some d =>
      length (processedImages s') = S (length (processedImages s)) ∧
      ∃ r, processedImages s' !! length (processedImages s) = Some r ∧
           id r = substring_from 7 (random36 d) ∧ imageUrl r = objectUrl d
  | None, None =>
      length (processedImages s') = length (processedImages s)
  end.
Proof.
  intros Hstep. split_and!.
  - intros k r k' Hk Hf.
    destruct (step_follow _ _ _ _ _ _ Hstep Hk Hf)
      as (r' & ? & ? & ? & ? & _ & ?).
    exists r'. by split_and!.
  - intros k1 k2 k1' k2'. apply follow_monotone.
  - intros k r Hk. destruct (follow s e k) as [k'|] eqn:Hf.
    + intros Hrem. rewrite follow_unremoved in Hf by done. congruence.
    + by eapply follow_lost.
  - destruct (step_store_change _ _ _ Hstep)
      as [f Hrem Hdraw Hkeep Hmiss Hst
         |d file f Hrem Hdraw Hfile Hkeep Hmiss Hst
         |i Hrem Hdraw Hst]; rewrite Hrem, ?Hdraw.
    + by rewrite Hst, length_fmap.
    + rewrite Hst, length_fmap, length_app. simpl. split; [lia|].
      exists (f (newImage file d)).
      rewrite list_lookup_fmap, list_lookup_middle by done. simpl.
      destruct (Hkeep (newImage file d)) as (-> & _ & -> & _). done.
    + split; [done|]. intros r. rewrite Hst. apply removeById_elem.
Qed.

Lemma store_order_preserved_witness :
  ∃ r,
    processedImages
      (state_after (two_files_trace ++ [User (ClickRemove 0)])) !! 0
    = Some r ∧ name r = "menu.jpg".
Proof.
  destruct (store_order_preserved
              (state_after two_files_trace) (User (ClickRemove 0))
              (state_after (two_files_trace ++ [User (ClickRemove 0)]))
              ltac:(vm_compute; reflexivity))
    as (Hkeep & _).
  destruct (Hkeep 1 _ 0 ltac:(vm_compute; reflexivity)
              ltac:(vm_compute; reflexivity))
    as (r & Hr & _ & Hname & _).
  exists r. split; [exact Hr|exact Hname].
Defined.

(** * Further properties of the component *)

(** ** The text of a file while it streams and when the stream ends *)

(** While a batch works on a file, and the ids drawn were new to the store
    when drawn, the store holds exactly one record with the id of that file;
    it is processing, has no error, and its text is the concatenation of the
    chunks read so far; its card shows that text, with "Show More" when the
    text has more than 100 UTF-16 code units. *)
Theorem streaming_record_shows_chunks evs s t task i :
  run init evs = Some s → all_fresh init evs = true →
  tasks s !! t = Some task → active_id (phase task) = Some i →
  ∃ k r,
    processedImages s !! k = Some r ∧ id r = i ∧
    isProcessing r = true ∧ error r = None ∧
    text r = streamed (history t s) ∧
    card_body r = TextPreview (streamed (history t s))
                    (100 <? utf16_length (streamed (history t s))) ∧
    (∀ k' r', processedImages s !! k' = Some r' → id r' = i → k' = k).
Proof.
  intros Hrun Hfresh Ht Hi.
  assert (FreshInv s) as Hinv
      by (eapply FreshInv_run; eauto using FreshInv_init).
  pose proof (LogInv_reachable _ _ Hrun) as Hlog.
  destruct (fi_owner _ Hinv _ _ _ Ht Hi) as (r & Hr & Hid & Hp & Htx & Her).
  apply list_elem_of_lookup_1 in Hr as [k Hk].
  assert (text r = streamed (history t s)) as Hst.
  { rewrite Htx. symmetry. apply streamed_phase_text; try done. congruence. }
  exists k, r. split_and!; try done.
  - unfold card_body. rewrite Her. simpl. by rewrite Hst.
  - intros k' r' Hk' Hid'.
    assert (r' = r) as ->.
    { eapply ids_NoDup_inj; eauto using fi_nodup, list_elem_of_lookup_2.
      congruence. }
    eapply NoDup_lookup; [apply (fi_nodup _ Hinv)| |];
      unfold ids; rewrite list_lookup_fmap; [rewrite Hk'|rewrite Hk]; done.
Qed.

Lemma streaming_record_shows_chunks_witness :
  ∃ r,
    processedImages (state_after (firstn 5 two_files_trace)) !! 0 = Some r ∧
    text r = "# Receipt total 12".
Proof.
  destruct (streaming_record_shows_chunks
              (firstn 5 two_files_trace)
              (state_after (firstn 5 two_files_trace)) 0 _ "82mvyr"
              ltac:(vm_compute; reflexivity) ltac:(vm_compute; reflexivity)
              ltac:(vm_compute; reflexivity) ltac:(vm_compute; reflexivity))
    as (k & r & Hk & Hid & _ & _ & Htx & _ & Huniq).
  assert (0 = k) as <-.
  { eapply Huniq; [vm_compute; reflexivity|reflexivity]. }
  exists r. split; [exact Hk|]. rewrite Htx. vm_compute. reflexivity.
Defined.

(** When the stream of a file ends, and the ids drawn were new to the store
    when drawn, the record of the file leaves the processing state with
    exactly the chunks read as its text and with no error; its card shows
    that text, with "Show More" when the text has more than 100 UTF-16 code
    units, and the batch starts its delay of one second. *)
Theorem stream_end_completes evs s t s' :
  run init evs = Some s → all_fresh init evs = true →
  step s (Proc t StreamEnd) = Some s' →
  ∃ k r task',
    processedImages s !! k = Some r ∧
    processedImages s' !! k = Some (withDone r) ∧
    text (withDone r) = streamed (history t s) ∧
    isProcessing (withDone r) = false ∧ error (withDone r) = None ∧
    card_body (withDone r) =
      TextPreview (streamed (history t s))
        (100 <? utf16_length (streamed (history t s))) ∧
    tasks s' !! t = Some task' ∧
    phase task' = Delaying (now s + DELAY_MS)%N ∧
    length (processedImages s') = length (processedImages s).
Proof.
  intros Hrun Hfresh Hstep.
  assert (FreshInv s) as Hinv
      by (eapply FreshInv_run; eauto using FreshInv_init).
  pose proof (LogInv_reachable _ _ Hrun) as Hlog.
  apply step_Proc_inv in Hstep as (task & s1 & task' & Ht & Hp & ->).
  assert (t < length (tasks s)) as Hlt by by eapply lookup_lt_Some.
  proc_cases Hp.
  assert (active_id (phase task) = Some imageId) as Hi by by rewrite Heqp.
  destruct (fi_owner _ Hinv _ _ _ Ht Hi) as (r & Hr & Hid & Hpr & Htx & Her).
  apply list_elem_of_lookup_1 in Hr as [k Hk].
  assert (text r = streamed (history t s)) as Hst.
  { rewrite Htx. symmetry. apply streamed_phase_text; try done. congruence. }
  exists k, r. eexists. simpl. split_and!; try done.
  - by apply mapImage_target.
  - unfold card_body. simpl. rewrite Her. simpl. by rewrite Hst.
  - by apply list_lookup_insert_eq.
  - done.
  - apply mapImage_length.
Qed.

Lemma stream_end_completes_witness :
  ∃ r,
    processedImages (state_after (firstn 6 two_files_trace)) !! 0 = Some r ∧
    text r = "# Receipt total 12" ∧ isProcessing r = false.
Proof.
  destruct (stream_end_completes
              (firstn 5 two_files_trace)
              (state_after (firstn 5 two_files_trace)) 0
              (state_after (firstn 6 two_files_trace))
              ltac:(vm_compute; reflexivity) ltac:(vm_compute; reflexivity)
              ltac:(vm_compute; reflexivity))
    as (k & r & task' & Hk & Hk' & Htx & Hp & _).
  eexists. split; [vm_compute; reflexivity|]. by split.
Defined.

(** ** The text of a record only grows *)

Lemma append_nil_r (a : string) : a +:+ "" = a.
Proof. induction a as [|c a IH]; [done|]. exact (f_equal (String c) IH). Qed.

Lemma append_assoc (a b c : string) : (a +:+ b) +:+ c = a +:+ (b +:+ c).
Proof. induction a as [|x a IH]; [done|]. exact (f_equal (String x) IH). Qed.

Lemma text_mapImage i f prev k r :
  prev !! k = Some r →
  (∀ img, id (f img) = id img) →
  (id r = i → ∃ suffix, text (f r) = text r +:+ suffix) →
  ∃ r' suffix,
    mapImage i f prev !! k = Some r' ∧ id r' = id r ∧
    text r' = text r +:+ suffix.
Proof.
  intros Hk Hid Htx. destruct (decide (id r = i)) as [He|Hne].
  - destruct (Htx He) as [suffix Hs].
    exists (f r), suffix. split_and!; [by apply mapImage_target|done|done].
  - exists r, "". split_and!; [by apply mapImage_other|done|].
    by rewrite append_nil_r.
Qed.

(** With distinct ids, a step leaves the text of a record as it is or
    appends to it. *)
Lemma step_text s e s' k k' r :
  FreshInv s → fresh_event s e = true → step s e = Some s' →
  processedImages s !! k = Some r → follow s e k = Some k' →
  ∃ r' suffix,
    processedImages s' !! k' = Some r' ∧ id r' = id r ∧
    text r' = text r +:+ suffix.
Proof.
  intros Hinv Hfresh Hstep Hk Hf.
  assert (∀ t task i,
            tasks s !! t = Some task → active_id (phase task) = Some i →
            id r = i → text r = phase_text (phase task)) as Howner.
  { intros t task i Ht Hi He.
    destruct (fi_owner _ Hinv _ _ _ Ht Hi) as (r0 & Hr0 & Hid0 & _ & Htx & _).
    assert (r0 = r) as ->; [|done].
    eapply ids_NoDup_inj; eauto using fi_nodup, list_elem_of_lookup_2.
    congruence. }
  assert (target_id s e ≠ Some (id r) →
          ∃ r' suffix, processedImages s' !! k' = Some r' ∧ id r' = id r ∧
                       text r' = text r +:+ suffix) as Hmiss.
  { intros Hne.
    destruct (step_follow _ _ _ _ _ _ Hstep Hk Hf)
      as (r' & Hk' & _ & _ & _ & _ & Hsame).
    rewrite (Hsame Hne) in Hk'. exists r, "".
    split_and!; [done|done|by rewrite append_nil_r]. }
  destruct e as [dt|files d|t pe|ue]; [by apply Hmiss| |
                                        |by apply Hmiss].
  - apply Hmiss. unfold target_id.
    destruct files as [|file rest]; [done|].
    rewrite intake_draw_drop. destruct (setupError d); [|done].
    apply fresh_event_drop in Hfresh. intros [= He]. apply Hfresh.
    rewrite He. unfold ids.
    by eapply list_elem_of_fmap_2, list_elem_of_lookup_2.
  - rewrite follow_unremoved in Hf by done. simplify_eq.
    pose proof Hstep as Hstep'.
    apply step_Proc_inv in Hstep as (task & s1 & task' & Ht & Hp & ->).
    proc_cases Hp; simpl;
      try (apply text_mapImage; [done|done|];
           intros He; exists ""; by rewrite append_nil_r).
    + exists r, "". by rewrite append_nil_r.
    + exists r, "". by rewrite append_nil_r.
    + apply text_mapImage; [done|done|]. intros He. exists chunkText.
      simpl. f_equal.
      rewrite (Howner t task imageId Ht); [by rewrite Heqp|by rewrite Heqp|done].
    + apply Hmiss. unfold target_id.
      rewrite (intake_draw_timer _ _ _ _ _ _ Ht Heqp H Heqo), Heqo0.
      eapply fresh_event_timer in Hfresh; eauto.
      intros [= He]. apply Hfresh. rewrite He. unfold ids.
      by eapply list_elem_of_fmap_2, list_elem_of_lookup_2.
    + apply Hmiss. unfold target_id.
      by rewrite (intake_draw_timer _ _ _ _ _ _ Ht Heqp H Heqo), Heqo0.
    + exists r, "". by rewrite append_nil_r.
Qed.

Lemma run_text evs : ∀ s s' k k' r,
  FreshInv s → all_fresh s evs = true →
  run s evs = Some s' → follow_run s evs k = Some k' →
  processedImages s !! k = Some r →
  ∃ r' suffix,
    processedImages s' !! k' = Some r' ∧ id r' = id r ∧
    text r' = text r +:+ suffix.
Proof.
  induction evs as [|e evs IH]; intros s s' k k' r Hinv; simpl.
  - intros _ [= <-] [= <-] Hk. exists r, "". by rewrite append_nil_r.
  - intros [Hfresh Hall]%andb_prop.
    destruct (follow s e k) as [k1|] eqn:Hf; simpl; [|by intros _ ?].
    destruct (step s e) as [s1|] eqn:He; simpl; [|done].
    intros Hrun Hfr Hk.
    destruct (step_text _ _ _ _ _ _ Hinv Hfresh He Hk Hf)
      as (r1 & suffix1 & Hk1 & Hid1 & Htx1).
    destruct (IH s1 s' k1 k' r1) as (r' & suffix & Hk' & Hid' & Htx');
      try done; [by eapply FreshInv_step|].
    exists r', (suffix1 +:+ suffix).
    split_and!; [done|congruence|].
    by rewrite Htx', Htx1, append_assoc.
Qed.

(** Take any record of a reachable state and follow it through any
    sequence of events that does not remove it.  Provided every id drawn,
    before and after, is new to the store when drawn, the text of the record
    at the end is its text at the start with something appended: text is
    never lost or rewritten, it only grows. *)
Theorem text_only_grows evs0 s evs s' k k' r :
  run init evs0 = Some s → all_fresh init evs0 = true →
  run s evs = Some s' → all_fresh s evs = true →
  follow_run s evs k = Some k' →
  processedImages s !! k = Some r →
  ∃ r' suffix,
    processedImages s' !! k' = Some r' ∧ id r' = id r ∧
    text r' = text r +:+ suffix.
Proof.
  intros Hrun0 Hfresh0 Hrun Hfresh Hfollow Hk.
  eapply run_text; eauto.
  eapply FreshInv_run; eauto using FreshInv_init.
Qed.

Lemma text_only_grows_witness :
  ∃ r' suffix,
    processedImages (state_after (firstn 6 two_files_trace)) !! 0 = Some r' ∧
    text r' = "# Receipt" +:+ suffix.
Proof.
  destruct (text_only_grows
              (firstn 4 two_files_trace)
              (state_after (firstn 4 two_files_trace))
              [Proc 0 (Chunk " total 12"); Proc 0 StreamEnd]
              (state_after (firstn 6 two_files_trace)) 0 0 _
              ltac:(vm_compute; reflexivity) ltac:(vm_compute; reflexivity)
              ltac:(vm_compute; reflexivity) ltac:(vm_compute; reflexivity)
              ltac:(vm_compute; reflexivity) ltac:(vm_compute; reflexivity))
    as (r' & suffix & Hk' & _ & Htx).
  exists r', suffix. split; [exact Hk'|exact Htx].
Defined.

(** ** Error, processing flag and the batch at work *)

Record FlagInv (s : State) : Prop := {
  fl_store : Forall error_is_terminal (processedImages s);
  fl_selected : ∀ r, selectedImage s = Some r → error_is_terminal r
}.

Lemma FlagInv_init : FlagInv init.
Proof. split; simpl; [constructor|done]. Qed.

Lemma terminal_mapImage i f prev :
  (∀ r, error_is_terminal r → error_is_terminal (f r)) →
  Forall error_is_terminal prev → Forall error_is_terminal (mapImage i f prev).
Proof.
  intros Hf Hall. unfold mapImage. apply Forall_fmap.
  eapply Forall_impl; [exact Hall|]. intros r Hr. simpl.
  destruct (String.eqb (id r) i); auto.
Qed.

Lemma terminal_removeById i prev :
  Forall error_is_terminal prev → Forall error_is_terminal (removeById i prev).
Proof.
  intros Hall. apply Forall_forall. intros r [Hr _]%removeById_elem.
  rewrite Forall_forall in Hall. auto.
Qed.

Ltac terminal_store :=
  simpl; unfold appendImage;
  repeat first
    [ assumption
    | apply terminal_mapImage;
      [intros ? ?; unfold error_is_terminal in *; simpl; auto|]
    | apply terminal_removeById
    | apply Forall_app_2
    | apply Forall_cons_2; [unfold error_is_terminal; simpl; done|]
    | apply Forall_nil_2 ].

Lemma FlagInv_step s e s' : FlagInv s → step s e = Some s' → FlagInv s'.
Proof.
  intros [Hst Hsel] H. destruct e as [dt|files d|t pe|ue].
  - simpl in H. simplify_eq. by split.
  - simpl in H. simplify_eq. unfold onDrop, processImage, settle.
    destruct files as [|file rest]; [|destruct (setupError d) eqn:Hd];
      split; try done; terminal_store.
  - apply step_Proc_inv in H as (task & s1 & task' & Ht & Hp & ->).
    proc_cases Hp; split; try done; terminal_store.
  - simpl in H. user_cases H; try (split; [done|]; simpl).
    + intros r [= <-]. rewrite Forall_forall in Hst.
      eapply Hst, list_elem_of_lookup_2; eauto.
    + intros r [= <-]. rewrite Forall_forall in Hst.
      eapply Hst, list_elem_of_lookup_2; eauto.
    + done.
    + done.
    + done.
    + unfold removeImage. repeat case_match; split; simpl;
        try done; try (intros r Hr; apply Hsel; congruence); terminal_store.
Qed.

Lemma FlagInv_run evs s s' : FlagInv s → run s evs = Some s' → FlagInv s'.
Proof.
  revert s. induction evs as [|e evs IH]; intros s Hinv; simpl.
  - by intros [= <-].
  - destruct (step s e) as [s1|] eqn:He; simpl; [|done].
    apply IH. by eapply FlagInv_step.
Qed.

(** In every reachable state, whatever ids were drawn, a record whose
    error is set is not processing: the card never shows an error message
    together with the spinner.  The same holds for the record held by the
    detail pane. *)
Theorem error_means_not_processing evs s r :
  run init evs = Some s →
  r ∈ processedImages s ∨ selectedImage s = Some r →
  error r ≠ None → isProcessing r = false.
Proof.
  intros Hrun Hr.
  destruct (FlagInv_run _ _ _ FlagInv_init Hrun) as [Hst Hsel].
  destruct Hr as [Hr|Hr]; [|by apply Hsel].
  rewrite Forall_forall in Hst. by apply Hst.
Qed.

Lemma error_means_not_processing_witness :
  ∃ r,
    processedImages (state_after two_files_trace) !! 1 = Some r ∧
    error r = Some "Failed to process image" ∧ isProcessing r = false.
Proof.
  eexists. split; [vm_compute; reflexivity|]. split; [reflexivity|].
  eapply (error_means_not_processing two_files_trace
            (state_after two_files_trace));
    [vm_compute; reflexivity
    |left; apply (list_elem_of_lookup_2 _ 1); vm_compute; reflexivity
    |discriminate].
Defined.

(** *** Every spinner has a batch at work *)

Definition OwnerInv (s : State) : Prop :=
  ∀ r, r ∈ processedImages s → isProcessing r = true → has_owner s r.

Lemma OwnerInv_same s s' :
  processedImages s' = processedImages s → tasks s' = tasks s →
  OwnerInv s → OwnerInv s'.
Proof. intros Hst Hts H. unfold OwnerInv, has_owner. by rewrite Hst, Hts. Qed.

Lemma OwnerInv_update s s' t task task' i f :
  OwnerInv s → tasks s !! t = Some task →
  active_id (phase task) = Some i →
  processedImages s' = mapImage i f (processedImages s) →
  (∀ img, id (f img) = id img) →
  tasks s' = <[t := task']> (tasks s) →
  (∀ img, isProcessing (f img) = true → active_id (phase task') = Some i) →
  OwnerInv s'.
Proof.
  intros Hinv Ht Hi Hst Hf Hts Hpost r' Hr' Hp.
  assert (t < length (tasks s)) as Hlt by by eapply lookup_lt_Some.
  rewrite Hst in Hr'. unfold mapImage in Hr'.
  apply list_elem_of_fmap_1 in Hr' as (r & -> & Hr).
  destruct (String.eqb_spec (id r) i) as [He|Hne].
  - exists t, task'. rewrite Hts, Hf, He.
    split; [by apply list_lookup_insert_eq|by eapply Hpost].
  - destruct (Hinv r Hr Hp) as (u & task_u & Hu & Hact).
    exists u, task_u. split; [|done]. rewrite Hts.
    rewrite list_lookup_insert_ne; [done|]. intros ->. congruence.
Qed.

Lemma OwnerInv_phase s s' t task task' :
  OwnerInv s → tasks s !! t = Some task →
  processedImages s' = processedImages s →
  tasks s' = <[t := task']> (tasks s) →
  (active_id (phase task') = active_id (phase task) ∨
   active_id (phase task) = None) →
  OwnerInv s'.
Proof.
  intros Hinv Ht Hst Hts Hact r Hr Hp. rewrite Hst in Hr.
  assert (t < length (tasks s)) as Hlt by by eapply lookup_lt_Some.
  destruct (Hinv r Hr Hp) as (u & task_u & Hu & Hactu).
  destruct (decide (u = t)) as [->|Hne].
  - exists t, task'. rewrite Hts. split; [by apply list_lookup_insert_eq|].
    destruct Hact as [-> | Hnone]; congruence.
  - exists u, task_u. rewrite Hts.
    by rewrite list_lookup_insert_ne.
Qed.

(** A call of [processImage] by batch [t], which was between two files or
    has just been dropped. *)
Lemma OwnerInv_intake s s' t task' file d :
  OwnerInv s →
  (tasks s' = <[t := task']> (tasks s) ∧
   (∃ task, tasks s !! t = Some task ∧ active_id (phase task) = None)) ∨
  (tasks s' = tasks s ++ [task'] ∧ t = length (tasks s)) →
  (processedImages s' = processedImages s ++ [newImage file d] ∧
   phase task' = Reading (id (newImage file d)) file) ∨
  (∃ msg, processedImages s' =
          mapImage (id (newImage file d)) (withError msg)
            (processedImages s ++ [newImage file d])) →
  OwnerInv s'.
Proof.
  intros Hinv Hts Hst.
  assert (∀ r, has_owner s r → has_owner s' r) as Hkeep.
  { intros r (u & task_u & Hu & Hact).
    destruct Hts as [[Hts (task & Ht & Hnone)]|[Hts ->]].
    - exists u, task_u. rewrite Hts. split; [|done].
      rewrite list_lookup_insert_ne; [done|]. intros ->. congruence.
    - exists u, task_u. rewrite Hts. split; [|done].
      by apply lookup_app_l_Some. }
  assert (tasks s' !! t = Some task') as Ht'.
  { destruct Hts as [[-> (task & Ht & _)]|[-> ->]].
    - apply list_lookup_insert_eq. by eapply lookup_lt_Some.
    - by apply list_lookup_middle. }
  intros r Hr Hp.
  destruct Hst as [[Hst Hph]|[msg Hst]]; rewrite Hst in Hr.
  - apply elem_of_app in Hr as [Hr|Hr]; [by apply Hkeep, Hinv|].
    apply list_elem_of_singleton in Hr as ->.
    exists t, task'. split; [done|]. by rewrite Hph.
  - unfold mapImage in Hr.
    apply list_elem_of_fmap_1 in Hr as (r0 & -> & Hr0).
    destruct (String.eqb (id r0) (id (newImage file d))) eqn:He; [done|].
    apply elem_of_app in Hr0 as [Hr0|Hr0]; [by apply Hkeep, Hinv|].
    apply list_elem_of_singleton in Hr0 as ->.
    by rewrite String.eqb_refl in He.
Qed.

Lemma OwnerInv_step s e s' : OwnerInv s → step s e = Some s' → OwnerInv s'.
Proof.
  intros Hinv H. destruct e as [dt|files d|t pe|ue].
  - simpl in H. simplify_eq. by apply (OwnerInv_same s).
  - simpl in H. simplify_eq. unfold onDrop, processImage, settle.
    destruct files as [|file rest]; [|destruct (setupError d) eqn:Hd].
    + intros r Hr Hp. destruct (Hinv r Hr Hp) as (u & task_u & Hu & Hact).
      exists u, task_u. split; [|done]. simpl. by apply lookup_app_l_Some.
    + eapply (OwnerInv_intake s _ (length (tasks s)) _ file d);
        [done|right; by simpl|right; by eexists].
    + eapply (OwnerInv_intake s _ (length (tasks s)) _ file d);
        [done|right; by simpl|left; by simpl].
  - apply step_Proc_inv in H as (task & s1 & task' & Ht & Hp & ->).
    proc_cases Hp.
    + eapply (OwnerInv_phase _ _ t task); eauto. left. by rewrite Heqp.
    + eapply (OwnerInv_update _ _ t task _ imageId (withError _));
        eauto; try done; by rewrite Heqp.
    + eapply (OwnerInv_phase _ _ t task); eauto. left. by rewrite Heqp.
    + eapply (OwnerInv_update _ _ t task _ imageId (withError _));
        eauto; try done; by rewrite Heqp.
    + eapply (OwnerInv_update _ _ t task _ imageId (withText _));
        eauto; try done; by rewrite Heqp.
    + eapply (OwnerInv_update _ _ t task _ imageId (withError _));
        eauto; try done; by rewrite Heqp.
    + eapply (OwnerInv_update _ _ t task _ imageId withDone);
        eauto; try done; by rewrite Heqp.
    + eapply (OwnerInv_intake s _ t _ f d);
        [done|left; split; [done|exists task; by rewrite Heqp]
        |right; by eexists].
    + eapply (OwnerInv_intake s _ t _ f d);
        [done|left; split; [done|exists task; by rewrite Heqp]
        |left; by simpl].
    + eapply (OwnerInv_phase _ _ t task); eauto. right. by rewrite Heqp.
  - simpl in H. user_cases H; try by apply (OwnerInv_same s).
    intros r Hr Hpr.
    assert (r ∈ processedImages s) as Hr'.
    { unfold removeImage in Hr.
      repeat case_match; simpl in Hr; by apply removeById_elem in Hr as [? _]. }
    destruct (Hinv r Hr' Hpr) as (u & task_u & Hu & Hact).
    exists u, task_u. split; [|done].
    unfold removeImage. by repeat case_match.
Qed.

Lemma OwnerInv_run evs s s' : OwnerInv s → run s evs = Some s' → OwnerInv s'.
Proof.
  revert s. induction evs as [|e evs IH]; intros s Hinv; simpl.
  - by intros [= <-].
  - destruct (step s e) as [s1|] eqn:He; simpl; [|done].
    apply IH. by eapply OwnerInv_step.
Qed.

(** In every reachable state, whatever ids were drawn, a record that is
    processing has a batch at work on its id: the batch is reading the file,
    waiting for the stream or reading chunks.  No record is left with a
    spinner once its batch has moved on. *)
Theorem spinner_has_batch_at_work evs s r :
  run init evs = Some s →
  r ∈ processedImages s → isProcessing r = true →
  ∃ t task,
    tasks s !! t = Some task ∧ active_id (phase task) = Some (id r) ∧
    phase task ≠ Done ∧ ∀ deadline, phase task ≠ Delaying deadline.
Proof.
  intros Hrun Hr Hp.
  assert (OwnerInv s) as Hinv.
  { eapply OwnerInv_run; [|exact Hrun].
    intros r0 Hr0. by apply elem_of_nil in Hr0. }
  destruct (Hinv r Hr Hp) as (t & task & Ht & Hact).
  exists t, task. split_and!; try done.
  - intros Hd. by rewrite Hd in Hact.
  - intros deadline Hd. by rewrite Hd in Hact.
Qed.

Lemma spinner_has_batch_at_work_witness :
  ∃ t task,
    tasks (state_after (firstn 4 two_files_trace)) !! t = Some task ∧
    active_id (phase task) = Some "82mvyr".
Proof.
  destruct (spinner_has_batch_at_work (firstn 4 two_files_trace)
              (state_after (firstn 4 two_files_trace))
              {| id := "82mvyr"; name := "receipt.png"; text := "# Receipt";
                 isProcessing := true; error := None; imageUrl := "blob:a" |}
              ltac:(vm_compute; reflexivity)
              ltac:(by left) eq_refl)
    as (t & task & Ht & Hact & _).
  by exists t, task.
Defined.

(** ** The record held by the detail pane *)

(** The selection after a step is the selection before it, unless its id
    was removed, or a record of the store that has just been clicked. *)
Lemma step_selected s e s' sel :
  step s e = Some s' → selectedImage s' = Some sel →
  (selectedImage s = Some sel ∧ removed_id s e ≠ Some (id sel)) ∨
  (∃ k, processedImages s !! k = Some sel ∧
        processedImages s' = processedImages s).
Proof.
  intros H Hsel. destruct e as [dt|files d|t pe|ue].
  - simpl in H. simplify_eq. by left.
  - simpl in H. simplify_eq. left. split; [|done].
    unfold onDrop, processImage, settle in Hsel.
    destruct files; [done|]. by destruct (setupError d).
  - left. split; [|done].
    apply step_Proc_inv in H as (task & s1 & task' & Ht & Hp & ->).
    proc_cases Hp; done.
  - simpl in H. user_cases H; simpl in Hsel; simplify_eq;
      try (by left); try (right; by eexists).
    left. unfold removeImage in Hsel. simpl. rewrite Heqo. simpl.
    destruct (selectedImage s) as [sel0|] eqn:Hs0;
      [|simpl in Hsel; congruence].
    destruct (String.eqb_spec (id sel0) (id p)) as [He|Hne];
      simpl in Hsel; [done|].
    assert (sel0 = sel) as -> by congruence. split; [done|]. congruence.
Qed.

Lemma selection_follows (R : ProcessedImage → ProcessedImage → Prop) s e s' :
  (∀ sel, R sel sel) →
  (∀ sel r, R sel r → id r = id sel) →
  (∀ k k' r, processedImages s !! k = Some r → follow s e k = Some k' →
             ∃ r', processedImages s' !! k' = Some r' ∧
                   ∀ sel, R sel r → R sel r') →
  step s e = Some s' →
  (∀ sel, selectedImage s = Some sel →
          ∃ k r, processedImages s !! k = Some r ∧ R sel r) →
  (∀ sel, selectedImage s' = Some sel →
          ∃ k r, processedImages s' !! k = Some r ∧ R sel r).
Proof.
  intros Hrefl Hid Hfollow Hstep Hinv sel Hsel.
  destruct (step_selected _ _ _ _ Hstep Hsel) as [[Hold Hrem]|[k [Hk Hst]]].
  - destruct (Hinv sel Hold) as (k & r & Hk & HR).
    destruct (follow s e k) as [k'|] eqn:Hf.
    + destruct (Hfollow _ _ _ Hk Hf) as (r' & Hk' & Hkeep).
      exists k', r'. split; [done|]. by apply Hkeep.
    + apply (follow_lost _ _ _ _ Hk) in Hf.
      rewrite (Hid _ _ HR) in Hf. done.
  - exists k, sel. rewrite Hst. by split.
Qed.

(** *** The pane shows a record that is still in the store *)

Lemma selection_present_run evs : ∀ s s',
  run s evs = Some s' →
  (∀ sel, selectedImage s = Some sel →
          ∃ k r, processedImages s !! k = Some r ∧ same_record sel r) →
  (∀ sel, selectedImage s' = Some sel →
          ∃ k r, processedImages s' !! k = Some r ∧ same_record sel r).
Proof.
  induction evs as [|e evs IH]; intros s s'; simpl.
  - by intros [= <-].
  - destruct (step s e) as [s1|] eqn:He; simpl; [|done].
    intros Hrun Hinv. apply (IH s1); [done|].
    apply (selection_follows same_record s e s1); try done.
    + by intros sel r (? & _).
    + intros k k' r Hk Hf.
      destruct (step_follow _ _ _ _ _ _ He Hk Hf)
        as (r' & Hk' & Hid & Hname & Hurl & _).
      exists r'. split; [done|]. intros sel (? & ? & ?).
      split_and!; congruence.
Qed.

Lemma selection_older_run evs : ∀ s s',
  FreshInv s → all_fresh s evs = true → run s evs = Some s' →
  (∀ sel, selectedImage s = Some sel →
          ∃ k r, processedImages s !! k = Some r ∧ older_text sel r) →
  (∀ sel, selectedImage s' = Some sel →
          ∃ k r, processedImages s' !! k = Some r ∧ older_text sel r).
Proof.
  induction evs as [|e evs IH]; intros s s' Hfi; simpl.
  - by intros _ [= <-].
  - intros [Hfresh Hall]%andb_prop.
    destruct (step s e) as [s1|] eqn:He; simpl; [|done].
    intros Hrun Hinv. apply (IH s1); [by eapply FreshInv_step|done|done|].
    apply (selection_follows older_text s e s1); try done.
    + intros sel. split; [done|]. exists "". by rewrite append_nil_r.
    + by intros sel r [(? & _) _].
    + intros k k' r Hk Hf.
      destruct (step_follow _ _ _ _ _ _ He Hk Hf)
        as (r' & Hk' & Hid & Hname & Hurl & _).
      destruct (step_text _ _ _ _ _ _ Hfi Hfresh He Hk Hf)
        as (r'' & suffix & Hk'' & _ & Htx).
      assert (r'' = r') as -> by congruence.
      exists r'. split; [done|]. intros sel [(? & ? & ?) [suffix0 Htx0]].
      split; [split_and!; congruence|].
      exists (suffix0 +:+ suffix). by rewrite Htx, Htx0, append_assoc.
Qed.

(** In every reachable state the record held by the detail pane was
    copied from a record that is still in the store: a record with its id,
    name and preview is there.  When the ids drawn were new to the store
    when drawn, that record is the only one with the id, and the text in the
    pane is the beginning of the text of the record: the pane may lag
    behind the store, it never shows text the record does not start with. *)
Theorem detail_pane_record_in_store evs s sel :
  run init evs = Some s → selectedImage s = Some sel →
  (∃ k r, processedImages s !! k = Some r ∧ id r = id sel ∧
          name r = name sel ∧ imageUrl r = imageUrl sel) ∧
  (all_fresh init evs = true →
   ∃ k r suffix,
     processedImages s !! k = Some r ∧ id r = id sel ∧
     text r = text sel +:+ suffix ∧
     ∀ k' r', processedImages s !! k' = Some r' → id r' = id sel → k' = k).
Proof.
  intros Hrun Hsel. split.
  - destruct (selection_present_run evs init s Hrun ltac:(done) sel Hsel)
      as (k & r & Hk & Hid & Hname & Hurl).
    by exists k, r.
  - intros Hfresh.
    assert (FreshInv s) as Hinv
        by (eapply FreshInv_run; eauto using FreshInv_init).
    destruct (selection_older_run evs init s FreshInv_init Hfresh Hrun
                ltac:(done) sel Hsel)
      as (k & r & Hk & (Hid & _) & suffix & Htx).
    exists k, r, suffix. split_and!; try done.
    intros k' r' Hk' Hid'.
    apply (NoDup_lookup _ _ _ (id sel) (fi_nodup _ Hinv));
      unfold ids; rewrite list_lookup_fmap;
      [rewrite Hk'|rewrite Hk]; simpl; congruence.
Qed.

Lemma detail_pane_record_in_store_witness :
  ∃ r suffix,
    processedImages (state_after select_while_streaming) !! 0 = Some r ∧
    text r = "# Receipt" +:+ suffix.
Proof.
  destruct (detail_pane_record_in_store select_while_streaming
              (state_after select_while_streaming)
              {| id := "82mvyr"; name := "receipt.png"; text := "# Receipt";
                 isProcessing := true; error := None; imageUrl := "blob:a" |}
              ltac:(vm_compute; reflexivity) ltac:(vm_compute; reflexivity))
    as (_ & Hfresh).
  destruct (Hfresh ltac:(vm_compute; reflexivity))
    as (k & r & suffix & Hk & Hid & Htx & Huniq).
  assert (0 = k) as <-.
  { eapply Huniq; [vm_compute; reflexivity|reflexivity]. }
  by exists r, suffix.
Defined.

(** *** The highlight ring *)

(** Whenever the detail pane is open, the grid highlights a card: the card
    of a record with the id, name and preview of the record in the pane.
    When the ids drawn were new to the store when drawn, it highlights that
    card only. *)
Theorem one_card_highlighted evs s sel :
  run init evs = Some s → selectedImage s = Some sel →
  ∃ k r,
    processedImages s !! k = Some r ∧ highlighted s r = true ∧
    name r = name sel ∧
    (all_fresh init evs = true →
     ∀ k' r', processedImages s !! k' = Some r' →
              highlighted s r' = true → k' = k).
Proof.
  intros Hrun Hsel.
  destruct (selection_present_run evs init s Hrun ltac:(done) sel Hsel)
    as (k & r & Hk & Hid & Hname & Hurl).
  exists k, r. unfold highlighted. rewrite Hsel. split_and!; try done.
  - rewrite Hid. apply String.eqb_refl.
  - intros Hfresh k' r' Hk' Hhl.
    assert (FreshInv s) as Hinv
        by (eapply FreshInv_run; eauto using FreshInv_init).
    apply String.eqb_eq in Hhl.
    apply (NoDup_lookup _ _ _ (id sel) (fi_nodup _ Hinv));
      unfold ids; rewrite list_lookup_fmap;
      [rewrite Hk'|rewrite Hk]; simpl; congruence.
Qed.

Lemma one_card_highlighted_witness :
  ∃ r,
    processedImages (state_after select_while_streaming) !! 0 = Some r ∧
    highlighted (state_after select_while_streaming) r = true.
Proof.
  destruct (one_card_highlighted select_while_streaming
              (state_after select_while_streaming) _
              ltac:(vm_compute; reflexivity) ltac:(vm_compute; reflexivity))
    as (k & r & Hk & Hhl & _ & Huniq).
  assert (0 = k) as <-.
  { eapply (Huniq ltac:(vm_compute; reflexivity));
      vm_compute; reflexivity. }
  by exists r.
Defined.

(** ** The object URLs *)

(** No callback revokes an object URL: the list of live URLs only grows at
    its end. *)
Lemma step_urls s e s' :
  step s e = Some s' → objectURLs s `prefix_of` objectURLs s'.
Proof.
  intros H. destruct e as [dt|files d|t pe|ue].
  - simpl in H. by simplify_eq.
  - simpl in H. simplify_eq. unfold onDrop, processImage, settle.
    destruct files; [done|].
    destruct (setupError d); simpl; by apply prefix_app_r.
  - apply step_Proc_inv in H as (task & s1 & task' & Ht & Hp & ->).
    proc_cases Hp; simpl; try done; by apply prefix_app_r.
  - simpl in H. user_cases H; simpl; try done.
    + by apply prefix_app_r.
    + unfold removeImage. by repeat case_match.
Qed.

Lemma run_urls evs : ∀ s s',
  run s evs = Some s' → objectURLs s `prefix_of` objectURLs s'.
Proof.
  induction evs as [|e evs IH]; intros s s'; simpl.
  - by intros [= <-].
  - destruct (step s e) as [s1|] eqn:He; simpl; [|done].
    intros Hrun. etransitivity; [by eapply step_urls|by apply IH].
Qed.

Definition UrlInv (s : State) : Prop :=
  ∀ r, r ∈ processedImages s → imageUrl r ∈ objectURLs s.

Lemma UrlInv_step s e s' : UrlInv s → step s e = Some s' → UrlInv s'.
Proof.
  intros Hinv Hstep r' Hr'.
  pose proof (step_urls _ _ _ Hstep) as Hpre.
  assert (∀ r, r ∈ processedImages s → imageUrl r ∈ objectURLs s') as Hold.
  { intros r Hr. eapply elem_of_prefix; [|exact Hpre]. by apply Hinv. }
  destruct (step_store_change _ _ _ Hstep)
    as [f Hrem Hdraw Hkeep Hmiss Hst
       |d file f Hrem Hdraw Hfile Hkeep Hmiss Hst
       |i Hrem Hdraw Hst]; rewrite Hst in Hr'.
  - apply list_elem_of_fmap_1 in Hr' as (r & -> & Hr).
    destruct (Hkeep r) as (_ & _ & -> & _). by apply Hold.
  - apply list_elem_of_fmap_1 in Hr' as (r & -> & Hr).
    destruct (Hkeep r) as (_ & _ & -> & _).
    apply elem_of_app in Hr as [Hr|Hr]; [by apply Hold|].
    apply list_elem_of_singleton in Hr as ->. simpl.
    by eapply step_object_url.
  - apply removeById_elem in Hr' as [Hr _]. by apply Hold.
Qed.

Lemma UrlInv_run evs : ∀ s s', UrlInv s → run s evs = Some s' → UrlInv s'.
Proof.
  induction evs as [|e evs IH]; intros s s' Hinv; simpl.
  - by intros [= <-].
  - destruct (step s e) as [s1|] eqn:He; simpl; [|done].
    apply IH. by eapply UrlInv_step.
Qed.

(** The preview reference of a record is live from the moment the record is
    created, and stays live for the rest of the session: whatever happens
    after a reachable state -- the removal of the record included -- the
    object URL of each of its records, and of the record in the detail
    pane, is still among the live object URLs, and no URL that was live has
    been revoked. *)
Theorem preview_urls_stay_live evs0 s evs s' :
  run init evs0 = Some s → run s evs = Some s' →
  objectURLs s `prefix_of` objectURLs s' ∧
  (∀ r, r ∈ processedImages s ∨ r ∈ processedImages s' ∨
        selectedImage s' = Some r →
        imageUrl r ∈ objectURLs s').
Proof.
  intros Hrun0 Hrun.
  assert (UrlInv init) as Hinit by (intros r Hr; by apply elem_of_nil in Hr).
  pose proof (UrlInv_run _ _ _ Hinit Hrun0) as Hinv.
  pose proof (UrlInv_run _ _ _ Hinv Hrun) as Hinv'.
  pose proof (run_urls _ _ _ Hrun) as Hpre.
  split; [done|]. intros r [Hr|[Hr|Hsel]].
  - eapply elem_of_prefix; [|exact Hpre]. by apply Hinv.
  - by apply Hinv'.
  - assert (run init (evs0 ++ evs) = Some s') as Hrun'
        by (by rewrite run_app, Hrun0).
    destruct (selection_present_run _ init s' Hrun' ltac:(done) r Hsel)
      as (k & r0 & Hk & _ & _ & Hurl).
    rewrite <- Hurl. by eapply Hinv', list_elem_of_lookup_2.
Qed.

Lemma preview_urls_stay_live_witness :
  "blob:a" ∈ objectURLs (state_after (two_files_trace ++
                                       [User (ClickRemove 0)])).
Proof.
  destruct (preview_urls_stay_live two_files_trace
              (state_after two_files_trace) [User (ClickRemove 0)]
              (state_after (two_files_trace ++ [User (ClickRemove 0)]))
              ltac:(vm_compute; reflexivity) ltac:(vm_compute; reflexivity))
    as (_ & Hlive).
  apply (Hlive {| id := "82mvyr"; name := "receipt.png";
                  text := "# Receipt total 12"; isProcessing := false;
                  error := None; imageUrl := "blob:a" |}).
  left. by left.
Defined.

(** ** The strings the component cuts *)

Lemma split_first sep a b :
  (∀ c, c ∈ String.list_ascii_of_string a → c ≠ sep) →
  split sep (a +:+ String sep b) = a :: split sep b.
Proof.
  induction a as [|c a IH]; simpl; intros Hno.
  - by rewrite Ascii.eqb_refl.
  - destruct (Ascii.eqb_spec c sep) as [->|_].
    + destruct (Hno sep); [by left|done].
    + rewrite IH; [done|]. intros c' Hc'. apply Hno. by right.
Qed.

(** When the file has been read, the request is sent with the MIME type of
    the file and, as image data, the second piece of the data URL cut at
    its commas: the payload when the URL is a header, a comma and a payload
    without comma; the payload up to its first comma otherwise; nothing
    ([undefined]) when the URL has no comma, and the request is sent all the
    same.  The store is not touched. *)
Theorem request_carries_payload s t task i file result :
  tasks s !! t = Some task → phase task = Reading i file →
  ∃ s' sent,
    step s (Proc t (ReaderLoad result)) = Some s' ∧
    network s' = network s ++ [sent] ∧
    mimeType sent = file_type file ∧
    processedImages s' = processedImages s ∧
    (∀ header payload,
        result = header +:+ String "," payload →
        (∀ c, c ∈ String.list_ascii_of_string header → c ≠ ","%char) →
        data sent = head (split "," payload) ∧
        ((∀ c, c ∈ String.list_ascii_of_string payload → c ≠ ","%char) →
         data sent = Some payload)) ∧
    ((∀ c, c ∈ String.list_ascii_of_string result → c ≠ ","%char) →
     data sent = None).
Proof.
  intros Ht Hph. eexists _, _. split.
  { eapply step_Proc_eq; [exact Ht|]. unfold proc_step. by rewrite Hph. }
  simpl. split_and!; try done.
  - intros header payload -> Hheader.
    rewrite split_first by done. simpl. split.
    + by destruct (split_cons "," payload) as (p & ps & ->).
    + intros Hpayload. by rewrite split_no_sep.
  - intros Hno. by rewrite split_no_sep.
Qed.

Lemma request_carries_payload_witness :
  network (state_after (firstn 2 two_files_trace)) =
  [{| data := Some "iVBORw0KGgo="; mimeType := "image/png" |}].
Proof.
  destruct (request_carries_payload
              (state_after (firstn 1 two_files_trace)) 0 _ "82mvyr"
              receipt_png data_url
              ltac:(vm_compute; reflexivity) ltac:(vm_compute; reflexivity))
    as (s' & sent & Hstep & Hnet & Hmime & _ & Hdata & _).
  destruct (Hdata "data:image/png;base64" "iVBORw0KGgo=" eq_refl) as [_ Hpay].
  { intros c Hc. vm_compute in Hc.
    repeat (apply elem_of_cons in Hc as [->|Hc]; [discriminate|]).
    by apply elem_of_nil in Hc. }
  assert (state_after (firstn 2 two_files_trace) = s') as <-.
  { assert (step (state_after (firstn 1 two_files_trace))
              (Proc 0 (ReaderLoad data_url))
            = Some (state_after (firstn 2 two_files_trace))) as Hs
        by (vm_compute; reflexivity).
    congruence. }
  rewrite Hnet. change (network (state_after (firstn 1 two_files_trace)))
    with (@nil Request). simpl. f_equal.
  destruct sent as [dat mime]. simpl in *. rewrite Hmime, Hpay.
  - reflexivity.
  - intros c Hc. vm_compute in Hc.
    repeat (apply elem_of_cons in Hc as [->|Hc]; [discriminate|]).
    by apply elem_of_nil in Hc.
Defined.

(** The name of the downloaded file is the file name up to its first dot
    followed by "-extracted.txt": the whole name when it has no dot, the
    stem when it has exactly one (a name and an extension). *)
Theorem download_name_law a b :
  (∀ c, c ∈ String.list_ascii_of_string a → c ≠ "."%char) →
  download_name a = a +:+ "-extracted.txt" ∧
  download_name (a +:+ String "." b) = a +:+ "-extracted.txt" ∧
  ((∀ c, c ∈ String.list_ascii_of_string b → c ≠ "."%char) →
   stem (a +:+ String "." b) = a ∧
   download_name (a +:+ String "." b) =
     stem (a +:+ String "." b) +:+ "-extracted.txt").
Proof.
  intros Ha. split_and!.
  - unfold download_name. by rewrite split_no_sep.
  - by apply download_name_first_dot.
  - intros Hb.
    assert (stem (a +:+ String "." b) = a) as Hstem.
    { unfold stem. rewrite split_first by done.
      by rewrite (split_no_sep _ b). }
    split; [done|]. rewrite Hstem. by apply download_name_first_dot.
Qed.

Lemma download_name_law_witness :
  download_name "menu.jpg" = "menu-extracted.txt" ∧
  stem "menu.jpg" = "menu".
Proof.
  assert (∀ c, c ∈ String.list_ascii_of_string "menu" → c ≠ "."%char) as Ha.
  { intros c Hc. vm_compute in Hc.
    repeat (apply elem_of_cons in Hc as [->|Hc]; [discriminate|]).
    by apply elem_of_nil in Hc. }
  assert (∀ c, c ∈ String.list_ascii_of_string "jpg" → c ≠ "."%char) as Hb.
  { intros c Hc. vm_compute in Hc.
    repeat (apply elem_of_cons in Hc as [->|Hc]; [discriminate|]).
    by apply elem_of_nil in Hc. }
  destruct (download_name_law "menu" "jpg" Ha) as (_ & Hname & Hstem).
  destruct (Hstem Hb) as [Hs _]. split; [exact Hname|exact Hs].
Defined.

Lemma substring_from_tail n : ∀ s,
  ∃ head,
    s = head +:+ substring_from n s ∧
    String.length head = n `min` String.length s.
Proof.
  induction n as [|n IH]; intros s.
  - exists "". split; [by destruct s|done].
  - destruct s as [|c s]; [by exists ""|].
    destruct (IH s) as (head & Hs & Hlen).
    exists (String c head). split; [|by simpl; rewrite Hlen].
    change (substring_from (S n) (String c s)) with (substring_from n s).
    exact (f_equal (String c) Hs).
Qed.

Lemma length_append (a b : string) :
  String.length (a +:+ b) = String.length a + String.length b.
Proof. induction a as [|c a IH]; [done|]. simpl. by rewrite IH. Qed.

(** The id of a record is what is left of [Math.random().toString(36)]
    after its first seven characters: it has seven characters less than the
    string, and it is empty when the string has seven characters or
    fewer. *)
Theorem drawn_id_is_tail file d :
  ∃ head,
    random36 d = head +:+ id (newImage file d) ∧
    String.length head = 7 `min` String.length (random36 d) ∧
    String.length (id (newImage file d)) = String.length (random36 d) - 7 ∧
    (String.length (random36 d) ≤ 7 → id (newImage file d) = "").
Proof.
  destruct (substring_from_tail 7 (random36 d)) as (head & Hs & Hlen).
  exists head. change (id (newImage file d))
    with (substring_from 7 (random36 d)).
  assert (String.length (substring_from 7 (random36 d)) =
          String.length (random36 d) - 7) as Hl.
  { apply (f_equal String.length) in Hs.
    rewrite length_append, Hlen in Hs. lia. }
  split_and!; try done.
  intros Hle. destruct (substring_from 7 (random36 d)); [done|].
  simpl in Hl. lia.
Qed.

Lemma drawn_id_is_tail_witness : id (newImage receipt_png draw_half) = "".
Proof.
  destruct (drawn_id_is_tail receipt_png draw_half) as (head & _ & _ & _ & H).
  apply H. vm_compute. lia.
Defined.

(** ** Requests and console lines *)

Lemma count_entries_cons p e h :
  count_entries p (e :: h) = (if p e then 1 else 0) + count_entries p h.
Proof.
  unfold count_entries. destruct (p e) eqn:He.
  - by rewrite filter_cons_True.
  - rewrite filter_cons_False; [done|]. by rewrite He.
Qed.

Lemma count_entries_app p h1 h2 :
  count_entries p (h1 ++ h2) = count_entries p h1 + count_entries p h2.
Proof. unfold count_entries. by rewrite filter_app, length_app. Qed.

Lemma count_entries_reverse p h :
  count_entries p (reverse h) = count_entries p h.
Proof.
  induction h as [|e h IH]; [done|].
  rewrite reverse_cons, count_entries_app, IH, !count_entries_cons.
  unfold count_entries at 2. simpl. lia.
Qed.

Lemma intake_keys_length h :
  length (intake_keys h) = length (intake_files h).
Proof.
  induction h as [|e h IH]; [done|]. destruct e; simpl; by rewrite ?IH.
Qed.

(** One request at most for each file started, along an accepted
    history. *)
Lemma monitor_requests h : ∀ m m',
  monitor_run m h = Some m' →
  count_entries is_request h +
    (if m' is Busy _ false _ then 1 else 0) ≤
  length (intake_files h) + (if m is Busy _ false _ then 1 else 0).
Proof.
  induction h as [|e h IH]; intros m m'; simpl.
  - intros [= <-]. unfold count_entries. simpl. lia.
  - destruct (monitor_step m e) as [m1|] eqn:Hs; simpl; [|done].
    intros Hrun. specialize (IH _ _ Hrun). rewrite count_entries_cons.
    destruct m as [ready|j [] acc], e; simpl in Hs;
      try done; repeat case_match; simplify_eq; simpl in *; lia.
Qed.

Lemma readers_insert ts t old task' :
  ts !! t = Some old →
  readers (<[t := task']> ts) + (if reading old then 1 else 0) =
  readers ts + (if reading task' then 1 else 0).
Proof.
  intros Ht.
  replace (readers ts) with (readers (take t ts ++ old :: drop (S t) ts))
    by by rewrite take_drop_middle.
  unfold readers.
  rewrite insert_take_drop by by eapply lookup_lt_Some.
  rewrite !filter_app, !length_app.
  destruct (reading old) eqn:Ho, (reading task') eqn:Hn;
    rewrite ?(filter_cons_True _ old), ?(filter_cons_True _ task'),
      ?(filter_cons_False _ old), ?(filter_cons_False _ task')
      by (by rewrite ?Ho, ?Hn); simpl; lia.
Qed.

Lemma readers_snoc ts task' :
  readers (ts ++ [task']) = readers ts + (if reading task' then 1 else 0).
Proof.
  unfold readers. rewrite filter_app, length_app.
  destruct (reading task') eqn:Hn.
  - by rewrite filter_cons_True.
  - rewrite filter_cons_False; [done|]. by rewrite Hn.
Qed.

(** The requests sent are the request entries of the history; together
    with the files that are still being read they never outnumber the files
    started; the console has one line for each rejected promise. *)
Record CountInv (s : State) : Prop := {
  ci_network : length (network s) = count_entries is_request (log s);
  ci_started :
    length (network s) + readers (tasks s) ≤
    length (intake_keys (reverse (log s)));
  ci_console : length (console s) = count_entries is_rejection (log s)
}.

Lemma CountInv_init : CountInv init.
Proof. by split. Qed.

Ltac count_simpl :=
  simpl;
  rewrite ?intake_keys_cons, ?count_entries_cons, ?length_app,
    ?readers_snoc;
  simpl.

Lemma CountInv_step s e s' : CountInv s → step s e = Some s' → CountInv s'.
Proof.
  intros [H1 H2 H3] H. destruct e as [dt|files d|t pe|ue].
  - simpl in H. simplify_eq. by split.
  - simpl in H. simplify_eq. unfold onDrop, processImage, settle.
    destruct files as [|file rest]; [|destruct (setupError d) eqn:Hd];
      split; count_simpl; lia.
  - apply step_Proc_inv in H as (task & s1 & task' & Ht & Hp & ->).
    proc_cases Hp;
      (split; count_simpl; try lia;
       match goal with
       | |- context [readers (<[t := ?x]> _)] =>
           pose proof (readers_insert _ _ _ x Ht) as Hr;
           unfold reading in Hr; simpl in Hr; rewrite Heqp in Hr;
           simpl in Hr; lia
       end).
  - simpl in H. user_cases H; try by split.
    unfold removeImage. repeat case_match; by split.
Qed.

Lemma CountInv_run evs s s' : CountInv s → run s evs = Some s' → CountInv s'.
Proof.
  revert s. induction evs as [|e evs IH]; intros s Hinv; simpl.
  - by intros [= <-].
  - destruct (step s e) as [s1|] eqn:He; simpl; [|done].
    apply IH. by eapply CountInv_step.
Qed.

(** No file is requested twice.  In every reachable state the requests
    sent to the extraction service are at most as many as the records
    created so far; and for every batch, the requests of the batch are at
    most as many as the files it has started, which are at most the files
    of the batch. *)
Theorem one_request_per_file evs s :
  run init evs = Some s →
  length (network s) ≤ length (intake_keys (reverse (log s))) ∧
  length (network s) = count_entries is_request (log s) ∧
  ∀ t task, tasks s !! t = Some task →
    count_entries is_request (history t s) ≤
      length (intake_files (history t s)) ∧
    length (intake_files (history t s)) ≤ length (acceptedFiles task).
Proof.
  intros Hrun.
  destruct (CountInv_run _ _ _ CountInv_init Hrun) as [H1 H2 H3].
  pose proof (LogInv_reachable _ _ Hrun) as Hlog.
  split_and!; [lia|done|]. intros t task Ht. split.
  - destruct (li_monitor _ Hlog _ _ Ht) as (m & Hm & _).
    pose proof (monitor_requests _ _ _ Hm) as Hc. simpl in Hc. lia.
  - rewrite (li_files _ Hlog _ _ Ht). rewrite length_take. lia.
Qed.

Lemma one_request_per_file_witness :
  length (network (state_after two_files_trace)) ≤ 2.
Proof.
  destruct (one_request_per_file two_files_trace
              (state_after two_files_trace) ltac:(vm_compute; reflexivity))
    as (Hle & _).
  exact Hle.
Defined.

(** The console gets a line exactly when a promise of [processImage] is
    rejected -- the read of the file failed, or the set-up threw -- and the
    loop catches it: in every reachable state it has as many lines as the
    history has rejections.  A failure of the request or of its stream,
    which resolves the promise, writes nothing. *)
Theorem console_logs_rejections evs s :
  run init evs = Some s →
  length (console s) = count_entries is_rejection (log s) ∧
  ∀ t raw s',
    step s (Proc t (RequestFail raw)) = Some s' ∨
    step s (Proc t (ChunkFail raw)) = Some s' →
    console s' = console s.
Proof.
  intros Hrun.
  destruct (CountInv_run _ _ _ CountInv_init Hrun) as [H1 H2 H3].
  split; [done|]. intros t raw s' [H|H];
    apply step_Proc_inv in H as (task & s1 & task' & Ht & Hp & ->);
    proc_cases Hp; done.
Qed.

Lemma console_logs_rejections_witness :
  console (state_after two_files_trace) = [].
Proof.
  destruct (console_logs_rejections two_files_trace
              (state_after two_files_trace) ltac:(vm_compute; reflexivity))
    as (Hlen & _).
  change (count_entries is_rejection (log (state_after two_files_trace)))
    with 0 in Hlen.
  by destruct (console (state_after two_files_trace)).
Defined.

(** ** "Show More" and the navigation bar *)

Lemma utf16_length_app a b :
  utf16_length (a +:+ b) = utf16_length a + utf16_length b.
Proof.
  induction a as [|c a IH]; [done|].
  change (utf16_units c + utf16_length (a +:+ b) =
          utf16_units c + utf16_length a + utf16_length b).
  rewrite IH. lia.
Qed.

(** On ASCII text the length is the number of characters. *)
Lemma utf16_length_ascii s :
  (∀ c, c ∈ String.list_ascii_of_string s → (N_of_ascii c < 128)%N) →
  utf16_length s = String.length s.
Proof.
  induction s as [|c s IH]; [done|]. intros Hall. simpl.
  rewrite IH by (intros c' Hc'; apply Hall; by right).
  unfold utf16_units.
  destruct (N.ltb_spec (N_of_ascii c) 128) as [|Hge]; [done|].
  specialize (Hall c ltac:(by left)). lia.
Qed.

(** The length is counted in UTF-16 code units, not in bytes: the first
    chunk of the French receipt has 105 bytes and 93 units, and its card
    has no "Show More" yet. *)
Lemma accented_text_in_units :
  String.length receipt_head = 105 ∧ utf16_length receipt_head = 93 ∧
  ∃ r,
    processedImages (state_after (firstn 4 french_receipt_trace)) !! 0
    = Some r ∧
    card_body r = TextPreview receipt_head false ∧
    step (state_after (firstn 4 french_receipt_trace)) (User (ShowMore 0))
    = None.
Proof.
  split; [vm_compute; reflexivity|]. split; [vm_compute; reflexivity|].
  eexists. split_and!; vm_compute; reflexivity.
Qed.

(** Once the text of a record has more than 100 UTF-16 code units, "Show
    More" stays.  Follow the record through any sequence of events that
    does not remove it, the ids drawn being new to the store when drawn: its
    text still has more than 100 units, and its card shows the text with
    "Show More", or else an error message.  As long as the record has no
    error, a click on "Show More" opens the detail pane on the record with
    its whole text and leaves the store as it is. *)
Theorem show_more_stays evs0 s evs s' k k' r :
  run init evs0 = Some s → all_fresh init evs0 = true →
  run s evs = Some s' → all_fresh s evs = true →
  follow_run s evs k = Some k' →
  processedImages s !! k = Some r →
  100 < utf16_length (text r) →
  ∃ r',
    processedImages s' !! k' = Some r' ∧ id r' = id r ∧
    100 < utf16_length (text r') ∧
    (card_body r' = TextPreview (text r') true ∨
     ∃ msg, error r' = Some msg ∧ card_body r' = ErrorBox msg) ∧
    (error r' = None →
     ∃ s'', step s' (User (ShowMore k')) = Some s'' ∧
            detail_pane s'' = Some (name r', text r') ∧
            processedImages s'' = processedImages s').
Proof.
  intros Hrun0 Hfresh0 Hrun Hfresh Hfollow Hk Hlen.
  assert (FreshInv s) as Hinv
      by (eapply FreshInv_run; eauto using FreshInv_init).
  destruct (run_text _ _ _ _ _ _ Hinv Hfresh Hrun Hfollow Hk)
    as (r' & suffix & Hk' & Hid & Htx).
  assert (100 < utf16_length (text r')) as Hlen'
      by (rewrite Htx, utf16_length_app; lia).
  assert ((100 <? utf16_length (text r')) = true) as Hltb
      by by apply Nat.ltb_lt.
  assert (fixed_error r') as Herr.
  { assert (ErrInv s') as [Hst _].
    { eapply ErrInv_run; [|exact Hrun].
      eapply ErrInv_run; eauto using ErrInv_init. }
    rewrite Forall_forall in Hst.
    eapply Hst, list_elem_of_lookup_2; eauto. }
  exists r'. split_and!; try done.
  - unfold card_body. rewrite Hltb.
    destruct Herr as [->|[->| ->]]; [by left|right|right];
      by eexists.
  - intros Hnone. simpl. rewrite Hk'. simpl.
    unfold card_body. rewrite Hnone, Hltb. simpl. by eexists.
Qed.

Lemma show_more_stays_witness :
  ∃ r' s'',
    processedImages (state_after french_receipt_trace) !! 0 = Some r' ∧
    step (state_after french_receipt_trace) (User (ShowMore 0)) = Some s'' ∧
    detail_pane s'' = Some ("receipt.png", receipt_head +:+ receipt_tail).
Proof.
  destruct (show_more_stays
              (firstn 5 french_receipt_trace)
              (state_after (firstn 5 french_receipt_trace))
              [Proc 0 StreamEnd]
              (state_after french_receipt_trace) 0 0 _
              ltac:(vm_compute; reflexivity) ltac:(vm_compute; reflexivity)
              ltac:(vm_compute; reflexivity) ltac:(vm_compute; reflexivity)
              ltac:(vm_compute; reflexivity) ltac:(vm_compute; reflexivity)
              ltac:(vm_compute; lia))
    as (r' & Hk' & _ & _ & _ & Hclick).
  assert (r' = {| id := "82mvyr"; name := "receipt.png";
                  text := receipt_head +:+ receipt_tail;
                  isProcessing := false; error := None;
                  imageUrl := "blob:a" |}) as ->.
  { vm_compute in Hk'. by injection Hk' as <-. }
  destruct (Hclick eq_refl) as (s'' & Hstep & Hpane & _).
  eexists _, s''. split; [exact Hk'|]. by split.
Defined.

Lemma nav_run_snoc n evs e :
  nav_run n (evs ++ [e]) = nav_run n evs ≫= λ n', nav_step n' e.
Proof.
  revert n. induction evs as [|e0 evs IH]; intros n; simpl.
  - by destruct (nav_step n e).
  - destruct (nav_step n e0); simpl; [apply IH|done].
Qed.

(** Whatever is clicked in the navigation bar and in the modal, the active
    tab is "home" and the Home button is the highlighted one: the Graph
    Analysis button never becomes the active tab, it opens the modal.  The
    modal is shown exactly when the last click on Graph Analysis or on the
    close button was on Graph Analysis. *)
Theorem home_is_the_only_tab evs n :
  nav_run nav_init evs = Some n →
  activeTab n = "home" ∧ home_tab_active n = true ∧
  (showModal n = true ↔ last_modal_click evs = Some ClickGraphAnalysis).
Proof.
  revert n. induction evs as [|e evs IH] using rev_ind; intros n.
  - intros [= <-]. split_and!; [done|done|]. by split.
  - rewrite nav_run_snoc.
    destruct (nav_run nav_init evs) as [n0|]; simpl; [|done].
    destruct (IH n0 eq_refl) as (Htab & _ & Hmodal).
    unfold last_modal_click in *. rewrite filter_app.
    destruct e; intros Hn; simpl in Hn.
    + injection Hn as <-.
      rewrite filter_cons_False by (by intros ?).
      rewrite filter_nil, app_nil_r. by split_and!.
    + injection Hn as <-. rewrite filter_cons_True by done.
      rewrite filter_nil, last_snoc. unfold home_tab_active. simpl.
      rewrite Htab. by split_and!.
    + destruct (showModal n0); [|done]. injection Hn as <-.
      rewrite filter_cons_True by done. rewrite filter_nil, last_snoc.
      unfold home_tab_active. simpl. rewrite Htab.
      split_and!; [done|done|]. by split.
Qed.

Lemma home_is_the_only_tab_witness :
  ∃ n,
    nav_run nav_init [ClickGraphAnalysis; ClickHome] = Some n ∧
    activeTab n = "home" ∧ showModal n = true.
Proof.
  eexists. split; [reflexivity|].
  destruct (home_is_the_only_tab [ClickGraphAnalysis; ClickHome] _ eq_refl)
    as (Htab & _ & Hmodal).
  split; [exact Htab|]. by apply Hmodal.
Defined.

(** ** A file from the read to the end of its stream *)

Lemma chunks_run cs : ∀ s t task i fullText,
  tasks s !! t = Some task → phase task = Streaming i fullText →
  ∃ s' task',
    run s ((λ c, Proc t (Chunk c)) <$> cs) = Some s' ∧
    tasks s' !! t = Some task' ∧
    phase task' = Streaming i (fullText +:+ concat_chunks cs).
Proof.
  induction cs as [|c cs IH]; intros s t task i fullText Ht Hph.
  - exists s, task. simpl. by rewrite append_nil_r.
  - assert (t < length (tasks s)) as Hlt by by eapply lookup_lt_Some.
    edestruct (IH (upd_tasks (λ ts, <[t := with_phase
                                 (Streaming i (fullText +:+ c)) task]> ts)
                     (add_log (LChunk t i c (now s))
                        (upd_store (mapImage i (withText (fullText +:+ c)))
                           s))) t)
      as (s' & task' & Hrun & Ht' & Hph').
    { simpl. by apply list_lookup_insert_eq. }
    { done. }
    exists s', task'.
    rewrite fmap_cons.
    erewrite run_cons;
      [|eapply step_Proc_eq; [exact Ht|unfold proc_step; by rewrite Hph]].
    split_and!; try done.
    rewrite Hph'. f_equal. simpl. by rewrite append_assoc.
Qed.

(** Callbacks of the pipeline other than the timer draw no id and remove
    nothing. *)
Lemma pipeline_events_fresh evs : ∀ s,
  Forall (λ e, ∃ t pe, e = Proc t pe ∧ ∀ d, pe ≠ Timer d) evs →
  all_fresh s evs = true.
Proof.
  induction evs as [|e evs IH]; intros s Hall; [done|].
  apply Forall_cons in Hall as [(t & pe & -> & Hpe) Hall].
  cbn [all_fresh]. apply andb_true_intro. split.
  - unfold fresh_event, intake_draw. destruct pe; try done.
    by destruct (Hpe d).
  - destruct (step s (Proc t pe)); [by apply IH|done].
Qed.

Lemma pipeline_events_follow evs : ∀ s s' k,
  Forall (λ e, ∃ t pe, e = Proc t pe ∧ ∀ d, pe ≠ Timer d) evs →
  run s evs = Some s' → follow_run s evs k = Some k.
Proof.
  induction evs as [|e evs IH]; intros s s' k Hall; [done|].
  apply Forall_cons in Hall as [(t & pe & -> & Hpe) Hall].
  cbn [run follow_run]. rewrite follow_unremoved by done.
  destruct (step s (Proc t pe)) as [s1|]; simpl; [|done].
  by apply IH.
Qed.

Lemma run_follow evs : ∀ s s' k k' r,
  run s evs = Some s' → follow_run s evs k = Some k' →
  processedImages s !! k = Some r →
  ∃ r', processedImages s' !! k' = Some r' ∧ same_record r r'.
Proof.
  induction evs as [|e evs IH]; intros s s' k k' r; simpl.
  - intros [= <-] [= <-] Hk. by exists r.
  - destruct (follow s e k) as [k1|] eqn:Hf; simpl; [|by intros _ ?].
    destruct (step s e) as [s1|] eqn:He; simpl; [|done].
    intros Hrun Hfr Hk.
    destruct (step_follow _ _ _ _ _ _ He Hk Hf)
      as (r1 & Hk1 & Hid & Hname & Hurl & _).
    destruct (IH _ _ _ _ _ Hrun Hfr Hk1) as (r' & Hk' & Hid' & Hname' & Hurl').
    exists r'. split; [done|]. split_and!; congruence.
Qed.

(** A file has been handed to [processImage] and is being read; the ids
    drawn were new to the store when drawn.  When the read succeeds and the
    service opens the stream, sends any chunks and ends the stream, the
    record of the file is, at the place it had, the same record with the
    chunks concatenated as its text, not processing and without error; and
    the batch is in its delay. *)
Theorem file_read_to_stream_end evs s t task i file result cs :
  run init evs = Some s → all_fresh init evs = true →
  tasks s !! t = Some task → phase task = Reading i file →
  ∃ s' k r task',
    run s (Proc t (ReaderLoad result) :: stream_events t cs) = Some s' ∧
    processedImages s !! k = Some r ∧ id r = i ∧
    processedImages s' !! k =
      Some {| id := i; name := name r; text := concat_chunks cs;
              isProcessing := false; error := None;
              imageUrl := imageUrl r |} ∧
    tasks s' !! t = Some task' ∧
    ∃ deadline, phase task' = Delaying deadline.
Proof.
  intros Hrun0 Hfresh0 Ht Hph.
  assert (FreshInv s) as Hinv
      by (eapply FreshInv_run; eauto using FreshInv_init).
  assert (t < length (tasks s)) as Hlt by by eapply lookup_lt_Some.
  destruct (fi_owner _ Hinv t task i Ht ltac:(by rewrite Hph))
    as (r & Hr & Hid & _).
  apply list_elem_of_lookup_1 in Hr as [k Hk].
  set (s1 := upd_tasks (λ ts, <[t := with_phase (Requesting i) task]> ts)
               (add_log (LRequest t i (now s))
                  (add_request {| data := split "," result !! 1;
                                  mimeType := file_type file |} s))).
  set (s2 := upd_tasks
               (λ ts, <[t := with_phase (Streaming i "")
                                 (with_phase (Requesting i) task)]> ts) s1).
  assert (run s [Proc t (ReaderLoad result); Proc t StreamOpen] = Some s2)
    as Hrun12.
  { erewrite run_cons;
      [|eapply step_Proc_eq; [exact Ht|unfold proc_step; by rewrite Hph]].
    erewrite run_cons; [done|].
    eapply step_Proc_eq;
      [simpl; by apply list_lookup_insert_eq|by unfold proc_step]. }
  destruct (chunks_run cs s2 t _ i ""
              ltac:(simpl; apply list_lookup_insert_eq;
                    by rewrite length_insert) eq_refl)
    as (s3 & task3 & Hrun3 & Ht3 & Hph3).
  simpl in Hph3.
  set (before_end := [Proc t (ReaderLoad result); Proc t StreamOpen] ++
                     ((λ c, Proc t (Chunk c)) <$> cs)).
  assert (run s before_end = Some s3) as Hrun13.
  { unfold before_end. by rewrite run_app, Hrun12. }
  assert (Forall (λ e, ∃ t pe, e = Proc t pe ∧ ∀ d, pe ≠ Timer d)
            before_end) as Hpipe.
  { unfold before_end. apply Forall_app_2.
    - repeat (apply Forall_cons_2; [by eexists _, _|]). apply Forall_nil_2.
    - apply Forall_fmap, Forall_true. intros c. simpl. by eexists _, _. }
  assert (FreshInv s3) as Hinv3.
  { eapply FreshInv_run; [exact Hinv| |exact Hrun13].
    by apply pipeline_events_fresh. }
  destruct (run_follow before_end s s3 k k r Hrun13
              ltac:(by eapply pipeline_events_follow) Hk)
    as (r3 & Hk3 & Hid3 & Hname3 & Hurl3).
  destruct (fi_owner _ Hinv3 t task3 i Ht3 ltac:(by rewrite Hph3))
    as (r3' & Hr3' & Hid3' & Hp3 & Htx3 & Her3).
  assert (r3' = r3) as ->.
  { eapply ids_NoDup_inj; eauto using fi_nodup, list_elem_of_lookup_2.
    congruence. }
  rewrite Hph3 in Htx3. simpl in Htx3.
  assert (∃ s', step s3 (Proc t StreamEnd) = Some s' ∧
                processedImages s' = mapImage i withDone (processedImages s3) ∧
                ∃ deadline,
                  tasks s' = <[t := with_phase (Delaying deadline) task3]>
                               (tasks s3))
    as (s' & Hend & Hst' & deadline & Hts').
  { eexists. split.
    - eapply step_Proc_eq; [exact Ht3|].
      unfold proc_step, settle. by rewrite Hph3.
    - simpl. split; [done|]. by eexists. }
  exists s', k, r, (with_phase (Delaying deadline) task3). split_and!.
  - change (Proc t (ReaderLoad result) :: stream_events t cs)
      with (before_end ++ [Proc t StreamEnd]).
    rewrite run_app, Hrun13.
    transitivity (run s3 [Proc t StreamEnd]); [done|].
    by rewrite (run_cons _ _ _ _ Hend).
  - done.
  - done.
  - rewrite Hst', (mapImage_target _ _ _ _ r3 Hk3) by congruence.
    f_equal. destruct r3. simpl in *. by subst.
  - rewrite Hts'. apply list_lookup_insert_eq. by eapply lookup_lt_Some.
  - by eexists.
Qed.

Lemma file_read_to_stream_end_witness :
  ∃ s' r,
    run (state_after [Drop [receipt_png] draw_a])
      (Proc 0 (ReaderLoad data_url) ::
       stream_events 0 ["# Receipt"; " total 12"]) = Some s' ∧
    processedImages s' !! 0 = Some r ∧
    text r = "# Receipt total 12" ∧ isProcessing r = false.
Proof.
  destruct (file_read_to_stream_end
              [Drop [receipt_png] draw_a]
              (state_after [Drop [receipt_png] draw_a]) 0 _ "82mvyr"
              receipt_png data_url ["# Receipt"; " total 12"]
              ltac:(vm_compute; reflexivity) ltac:(vm_compute; reflexivity)
              ltac:(vm_compute; reflexivity) ltac:(vm_compute; reflexivity))
    as (s' & k & r & task' & Hrun & Hk & Hid & Hk' & _).
  assert (k = 0) as ->.
  { destruct k as [|k]; [done|]. vm_compute in Hk. destruct k; discriminate. }
  exists s'. eexists. split; [exact Hrun|]. split; [exact Hk'|]. by split.
Defined.

(** ** Batches side by side *)

(** When several batches run side by side and the ids drawn are new to the
    store when drawn, a callback of one batch leaves the other batches
    where they are and does not touch the record of the file another batch
    is working on: the chunks of one file never land in the record of
    another. *)
Theorem batches_do_not_interfere evs s t pe s' u task_u j :
  run init evs = Some s → all_fresh init evs = true →
  fresh_event s (Proc t pe) = true →
  step s (Proc t pe) = Some s' →
  u ≠ t → tasks s !! u = Some task_u → active_id (phase task_u) = Some j →
  tasks s' !! u = Some task_u ∧
  ∀ k r, processedImages s !! k = Some r → id r = j →
         processedImages s' !! k = Some r.
Proof.
  intros Hrun Hfresh0 Hfresh Hstep Hne Hu Hj.
  assert (FreshInv s) as Hinv
      by (eapply FreshInv_run; eauto using FreshInv_init).
  split.
  - apply step_Proc_inv in Hstep as (task & s1 & task' & Ht & Hp & ->).
    simpl. rewrite (proc_step_tasks _ _ _ _ _ _ Hp).
    by rewrite list_lookup_insert_ne.
  - intros k r Hk Hid.
    destruct (step_follow _ _ _ k r k Hstep Hk ltac:(done))
      as (r' & Hk' & _ & _ & _ & _ & Hsame).
    rewrite Hsame in Hk'; [done|].
    unfold target_id. unfold fresh_event in Hfresh.
    destruct (intake_draw s (Proc t pe)) as [d|].
    + destruct (setupError d); [|done].
      apply bool_decide_eq_true in Hfresh. intros [= He]. apply Hfresh.
      rewrite He. unfold ids.
      by eapply list_elem_of_fmap_2, list_elem_of_lookup_2.
    + destruct (tasks s !! t) as [task|] eqn:Ht; [|by destruct pe].
      assert (active_id (phase task) ≠ Some (id r)) as Hdiff.
      { intros Hi. apply Hne. symmetry.
        eapply (fi_distinct _ Hinv); eauto. congruence. }
      by destruct pe.
Qed.

Lemma batches_do_not_interfere_witness :
  ∃ r,
    processedImages
      (state_after (overlapping_trace ++ [Proc 1 StreamOpen;
                                          Proc 1 (Chunk "# Menu")])) !! 0
    = Some r ∧ text r = "".
Proof.
  destruct (batches_do_not_interfere
              (overlapping_trace ++ [Proc 1 StreamOpen])
              (state_after (overlapping_trace ++ [Proc 1 StreamOpen]))
              1 (Chunk "# Menu")
              (state_after (overlapping_trace ++
                            [Proc 1 StreamOpen; Proc 1 (Chunk "# Menu")]))
              0 _ "82mvyr"
              ltac:(vm_compute; reflexivity) ltac:(vm_compute; reflexivity)
              ltac:(vm_compute; reflexivity) ltac:(vm_compute; reflexivity)
              ltac:(done) ltac:(vm_compute; reflexivity)
              ltac:(vm_compute; reflexivity))
    as (_ & Hkeep).
  eexists. split.
  - apply (Hkeep 0); [vm_compute; reflexivity|reflexivity].
  - reflexivity.
Defined.
